(** * Zendesk monthly export: the checkpointed export controller

    A shallow embedding of [src/export.js] (the controller [run] with its
    helpers), of the batch script and of the three HTTP handlers that ship
    next to it (file-backed, auto-chaining and polling), and of the date
    helpers [getMonthRange] and [getPreviousMonth], followed by the
    properties of the incremental synchronisation and checkpointing logic.

    The program talks to four services: the Zendesk REST API, a Google
    spreadsheet holding the regions [State], [Tickets_Raw] and [Logs], Google
    Drive, and a mail transport.  Every [await] of the source is one external
    call of the model.  A call either throws or answers; what it answers is
    given by an environment [Env] indexed by the number of calls made so far,
    so that any sequence of answers and failures is covered.  The spreadsheet
    is part of the model's state, because the program reads back what it
    wrote. *)

From Stdlib Require Import ZArith List String Ascii Bool Lia Arith.
From Stdlib Require Import DecimalString DecimalZ DecimalPos Sorted.
Import ListNotations.

Local Open Scope string_scope.
Local Open Scope Z_scope.

(* ===================================================================== *)
(** * JavaScript values *)
(* ===================================================================== *)

Module JS.

(** A JavaScript string is kept as the bytes of its UTF-8 encoding, which
    is how the process environment and the JSON bodies carry it; a
    character outside ASCII takes two to four bytes. *)

(** A JavaScript number as this program meets it: an integer (timestamps,
    counters, ids) or [NaN].  [undefined] where a number is expected behaves
    like [NaN] in every comparison the program makes and is serialised like
    it in request bodies, so a missing numeric field is [NaN] as well. *)
Definition num := option Z.
Definition NaN : num := None.

Inductive value :=
| undefined
| null
| boolean (b : bool)
| number (n : num)
| str (s : string).

(** [ToBoolean]. *)
Definition truthy (v : value) : bool :=
  match v with
  | undefined | null => false
  | boolean b => b
  | number (Some z) => negb (z =? 0)
  | number None => false
  | str s => negb (s =? "")%string
  end.

(** [a || b]. *)
Definition or_else (a b : value) : value := if truthy a then a else b.

(** [a === b]. *)
Definition strict_eq (a b : value) : bool :=
  match a, b with
  | undefined, undefined => true
  | null, null => true
  | boolean x, boolean y => Bool.eqb x y
  | number (Some x), number (Some y) => x =? y
  | str x, str y => (x =? y)%string
  | _, _ => false
  end.

(** [a >= b] and [a < b] on numbers: false as soon as one side is [NaN]. *)
Definition ge (a b : num) : bool :=
  match a, b with Some x, Some y => y <=? x | _, _ => false end.

Definition lt (a b : num) : bool :=
  match a, b with Some x, Some y => x <? y | _, _ => false end.

(** [Math.floor(ms / 1000)] for an integer number of milliseconds. *)
Definition floor_div_1000 (ms : num) : num :=
  match ms with Some z => Some (z / 1000) | None => None end.

(** [Number::toString] of an integer: decimal digits, a minus sign for
    negative numbers, no leading zero. *)
Definition string_of_Z (z : Z) : string := NilZero.string_of_int (Z.to_int z).

Definition string_of_num (n : num) : string :=
  match n with Some z => string_of_Z z | None => "NaN" end.

(** [ToString], as template literals apply it. *)
Definition to_string (v : value) : string :=
  match v with
  | undefined => "undefined"
  | null => "null"
  | boolean true => "true"
  | boolean false => "false"
  | number n => string_of_num n
  | str s => s
  end.

(** ** [parseInt] *)

(** White space and line terminators ([WhiteSpace] and [LineTerminator]
    of ECMA-262), which [parseInt] and [trim] strip.  Those of one byte:
    U+0009 to U+000D and U+0020. *)
Definition is_space (c : ascii) : bool :=
  let n := nat_of_ascii c in
  ((9 <=? n) && (n <=? 13))%nat || (n =? 32)%nat.

(** Of two bytes: U+00A0, encoded C2 A0. *)
Definition is_space2 (a b : ascii) : bool :=
  ((nat_of_ascii a =? 194) && (nat_of_ascii b =? 160))%nat.

(** Of three bytes: U+1680 (E1 9A 80), U+2000 to U+200A (E2 80 80 to
    E2 80 8A), U+2028, U+2029 and U+202F (E2 80 A8, A9 and AF), U+205F
    (E2 81 9F), U+3000 (E3 80 80) and U+FEFF (EF BB BF). *)
Definition is_space3 (a b c : ascii) : bool :=
  let x := nat_of_ascii a in
  let y := nat_of_ascii b in
  let z := nat_of_ascii c in
  ((x =? 225) && (y =? 154) && (z =? 128)
   || (x =? 226) && (y =? 128)
      && ((128 <=? z) && (z <=? 138) || (z =? 168) || (z =? 169) || (z =? 175))
   || (x =? 226) && (y =? 129) && (z =? 159)
   || (x =? 227) && (y =? 128) && (z =? 128)
   || (x =? 239) && (y =? 187) && (z =? 191))%nat.

(** The string without the white space it begins with.  [back] is set when
    the bytes come last first, as they do when the end of a string is
    stripped: a character of several bytes is then met from its last
    byte. *)
Fixpoint skip_spaces_from (back : bool) (s : string) : string :=
  match s with
  | String c1 s1 =>
      if is_space c1 then skip_spaces_from back s1
      else
        match s1 with
        | String c2 s2 =>
            if (if back then is_space2 c2 c1 else is_space2 c1 c2)
            then skip_spaces_from back s2
            else
              match s2 with
              | String c3 s3 =>
                  if (if back then is_space3 c3 c2 c1 else is_space3 c1 c2 c3)
                  then skip_spaces_from back s3
                  else s
              | EmptyString => s
              end
        | EmptyString => s
        end
  | EmptyString => s
  end.

Definition skip_spaces (s : string) : string := skip_spaces_from false s.

(** The value of a character as a digit of some radix up to 36. *)
Definition digit_val (c : ascii) : option Z :=
  let n := Z.of_nat (nat_of_ascii c) in
  if (48 <=? n) && (n <=? 57) then Some (n - 48)
  else if (97 <=? n) && (n <=? 122) then Some (n - 87)
  else if (65 <=? n) && (n <=? 90) then Some (n - 55)
  else None.

(** The longest prefix of [s] made of digits of the radix, read from the
    left; [acc] is [None] until a first digit has been read. *)
Fixpoint read_digits (radix : Z) (s : string) (acc : option Z) : option Z :=
  match s with
  | String c s' =>
      match digit_val c with
      | Some d =>
          if d <? radix
          then read_digits radix s'
                 (Some (radix * match acc with Some a => a | None => 0 end + d))
          else acc
      | None => acc
      end
  | EmptyString => acc
  end.

Definition strip_sign (s : string) : Z * string :=
  match s with
  | String "-" s' => (-1, s')
  | String "+" s' => (1, s')
  | _ => (1, s)
  end.

Definition strip_hex_prefix (s : string) : Z * string :=
  match s with
  | String "0" (String "x" s') => (16, s')
  | String "0" (String "X" s') => (16, s')
  | _ => (10, s)
  end.

(** [parseInt(s)] without a radix argument. *)
Definition parseInt_string (s : string) : num :=
  let (sign, s1) := strip_sign (skip_spaces s) in
  let (radix, s2) := strip_hex_prefix s1 in
  match read_digits radix s2 None with
  | Some m => Some (sign * m)
  | None => None
  end.

(** [parseInt(row[1])] where the cell may be missing: [parseInt(undefined)]
    reads the string "undefined" and finds no digit. *)
Definition parseInt (cell : option string) : num :=
  match cell with
  | Some s => parseInt_string s
  | None => parseInt_string "undefined"
  end.

(** ** [String.prototype.trim] and [split(",")] *)

Fixpoint rev_string (s acc : string) : string :=
  match s with
  | String c s' => rev_string s' (String c acc)
  | EmptyString => acc
  end.

Definition trim (s : string) : string :=
  rev_string (skip_spaces_from true (rev_string (skip_spaces s) "")) "".

(** [s.split(",")]: the pieces between commas; one piece when there is no
    comma, even for the empty string. *)
Fixpoint split_comma (s : string) (piece : string) : list string :=
  match s with
  | String c s' =>
      if (c =? ",")%char then rev_string piece "" :: split_comma s' ""
      else split_comma s' (String c piece)
  | EmptyString => [rev_string piece ""]
  end.

(** [Array.prototype.join] on strings: the separator goes before every
    element but the first. *)
Definition join (sep : string) (l : list string) : string :=
  snd (fold_left
         (fun (st : bool * string) (x : string) =>
            let (first, r) := st in
            (false, if first then r ++ x else r ++ sep ++ x))
         l (true, "")).

End JS.

Import JS.

(* ===================================================================== *)
(** * Data: what the services answer, what the spreadsheet holds *)
(* ===================================================================== *)

(** A ticket of the incremental feed, with the fields the program reads.
    [ticket_via_channel] is [ticket.via?.channel]. *)
Record ticket := mkTicket {
  ticket_id : value;
  ticket_created_at : value;
  ticket_requester_id : value;
  ticket_via_channel : value;
  ticket_subject : value;
  ticket_status : value
}.

Record comment := mkComment {
  comment_public : value;
  comment_author_id : value;
  comment_body : value
}.

(** One page of [/api/v2/incremental/tickets.json]; [tickets] is [None]
    when the body has no such array. *)
Record feed_page := mkPage {
  tickets : option (list ticket);
  end_time : num;
  end_of_stream : value;
  next_page : value
}.

(** [userData.user?.email] *)
Record user_reply := mkUser { user_email : value }.

Record comments_reply := mkComments { comments : option (list comment) }.

(** A spreadsheet row written by the program. *)
Definition row := list value.

(** The [State!A:B] region as [values.get] returns it: rows of text cells. *)
Definition state_rows := list (list string).

(** Configuration read from the process environment when the module loads.
    [startTimestamp] and [endTimestamp] are what [getMonthRange(monthStr)]
    computed ([NaN] for a month string that is no date). *)
Record Config := mkConfig {
  monthStr : string;
  startTimestamp : num;
  endTimestamp : num;
  ZENDESK_SUBDOMAIN : value;
  EMAIL_RECIPIENTS : option string;
  GMAIL_SENDER : value
}.

(** [[
const RECIPIENTS = process.env.EMAIL_RECIPIENTS
  ? process.env.EMAIL_RECIPIENTS.split(",").map(e => e.trim())
  : [];
]] *)
Definition RECIPIENTS (C : Config) : list string :=
  match EMAIL_RECIPIENTS C with
  | Some s => if truthy (str s) then map trim (split_comma s "") else []
  | None => []
  end.

(** ** External calls *)

Inductive request :=
| GetState                                  (* values.get   State!A:B        *)
| UpdateState (checkpoint : num)            (* values.update State!A2:B2     *)
| ClearState                                (* values.clear State!A2:B2      *)
| AppendRaw (rows : list row)               (* values.append Tickets_Raw!A:F *)
| GetRaw                                    (* values.get   Tickets_Raw!A:F  *)
| ClearRaw                                  (* values.clear Tickets_Raw!A:F  *)
| AppendLog (entry : row)                   (* values.append Logs!A:G        *)
| ClearLogs                                 (* values.clear Logs!A:G         *)
| FetchFeed (url : value) (cursor : num)    (* fetch(nextUrl)                *)
| FetchUser (url : string)
| FetchComments (url : string)
| CreateFile (name : string)                (* drive.files.create            *)
| WriteExport (fileId : value) (values : list row)
| Grant (fileId : value) (emailAddress : string)
| SendMail (to : list string) (subject text : string).

Inductive response :=
| Threw (msg : string)
| Done
| GotState (rows : state_rows)
| GotRaw (rows : list row)
| GotPage (data : feed_page)
| GotUser (userData : user_reply)
| GotComments (commentsData : comments_reply)
| GotFile (id : value).

(** Everything outside the program.  The [nat] is the number of external
    calls made before the one being answered.  [fails n = Some msg]: call
    number [n] throws [msg] (a network error, a body that is no JSON, an API
    error of the Google client).  [Date_getTime v] is
    [new Date(v).getTime()], [NaN] for an invalid date. *)
Record Env := mkEnv {
  fails : nat -> option string;
  feed : nat -> value -> feed_page;
  users : nat -> string -> user_reply;
  ticket_comments : nat -> string -> comments_reply;
  new_file_id : nat -> value;
  now : nat -> string;
  Date_getTime : value -> num
}.

(** The spreadsheet and the log of calls made so far, oldest first.  In a
    [FetchFeed] entry [cursor] is the program's [checkpoint] variable at
    the time of the call: the position the paginator is asked to go on
    from. *)
Record World := mkWorld {
  State : state_rows;
  Tickets_Raw : list row;
  Logs : list row;
  trace : list (request * response)
}.

Definition with_State (f : state_rows -> state_rows) (w : World) : World :=
  mkWorld (f (State w)) (Tickets_Raw w) (Logs w) (trace w).

Definition with_Raw (f : list row -> list row) (w : World) : World :=
  mkWorld (State w) (f (Tickets_Raw w)) (Logs w) (trace w).

Definition with_Logs (f : list row -> list row) (w : World) : World :=
  mkWorld (State w) (Tickets_Raw w) (f (Logs w)) (trace w).

Definition logged (rq : request) (rs : response) (w : World) : World :=
  mkWorld (State w) (Tickets_Raw w) (Logs w) (trace w ++ [(rq, rs)])%list.

(* ===================================================================== *)
(** * The monad of the program: state, exceptions, fuel *)
(* ===================================================================== *)

Inductive result (A : Type) :=
| Ok (a : A)
| Throw (msg : string)
| OutOfFuel.

Arguments Ok {A} a.
Arguments Throw {A} msg.
Arguments OutOfFuel {A}.

Definition M (A : Type) := World -> result A * World.

Definition ret {A} (a : A) : M A := fun w => (Ok a, w).

Definition bind {A B} (m : M A) (k : A -> M B) : M B :=
  fun w =>
    match m w with
    | (Ok a, w') => k a w'
    | (Throw msg, w') => (Throw msg, w')
    | (OutOfFuel, w') => (OutOfFuel, w')
    end.

Notation "x <- m ;; k" := (bind m (fun x => k))
  (at level 61, m at next level, right associativity).
Notation "m ;;; k" := (bind m (fun _ => k))
  (at level 61, right associativity).

(** One [await]ed call: it throws when the environment says so and leaves
    the spreadsheet alone; otherwise [serve] computes the answer from the
    world before the call and [effect] is what the call does to the
    spreadsheet. *)
Definition call {A} (E : Env) (rq : request)
    (serve : nat -> World -> response * A) (effect : World -> World) : M A :=
  fun w =>
    let n := List.length (trace w) in
    match fails E n with
    | Some msg => (Throw msg, logged rq (Threw msg) w)
    | None => let (rs, a) := serve n w in (Ok a, logged rq rs (effect w))
    end.

(* ===================================================================== *)
(** * The spreadsheet *)
(* ===================================================================== *)

Module Sheets.

(** Replace the second row of a region, which the range [A2:B2] names. *)
Definition put_row2 (r : list string) (rows : state_rows) : state_rows :=
  match rows with
  | [] => [[]; r]
  | [h] => [h; r]
  | h :: _ :: t => h :: r :: t
  end.

(** [values.update] of [State!A2:B2] with [[["checkpoint", checkpoint]]].
    A [NaN] or [undefined] checkpoint is [null] in the JSON body, and the
    service skips a null cell: B2 keeps what it held. *)
Definition write_checkpoint (checkpoint : num) (rows : state_rows) : state_rows :=
  match checkpoint with
  | Some z => put_row2 ["checkpoint"; string_of_Z z] rows
  | None => put_row2 ("checkpoint" :: firstn 1 (skipn 1 (nth 1 rows []))) rows
  end.

Definition clear_row2 (rows : state_rows) : state_rows := put_row2 [] rows.

Definition get_State (E : Env) : M state_rows :=
  call E GetState (fun _ w => (GotState (State w), State w)) (fun w => w).

Definition update_State (E : Env) (checkpoint : num) : M unit :=
  call E (UpdateState checkpoint) (fun _ _ => (Done, tt))
       (with_State (write_checkpoint checkpoint)).

Definition clear_State (E : Env) : M unit :=
  call E ClearState (fun _ _ => (Done, tt)) (with_State clear_row2).

Definition append_Raw (E : Env) (rows : list row) : M unit :=
  call E (AppendRaw rows) (fun _ _ => (Done, tt))
       (with_Raw (fun old => (old ++ rows)%list)).

Definition get_Raw (E : Env) : M (list row) :=
  call E GetRaw (fun _ w => (GotRaw (Tickets_Raw w), Tickets_Raw w)) (fun w => w).

Definition clear_Raw (E : Env) : M unit :=
  call E ClearRaw (fun _ _ => (Done, tt)) (with_Raw (fun _ => [])).

Definition append_Logs (E : Env) (entry : nat -> row) : M unit :=
  fun w =>
    let n := List.length (trace w) in
    call E (AppendLog (entry n)) (fun _ _ => (Done, tt))
         (with_Logs (fun old => (old ++ [entry n])%list)) w.

Definition clear_Logs (E : Env) : M unit :=
  call E ClearLogs (fun _ _ => (Done, tt)) (with_Logs (fun _ => [])).

End Sheets.

(* ===================================================================== *)
(** * src/export.js *)
(* ===================================================================== *)

Module ExportJs.

(** [[
async function log(status, checkpoint, fetched, saved, lastTicket)
]]
    One row appended to [Logs!A:G]. *)
Definition log (E : Env) (C : Config)
    (status : string) (checkpoint : value) (fetched saved : nat)
    (lastTicket : value) : M unit :=
  Sheets.append_Logs E (fun n =>
    [ str (now E n); str (monthStr C); checkpoint;
      number (Some (Z.of_nat fetched)); number (Some (Z.of_nat saved));
      lastTicket; str status ]).

(** [stateRes.data.values.forEach(row => { if (row[0] === "checkpoint")
    checkpoint = parseInt(row[1]); })]: every row is visited, the last
    matching one wins.  A missing [values] visits nothing, like [[]]. *)
Definition read_checkpoint (rows : state_rows) (checkpoint : num) : num :=
  fold_left
    (fun cp r =>
       match nth_error r 0 with
       | Some k => if (k =? "checkpoint")%string then parseInt (nth_error r 1) else cp
       | None => cp
       end)
    rows checkpoint.

Definition host (C : Config) : string :=
  "https://" ++ to_string (ZENDESK_SUBDOMAIN C) ++ ".zendesk.com".

Definition incremental_url (C : Config) (checkpoint : num) : string :=
  host C ++ "/api/v2/incremental/tickets.json?start_time=" ++ string_of_num checkpoint.

Definition user_url (C : Config) (requester_id : value) : string :=
  host C ++ "/api/v2/users/" ++ to_string requester_id ++ ".json".

Definition comments_url (C : Config) (id : value) : string :=
  host C ++ "/api/v2/tickets/" ++ to_string id ++ "/comments.json".

(** [fetch(url)] followed by [response.json()]. *)
Definition fetch_feed (E : Env) (nextUrl : value) (cursor : num) : M feed_page :=
  call E (FetchFeed nextUrl cursor)
       (fun n _ => (GotPage (feed E n nextUrl), feed E n nextUrl)) (fun w => w).

Definition fetch_user (E : Env) (url : string) : M user_reply :=
  call E (FetchUser url) (fun n _ => (GotUser (users E n url), users E n url))
       (fun w => w).

Definition fetch_comments (E : Env) (url : string) : M comments_reply :=
  call E (FetchComments url)
       (fun n _ => (GotComments (ticket_comments E n url), ticket_comments E n url))
       (fun w => w).

(** [createdTs >= startTimestamp && createdTs < endTimestamp] *)
Definition createdTs (E : Env) (t : ticket) : num :=
  floor_div_1000 (Date_getTime E (ticket_created_at t)).

Definition in_window (C : Config) (ts : num) : bool :=
  ge ts (startTimestamp C) && lt ts (endTimestamp C).

Definition separator : string :=
  String "010" (String "010" ("---" ++ String "010" (String "010" ""))).

(** [[
const role = c.author_id === ticket.requester_id ? "**Requester:**" : "**Agent:**";
return `${role} ${c.body}`;
]] *)
Definition role (requester_id : value) (c : comment) : string :=
  if strict_eq (comment_author_id c) requester_id
  then "**Requester:**" else "**Agent:**".

Definition format_comment (requester_id : value) (c : comment) : string :=
  role requester_id c ++ " " ++ to_string (comment_body c).

(** [publicComments] and [formattedComments] *)
Definition publicComments (commentsData : comments_reply) : list comment :=
  filter (fun c => truthy (comment_public c))
         (match comments commentsData with Some l => l | None => [] end).

Definition formattedComments (requester_id : value) (commentsData : comments_reply)
  : string :=
  join separator (map (format_comment requester_id) (publicComments commentsData)).

(** The body of [if (createdTs >= startTimestamp && ...)] after
    [lastTicketID = ticket.id]: two lookups, then the row that is pushed. *)
Definition enrich (E : Env) (C : Config) (t : ticket) : M row :=
  requesterEmail <-
    (if truthy (ticket_requester_id t)
     then userData <- fetch_user E (user_url C (ticket_requester_id t)) ;;
          ret (or_else (user_email userData) (str "N/A"))
     else ret (str "N/A")) ;;
  commentsData <- fetch_comments E (comments_url C (ticket_id t)) ;;
  ret [ ticket_id t;
        ticket_created_at t;
        requesterEmail;
        or_else (ticket_via_channel t) (str "");
        or_else (ticket_subject t) (str "");
        str (formattedComments (ticket_requester_id t) commentsData) ].

(** [for (const ticket of tickets) { ... }], threading [rows] and
    [lastTicketID]. *)
Fixpoint for_tickets (E : Env) (C : Config) (ts : list ticket)
    (rows : list row) (lastTicketID : value) : M (list row * value) :=
  match ts with
  | [] => ret (rows, lastTicketID)
  | t :: rest =>
      if in_window C (createdTs E t)
      then r <- enrich E C t ;;
           for_tickets E C rest (rows ++ [r])%list (ticket_id t)
      else for_tickets E C rest rows lastTicketID
  end.

(** The variables [run] declares with [let] before its loop. *)
Record locals := mkLocals {
  checkpoint : num;
  totalFetched : nat;
  totalSaved : nat;
  lastTicketID : value
}.

(** [data.tickets || []] *)
Definition page_tickets (data : feed_page) : list ticket :=
  match tickets data with Some l => l | None => [] end.

(** [if (data.end_of_stream || checkpoint >= endTimestamp) break;] *)
Definition breaks (C : Config) (data : feed_page) : bool :=
  truthy (end_of_stream data) || ge (end_time data) (endTimestamp C).

(** [while (nextUrl) { ... }].  [fuel] bounds the number of pages. *)
Fixpoint loop (E : Env) (C : Config) (fuel : nat) (nextUrl : value)
    (st : locals) : M locals :=
  if truthy nextUrl then
    match fuel with
    | O => fun w => (OutOfFuel, w)
    | S fuel' =>
        data <- fetch_feed E nextUrl (checkpoint st) ;;
        let tickets := page_tickets data in
        let newCheckpoint := end_time data in
        let fetched := (totalFetched st + List.length tickets)%nat in
        found <- for_tickets E C tickets [] (lastTicketID st) ;;
        let (rows, last) := found : list row * value in
        saved <-
          (match rows with
           | [] => ret (totalSaved st)
           | _ :: _ => Sheets.append_Raw E rows ;;;
                       ret (totalSaved st + List.length rows)%nat
           end) ;;
        Sheets.update_State E newCheckpoint ;;;
        log E C "Running" (number newCheckpoint) fetched saved last ;;;
        let st' := mkLocals newCheckpoint fetched saved last in
        if breaks C data then ret st'
        else loop E C fuel' (next_page data) st'
    end
  else ret st.

Definition header : row :=
  [ str "Ticket ID"; str "Created At"; str "Requester Email";
    str "Channel"; str "Subject"; str "All Public Comments" ].

(** [for (const email of RECIPIENTS) await drive.permissions.create(...)] *)
Fixpoint share (E : Env) (exportId : value) (recipients : list string) : M unit :=
  match recipients with
  | [] => ret tt
  | email :: rest =>
      call E (Grant exportId email) (fun _ _ => (Done, tt)) (fun w => w) ;;;
      share E exportId rest
  end.

(** Everything [run] does after its loop. *)
Definition finalize (E : Env) (C : Config) (st : locals) : M unit :=
  exportId <- call E (CreateFile ("Zendesk Export - " ++ monthStr C))
                (fun n _ => (GotFile (new_file_id E n), new_file_id E n))
                (fun w => w) ;;
  rawData <- Sheets.get_Raw E ;;
  call E (WriteExport exportId (header :: rawData))
       (fun _ _ => (Done, tt)) (fun w => w) ;;;
  share E exportId (RECIPIENTS C) ;;;
  (match RECIPIENTS C with
   | [] => ret tt
   | _ :: _ =>
       call E (SendMail (RECIPIENTS C)
                 ("Zendesk Monthly Report - " ++ monthStr C)
                 ("Export complete:" ++ String "010"
                    ("https://docs.google.com/spreadsheets/d/" ++ to_string exportId)))
            (fun _ _ => (Done, tt)) (fun w => w)
   end) ;;;
  Sheets.clear_State E ;;;
  Sheets.clear_Raw E ;;;
  log E C "Export Complete" (str "FINAL") (totalFetched st) (totalSaved st) (str "DONE").

(** [async function run()] *)
Definition run (E : Env) (C : Config) (fuel : nat) : M unit :=
  rows <- Sheets.get_State E ;;
  let checkpoint := read_checkpoint rows (startTimestamp C) in
  let nextUrl := str (incremental_url C checkpoint) in
  st <- loop E C fuel nextUrl (mkLocals checkpoint 0 0 null) ;;
  finalize E C st.

(** How the process ends. *)
Inductive outcome := Exit (code : Z) | StillRunning.

(** The module top level: leave at once without [EXPORT_MONTH]; otherwise
    [run().catch(async err => { await log(`ERROR: ...`, "UNKNOWN", 0, 0,
    "FAIL"); process.exit(1); })].  A rejection of the handler's own [log]
    is unhandled and ends the process with code 1 as well. *)
Definition main (E : Env) (C : Config) (fuel : nat) (w : World) : outcome * World :=
  if negb (truthy (str (monthStr C))) then (Exit 0, w)
  else
    match run E C fuel w with
    | (Ok _, w') => (Exit 0, w')
    | (Throw msg, w') =>
        (Exit 1, snd (log E C ("ERROR: " ++ msg) (str "UNKNOWN") 0 0 (str "FAIL") w'))
    | (OutOfFuel, w') => (StillRunning, w')
    end.

End ExportJs.

(* ===================================================================== *)
(** * The batch script *)
(* ===================================================================== *)

(** The sibling of [export.js] among the repository's variants of the
    controller.  Its loop, its enrichment and its logging are those of
    [export.js] word for word; it differs in how it reads the checkpoint, in
    clearing the log and the staging rows on a fresh run, in not trimming
    the recipients, and in finalizing only when the cursor has reached the
    window's end. *)
Module Batch.

Import ExportJs.

(** [[
const RECIPIENTS = process.env.EMAIL_RECIPIENTS
  ? process.env.EMAIL_RECIPIENTS.split(",")
  : [];
]] *)
Definition RECIPIENTS (C : Config) : list string :=
  match EMAIL_RECIPIENTS C with
  | Some s => if truthy (str s) then split_comma s "" else []
  | None => []
  end.

(** [[
if (row[0] === "checkpoint" && row[1]) {
  checkpoint = parseInt(row[1]);
  isFreshRun = false;
}
]] *)
Definition read_state (rows : state_rows) (checkpoint : num) : num * bool :=
  fold_left
    (fun (acc : num * bool) r =>
       match nth_error r 0, nth_error r 1 with
       | Some k, Some v =>
           if (k =? "checkpoint")%string && truthy (str v)
           then (parseInt (Some v), false)
           else acc
       | _, _ => acc
       end)
    rows (checkpoint, true).

(** The body of [if (checkpoint >= endTimestamp) { ... }]. *)
Definition finalize (E : Env) (C : Config) (st : locals) : M unit :=
  exportId <- call E (CreateFile ("Zendesk Export - " ++ monthStr C))
                (fun n _ => (GotFile (new_file_id E n), new_file_id E n))
                (fun w => w) ;;
  rawData <- Sheets.get_Raw E ;;
  call E (WriteExport exportId (header :: rawData))
       (fun _ _ => (Done, tt)) (fun w => w) ;;;
  share E exportId (RECIPIENTS C) ;;;
  (match RECIPIENTS C with
   | [] => ret tt
   | _ :: _ =>
       call E (SendMail (RECIPIENTS C)
                 ("Zendesk Monthly Report - " ++ monthStr C)
                 ("Export complete:" ++ String "010"
                    ("https://docs.google.com/spreadsheets/d/" ++ to_string exportId)))
            (fun _ _ => (Done, tt)) (fun w => w)
   end) ;;;
  Sheets.clear_State E ;;;
  Sheets.clear_Raw E ;;;
  log E C "Export Complete" (str "FINAL") (totalFetched st) (totalSaved st) (str "DONE").

(** [async function run()] *)
Definition run (E : Env) (C : Config) (fuel : nat) : M unit :=
  rows <- Sheets.get_State E ;;
  let (checkpoint, isFreshRun) := read_state rows (startTimestamp C) in
  (if isFreshRun then Sheets.clear_Logs E ;;; Sheets.clear_Raw E else ret tt) ;;;
  let nextUrl := str (incremental_url C checkpoint) in
  st <- loop E C fuel nextUrl (mkLocals checkpoint 0 0 null) ;;
  if ge (ExportJs.checkpoint st) (endTimestamp C)
  then finalize E C st
  else ret tt.

End Batch.

(* ===================================================================== *)
(** * The file-backed single-shot handler *)
(* ===================================================================== *)

(** The first of the HTTP handlers shipped with [export.js]: one feed page
    per request, progress kept in files under [/tmp], an Excel workbook
    mailed once the feed signals its end. *)
Module Handler.

(** [/tmp/checkpoint.json] (its [end_time]), [/tmp/tickets.json] and
    [/tmp/december_export.xlsx]; [None] when the file does not exist. *)
Record Files := mkFiles {
  checkpoint_json : option num;
  tickets_json : option (list ticket);
  december_export : option (list row)
}.

(** What one request meets: whether the three Zendesk settings are there,
    the feed's answer to a start time, and whether the mail goes out. *)
Record Upstream := mkUpstream {
  credentials : bool;
  response_ok : bool;
  response_status : Z;
  response_text : string;
  data : num -> feed_page;
  sendMail_error : option string
}.

Inductive reply :=
| Failed (status : Z) (error : string)
| Collected (processed_this_call total_collected : nat)
| Completed (total_tickets : nat).

(** [Math.floor(new Date("2025-12-01T00:00:00Z").getTime() / 1000)] *)
Definition december_1_2025 : num := Some 1764547200.

Definition startTime (fs : Files) : num :=
  match checkpoint_json fs with
  | Some end_time => end_time
  | None => december_1_2025
  end.

Definition formatted (t : ticket) : row :=
  [ ticket_id t; ticket_created_at t; ticket_requester_id t;
    or_else (ticket_via_channel t) (str "");
    or_else (ticket_subject t) (str "");
    ticket_status t ].

(** The reply, the files afterwards, and the workbooks mailed. *)
Definition handler (U : Upstream) (fs : Files) : reply * Files * list (list row) :=
  if negb (credentials U) then (Failed 500 "Missing Zendesk credentials", fs, [])
  else if negb (response_ok U) then (Failed (response_status U) (response_text U), fs, [])
  else
    let data := data U (startTime fs) in
    let tickets := match tickets data with Some l => l | None => [] end in
    let existing := match tickets_json fs with Some l => l | None => [] end in
    let combined := (existing ++ tickets)%list in
    let fs1 := mkFiles (Some (end_time data)) (Some combined) (december_export fs) in
    if negb (truthy (end_of_stream data))
    then (Collected (List.length tickets) (List.length combined), fs1, [])
    else
      let sheet := map formatted combined in
      let fs2 := mkFiles (checkpoint_json fs1) (tickets_json fs1) (Some sheet) in
      match sendMail_error U with
      | Some msg => (Failed 500 msg, fs2, [])
      | None => (Completed (List.length combined), mkFiles None None None, [sheet])
      end.

End Handler.

(* ===================================================================== *)
(** * A concrete environment for the examples *)
(* ===================================================================== *)

Module Sample.

(** Days from 1970-01-01 to a civil date of the proleptic Gregorian
    calendar. *)
Definition days_from_civil (y m d : Z) : Z :=
  let y' := if m <=? 2 then y - 1 else y in
  let era := y' / 400 in
  let yoe := y' - era * 400 in
  let doy := (153 * (if 2 <? m then m - 3 else m + 9) + 2) / 5 + d - 1 in
  let doe := yoe * 365 + yoe / 4 - yoe / 100 + doy in
  era * 146097 + doe - 719468.

Definition field (s : string) (from len : nat) : option Z :=
  let f := substring from len s in
  if (String.length f =? len)%nat then
    match read_digits 10 f None with
    | Some z => if (String.length (string_of_Z z) <=? len)%nat then Some z else None
    | None => None
    end
  else None.

(** [new Date(v).getTime()] for the timestamps Zendesk sends,
    [YYYY-MM-DDTHH:MM:SSZ]; any other value is an invalid date here. *)
Definition iso_getTime (v : value) : num :=
  match v with
  | str s =>
      match field s 0 4, field s 5 2, field s 8 2,
            field s 11 2, field s 14 2, field s 17 2 with
      | Some y, Some m, Some d, Some hh, Some mm, Some ss =>
          if ((substring 4 1 s =? "-") && (substring 7 1 s =? "-")
              && (substring 10 1 s =? "T") && (substring 13 1 s =? ":")
              && (substring 16 1 s =? ":") && (substring 19 2 s =? "Z"))%string
             && (1 <=? m) && (m <=? 12) && (1 <=? d) && (d <=? 31)
             && (hh <=? 23) && (mm <=? 59) && (ss <=? 59)
          then Some ((days_from_civil y m d * 86400 + hh * 3600 + mm * 60 + ss) * 1000)
          else None
      | _, _, _, _, _, _ => None
      end
  | _ => None
  end.

(** December 2025, as [getMonthRange("2025-12")] computes it under UTC. *)
Definition december : Config :=
  mkConfig "2025-12" (Some 1764547200) (Some 1767225600) (str "acme") None undefined.

Definition november : Config :=
  mkConfig "2025-11" (Some 1761955200) (Some 1764547200) (str "acme") None undefined.

Definition empty_world : World := mkWorld [] [] [] [].

Definition ticket_at (id : Z) (created_at : string) (requester : Z) : ticket :=
  mkTicket (number (Some id)) (str created_at) (number (Some requester))
           (str "email") (str "Help") (str "open").

(** An upstream that never fails and answers every feed request with the
    same page. *)
Definition quiet (page : feed_page) (cs : list comment) : Env :=
  mkEnv (fun _ => None) (fun _ _ => page)
        (fun _ _ => mkUser (str "ann@example.org"))
        (fun _ _ => mkComments (Some cs))
        (fun _ => str "sheet-1") (fun _ => "now") iso_getTime.

(** The same, except that call number [k] throws. *)
Definition failing_at (k : nat) (msg : string) (E : Env) : Env :=
  mkEnv (fun n => if (n =? k)%nat then Some msg else fails E n)
        (feed E) (users E) (ticket_comments E) (new_file_id E) (now E)
        (Date_getTime E).

(** A page of the feed as updated tickets come back: one created eleven
    days before December 2025, one two weeks after it. *)
Definition stray_page : feed_page :=
  mkPage (Some [ ticket_at 11 "2025-11-20T09:30:00Z" 7;
                 ticket_at 12 "2026-01-15T12:00:00Z" 8 ])
         (Some 1768478400) (boolean false) null.

Definition stray_upstream : Handler.Upstream :=
  Handler.mkUpstream true true 200 "" (fun _ => stray_page) None.

Definition no_files : Handler.Files := Handler.mkFiles None None None.

(** A page that ends past December while the feed has more to give. *)
Definition past_december : feed_page :=
  mkPage (Some [ticket_at 1 "2025-12-01T00:00:05Z" 7])
         (Some 1767225700) (boolean false)
         (str "https://acme.zendesk.com/api/v2/incremental/tickets.json?start_time=1767225700").

(** Three tickets of December 2025 on a last page. *)
Definition three_tickets : list ticket :=
  [ ticket_at 101 "2025-12-02T08:00:00Z" 7;
    ticket_at 102 "2025-12-03T08:00:00Z" 8;
    ticket_at 103 "2025-12-04T08:00:00Z" 9 ].

Definition three_page : feed_page :=
  mkPage (Some three_tickets) (Some 1767225600) (boolean true) null.

Definition talk : list comment :=
  [ mkComment (boolean true) (number (Some 7)) (str "It is broken");
    mkComment (boolean false) (number (Some 50)) (str "internal note");
    mkComment (boolean true) (number (Some 50)) (str "Fixed") ].

(** November's feed: an empty first page that ends on 1 November at noon
    and names a next page.  The fourth call of the run, the "Running" log
    entry, throws, so that the run dies just after its first commit. *)
Definition november_page : feed_page :=
  mkPage (Some []) (Some 1762000000) (boolean false) (str "https://next").

Definition dies_after_commit : Env :=
  failing_at 3 "quota exceeded" (quiet november_page []).

(** A feed of two empty pages: the first, asked from 1 December, ends at
    1764550000 and names the second, which ends at 1764560000 and is the
    last.  Every page ends at or after the cursor it was asked from. *)
Definition december_first_url : string :=
  "https://acme.zendesk.com/api/v2/incremental/tickets.json?start_time=1764547200".

Definition december_second_url : string :=
  "https://acme.zendesk.com/api/v2/incremental/tickets.json?start_time=1764550000".

Definition two_pages : Env :=
  mkEnv (fun _ => None)
        (fun _ url =>
           if strict_eq url (str december_first_url)
           then mkPage (Some []) (Some 1764550000) (boolean false)
                       (str december_second_url)
           else mkPage (Some []) (Some 1764560000) (boolean true) null)
        (fun _ _ => mkUser (str "ann@example.org"))
        (fun _ _ => mkComments (Some []))
        (fun _ => str "sheet-1") (fun _ => "now") iso_getTime.

(** The report's creation, call number 11 of the first run, throws. *)
Definition drive_is_down : Env :=
  failing_at 11 "drive is down" (quiet three_page talk).

(** A spreadsheet left by a run that failed while finalizing December:
    the cursor stands at the window's end, one row is staged. *)
Definition december_fetched : World :=
  mkWorld [[]; ["checkpoint"; "1767225600"]]
          [[number (Some 1); str "2025-12-01T00:00:05Z"; str "ann@example.org";
            str "email"; str "Help"; str ""]]
          [] [].

(** What the feed has from the end of December on: a January ticket. *)
Definition january_page : feed_page :=
  mkPage (Some [ticket_at 201 "2026-01-03T10:00:00Z" 7])
         (Some 1767400000) (boolean true) null.

(** The feed runs dry in the middle of December. *)
Definition dry_in_december : feed_page :=
  mkPage (Some [ticket_at 1 "2025-12-01T00:00:05Z" 7])
         (Some 1765000000) (boolean true) null.

(** The design's scenario: A created five seconds into December, B at the
    first second of January, on a last page that ends at B. *)
Definition scenario_page : feed_page :=
  mkPage (Some [ ticket_at 1 "2025-12-01T00:00:05Z" 7;
                 ticket_at 2 "2026-01-01T00:00:00Z" 8 ])
         (Some 1767225600) (boolean true) null.

(** A feed page whose body has no [tickets] array. *)
Definition bare_page : feed_page :=
  mkPage None (Some 1767225600) (boolean true) null.

(** Lookups that answer, but without a user and without comments. *)
Definition empty_answers : Env :=
  mkEnv (fun _ => None) (fun _ _ => three_page)
        (fun _ _ => mkUser undefined)
        (fun _ _ => mkComments None)
        (fun _ => str "sheet-1") (fun _ => "now") iso_getTime.

(** The comment lookup of the second ticket (call number 5) throws. *)
Definition second_lookup_throws : Env :=
  failing_at 5 "socket hang up" (quiet three_page talk).

End Sample.

(* ===================================================================== *)
(** * Vocabulary of the properties *)
(* ===================================================================== *)

Module Props.

Import ExportJs.

Definition event : Type := request * response.

(** ** The body digest, in the words of the design

    Keep the comments marked public, in the order upstream returned them;
    label each one "Requester" when its author is the ticket's requester and
    "Agent" otherwise; put the fixed separator between two consecutive
    labelled bodies. *)
Definition label (requester_id author_id : value) : string :=
  if strict_eq author_id requester_id then "**Requester:**" else "**Agent:**".

Fixpoint body_digest (requester_id : value) (cs : list comment) : string :=
  match cs with
  | [] => ""
  | c :: rest =>
      if truthy (comment_public c)
      then label requester_id (comment_author_id c) ++ " " ++ to_string (comment_body c)
           ++ (if existsb (fun c' => truthy (comment_public c')) rest
               then separator ++ body_digest requester_id rest
               else "")
      else body_digest requester_id rest
  end.

Definition reply_comments (r : comments_reply) : list comment :=
  match comments r with Some l => l | None => [] end.

(** ** Rows and the export window *)

(** The second column of a staging row is the ticket's [created_at]. *)
Definition row_created_at (r : row) : value := nth 1 r undefined.

(** [W.start <= created_at < W.end], in seconds. *)
Definition row_in_window (E : Env) (C : Config) (r : row) : Prop :=
  exists s e c,
    startTimestamp C = Some s /\ endTimestamp C = Some e /\
    floor_div_1000 (Date_getTime E (row_created_at r)) = Some c /\
    s <= c < e.

(** The same of a ticket kept as it came, for a given reading of dates. *)
Definition ticket_in_window (getTime : value -> num) (C : Config) (t : ticket) : Prop :=
  exists s e c,
    startTimestamp C = Some s /\ endTimestamp C = Some e /\
    floor_div_1000 (getTime (ticket_created_at t)) = Some c /\
    s <= c < e.

(** An event that appends to staging appends rows of the window only. *)
Definition appends_in_window (E : Env) (C : Config) (ev : event) : Prop :=
  match fst ev with
  | AppendRaw rows => Forall (row_in_window E C) rows
  | _ => True
  end.

(** ** A page that admits nothing

    The world after one turn of the loop on a page none of whose tickets is
    admitted, when no call fails: the page is fetched, the checkpoint
    written, one "Running" entry logged; staging is not touched. *)
Definition running_entry (E : Env) (C : Config) (n : nat) (cp : num)
    (fetched saved : nat) (last : value) : row :=
  [ str (now E n); str (monthStr C); number cp;
    number (Some (Z.of_nat fetched)); number (Some (Z.of_nat saved));
    last; str "Running" ].

Definition after_quiet_page (E : Env) (C : Config) (nextUrl : value)
    (st : locals) (w : World) : World :=
  let n := List.length (trace w) in
  let data := feed E n nextUrl in
  let fetched := (totalFetched st + List.length (page_tickets data))%nat in
  let entry :=
    running_entry E C (S (S n)) (end_time data) fetched (totalSaved st)
                  (lastTicketID st) in
  mkWorld (Sheets.write_checkpoint (end_time data) (State w))
          (Tickets_Raw w)
          (Logs w ++ [entry])
          (trace w ++ [ (FetchFeed nextUrl (checkpoint st), GotPage data);
                        (UpdateState (end_time data), Done);
                        (AppendLog entry, Done) ])%list.

Definition locals_after_quiet_page (E : Env) (nextUrl : value) (st : locals)
    (w : World) : locals :=
  let data := feed E (List.length (trace w)) nextUrl in
  mkLocals (end_time data)
           (totalFetched st + List.length (page_tickets data))%nat
           (totalSaved st) (lastTicketID st).

(** ** Finalization without recipients *)

Definition complete_entry (E : Env) (C : Config) (n : nat) (st : locals) : row :=
  [ str (now E n); str (monthStr C); str "FINAL";
    number (Some (Z.of_nat (totalFetched st)));
    number (Some (Z.of_nat (totalSaved st)));
    str "DONE"; str "Export Complete" ].

Definition after_unshared_finalize (E : Env) (C : Config) (st : locals)
    (w : World) : World :=
  let n := List.length (trace w) in
  let exportId := new_file_id E n in
  let entry := complete_entry E C (n + 5) st in
  mkWorld (Sheets.clear_row2 (State w))
          []
          (Logs w ++ [entry])
          (trace w ++ [ (CreateFile ("Zendesk Export - " ++ monthStr C), GotFile exportId);
                        (GetRaw, GotRaw (Tickets_Raw w));
                        (WriteExport exportId (header :: Tickets_Raw w), Done);
                        (ClearState, Done);
                        (ClearRaw, Done);
                        (AppendLog entry, Done) ])%list.

(** ** Commit after write *)

(** A lookup that was answered. *)
Definition is_lookup (ev : event) : Prop :=
  match ev with
  | (FetchUser _, GotUser _) | (FetchComments _, GotComments _) => True
  | _ => False
  end.

(** The call threw. *)
Definition thrown (ev : event) : bool :=
  match snd ev with
  | Threw _ => true
  | _ => false
  end.

(** Every call was answered. *)
Definition calm (evs : list event) : Prop :=
  forallb (fun ev => negb (thrown ev)) evs = true.

(** The tickets of a page that pass the window test, in the order of the
    page. *)
Definition admitted (E : Env) (C : Config) (data : feed_page) : list ticket :=
  filter (fun t => in_window C (createdTs E t)) (page_tickets data).

(** [r] is a row pushed for the ticket [t]: its id, its creation time, an
    address, its channel and subject or the empty string, the digest of
    comments looked up. *)
Definition row_of (t : ticket) (r : row) : Prop :=
  exists requesterEmail commentsData,
    r = [ ticket_id t; ticket_created_at t; requesterEmail;
          or_else (ticket_via_channel t) (str "");
          or_else (ticket_subject t) (str "");
          str (formattedComments (ticket_requester_id t) commentsData) ].

(** The staging append of a turn of the loop: no call when no row was
    pushed, else one call, which was answered. *)
Definition persisted (rows : list row) : list event :=
  match rows with
  | [] => []
  | _ :: _ => [(AppendRaw rows, Done)]
  end.

(** The calls [before] end inside the turn for the page [data]: the page
    was fetched and nothing but lookups was asked for since, each of them
    answered. *)
Definition looking_up (before : list event) (data : feed_page) : Prop :=
  exists earlier url cursor lookups,
    before = (earlier ++ (FetchFeed url cursor, GotPage data) :: lookups)%list
    /\ Forall is_lookup lookups.

(** The calls [before] end with the page [data] persisted: the page was
    fetched, then came lookups, all answered, and then one row for each
    admitted ticket of the page, in the order of the page, was appended to
    staging by one call that was answered (no call for a page that admits
    nothing). *)
Definition page_persisted (E : Env) (C : Config) (before : list event)
    (data : feed_page) : Prop :=
  exists earlier url cursor lookups rows,
    before = (earlier ++ (FetchFeed url cursor, GotPage data)
                      :: lookups ++ persisted rows)%list
    /\ Forall is_lookup lookups
    /\ Forall2 row_of (admitted E C data) rows.

(** Commit after write, of the calls of a run.  A checkpoint write, answered
    or not, is made only when the page last fetched is persisted, and what
    it writes is that page's [end_time]; and no checkpoint write follows a
    staging append that threw. *)
Definition commit_after_write (E : Env) (C : Config) (evs : list event) : Prop :=
  (forall before checkpoint rs later,
      evs = (before ++ (UpdateState checkpoint, rs) :: later)%list ->
      exists data, page_persisted E C before data /\ checkpoint = end_time data)
  /\ (forall before rows msg later,
        evs = (before ++ (AppendRaw rows, Threw msg) :: later)%list ->
        forall checkpoint rs, ~ In (UpdateState checkpoint, rs) later).

(** ** The checkpoint cell *)

(** The row carries the key the program looks for. *)
Definition has_key (r : list string) : bool :=
  match nth_error r 0 with
  | Some k => (k =? "checkpoint")%string
  | None => false
  end.

(** A [State] region in which only the second row, the one the program
    writes, may carry the key. *)
Definition tidy (rows : state_rows) : bool :=
  negb (has_key (nth 0 rows [])) && forallb (fun r => negb (has_key r)) (skipn 2 rows).

(** The value of a decimal numeral read from the left, [acc] being the
    value of the digits already read. *)
Fixpoint uint_val (d : Decimal.uint) (acc : Z) : Z :=
  match d with
  | Decimal.Nil => acc
  | Decimal.D0 d => uint_val d (10 * acc)
  | Decimal.D1 d => uint_val d (10 * acc + 1)
  | Decimal.D2 d => uint_val d (10 * acc + 2)
  | Decimal.D3 d => uint_val d (10 * acc + 3)
  | Decimal.D4 d => uint_val d (10 * acc + 4)
  | Decimal.D5 d => uint_val d (10 * acc + 5)
  | Decimal.D6 d => uint_val d (10 * acc + 6)
  | Decimal.D7 d => uint_val d (10 * acc + 7)
  | Decimal.D8 d => uint_val d (10 * acc + 8)
  | Decimal.D9 d => uint_val d (10 * acc + 9)
  end.

(** The cursor of the first page request among the events. *)
Fixpoint first_cursor (evs : list event) : option num :=
  match evs with
  | [] => None
  | (FetchFeed _ cursor, _) :: _ => Some cursor
  | _ :: rest => first_cursor rest
  end.

(** ** Commits across invocations *)

(** The cursors written to [State] by calls that succeeded, in order. *)
Definition commits (evs : list event) : list Z :=
  flat_map (fun ev => match ev with
                      | (UpdateState (Some c), Done) => [c]
                      | _ => []
                      end) evs.

(** The paginator contract on one call: the page's [end_time] is a number
    at or above the cursor the page was asked from. *)
Definition honours_contract (ev : event) : bool :=
  match ev with
  | (FetchFeed _ cursor, GotPage data) =>
      match cursor, end_time data with
      | Some c, Some e => c <=? e
      | _, _ => false
      end
  | _ => true
  end.

(** The checkpoint was cleared: a finalization got that far. *)
Definition is_clear (ev : event) : bool :=
  match ev with
  | (ClearState, Done) => true
  | _ => false
  end.

Definition cleared (evs : list event) : bool := existsb is_clear evs.

(** The program started again and again on the same spreadsheet, each time
    with its own fuel. *)
Fixpoint reinvoke (E : Env) (C : Config) (fuels : list nat) (w : World) : World :=
  match fuels with
  | [] => w
  | fuel :: rest => reinvoke E C rest (snd (main E C fuel w))
  end.

(** ** Resuming past the window's end *)

(** The world in which finalization starts when a run finds the cursor [c]
    in [State], fetches one page that admits nothing, and no call fails. *)
Definition resumed_locals (E : Env) (C : Config) (c : Z) (w : World) : locals :=
  locals_after_quiet_page E (str (incremental_url C (Some c)))
    (mkLocals (Some c) 0 0 null)
    (logged GetState (GotState (State w)) w).

Definition resumed (E : Env) (C : Config) (c : Z) (w : World) : World :=
  after_quiet_page E C (str (incremental_url C (Some c)))
    (mkLocals (Some c) 0 0 null)
    (logged GetState (GotState (State w)) w).

(** Calls that touch staging rows or look a record up. *)
Definition stages_or_looks_up (ev : event) : bool :=
  match fst ev with
  | AppendRaw _ | FetchUser _ | FetchComments _ => true
  | _ => false
  end.

(** ** Pages and finalization *)

(** The pages a run fetched, in order. *)
Definition pages (evs : list event) : list feed_page :=
  flat_map (fun ev => match ev with
                      | (FetchFeed _ _, GotPage data) => [data]
                      | _ => []
                      end) evs.

(** Finalization was entered: the report's creation was at least tried. *)
Definition finalizing (evs : list event) : bool :=
  existsb (fun ev => match fst ev with CreateFile _ => true | _ => false end) evs.

(** After this page the loop takes one more turn. *)
Definition goes_on (C : Config) (data : feed_page) : bool :=
  negb (breaks C data) && truthy (next_page data).

(** The window is fully drained in the design's sense: the feed signalled
    its end and the cursor is at or past the window's end. *)
Definition drained (C : Config) (data : feed_page) : bool :=
  truthy (end_of_stream data) && ge (end_time data) (endTimestamp C).

(** ** Failures *)

(** The entry the top-level handler logs for an error. *)
Definition error_entry (E : Env) (C : Config) (n : nat) (msg : string) : row :=
  [ str (now E n); str (monthStr C); str "UNKNOWN";
    number (Some 0); number (Some 0); str "FAIL"; str ("ERROR: " ++ msg) ].

Definition same_sheets (w w' : World) : Prop :=
  State w' = State w /\ Tickets_Raw w' = Tickets_Raw w /\ Logs w' = Logs w.

(** Some row of staging is the row of ticket [t]. *)
Definition staged (w : World) (t : ticket) : Prop :=
  exists r, In r (Tickets_Raw w) /\ nth 0 r undefined = ticket_id t.

(** Some audit entry names the record [id] in its last-record column. *)
Definition audit_names (w : World) (id : value) : Prop :=
  exists entry, In entry (Logs w) /\ nth 5 entry undefined = id.

Definition shares_or_mails (ev : event) : bool :=
  match fst ev with
  | Grant _ _ | SendMail _ _ _ => true
  | _ => false
  end.

(** The sequence of calls since the trace was [t0]. *)
Definition events_since (t0 : list event) (w : World) (evs : list event) : Prop :=
  trace w = (t0 ++ evs)%list.

End Props.

(* ===================================================================== *)
(** * Vocabulary of the proofs *)
(* ===================================================================== *)

Module Hoare.

Import ExportJs Props.

(** A Hoare triple: from a world satisfying [P], the computation ends in a
    result and a world satisfying [Q]. *)
Definition triple {A} (P : World -> Prop) (m : M A)
    (Q : result A -> World -> Prop) : Prop :=
  forall w, P w -> Q (fst (m w)) (snd (m w)).

(** The usual shape of a postcondition: [I] holds when the computation
    stops early, [R] when it returns. *)
Definition post {A} (I : World -> Prop) (R : A -> World -> Prop)
  : result A -> World -> Prop :=
  fun r w => match r with Ok a => R a w | _ => I w end.

(** The same with a case of its own for a computation out of fuel. *)
Definition post3 {A} (I F : World -> Prop) (R : A -> World -> Prop)
  : result A -> World -> Prop :=
  fun r w => match r with Ok a => R a w | Throw _ => I w | OutOfFuel => F w end.

(** The events added since the trace was [t0] satisfy [S]. *)
Definition grown (t0 : list event) (S : list event -> Prop)
    (w : World) : Prop :=
  exists evs, trace w = (t0 ++ evs)%list /\ S evs.

(** The computation throws in no world. *)
Definition never_throws {A} (m : M A) : Prop :=
  forall w msg, fst (m w) <> Throw msg.

End Hoare.

Module Invariants.

Import ExportJs Props Hoare.

(** ** Pages and finalization *)

(** A request that is neither a page fetch nor the report's creation. *)
Definition neutral (rq : request) : bool :=
  match rq with
  | FetchFeed _ _ | CreateFile _ => false
  | _ => true
  end.

(** A property of the pages fetched and of whether finalization began,
    for the events added since the trace was [t0]. *)
Definition seen (t0 : list event) (T : list feed_page -> bool -> Prop) : World -> Prop :=
  grown t0 (fun evs => T (pages evs) (finalizing evs)).

(** What holds at any time. *)
Definition T_any (C : Config) (p : list feed_page) (f : bool) : Prop :=
  Forall (fun d => goes_on C d = true) (removelast p)
  /\ (f = true -> exists old d, p = (old ++ [d])%list /\ goes_on C d = false).

(** What holds when the fuel runs out. *)
Definition T_fuel (C : Config) (total : nat) (p : list feed_page) (f : bool) : Prop :=
  Forall (fun d => goes_on C d = true) p /\ List.length p = total /\ f = false.

(** Inside the turn of the loop for page [d], the [n+1]-th. *)
Definition T_page (C : Config) (d : feed_page) (n : nat)
    (p : list feed_page) (f : bool) : Prop :=
  f = false
  /\ exists old, p = (old ++ [d])%list
                 /\ Forall (fun d => goes_on C d = true) old
                 /\ List.length old = n.

(** After the loop. *)
Definition T_exit (C : Config) (p : list feed_page) (f : bool) : Prop :=
  exists old d, p = (old ++ [d])%list
                /\ Forall (fun d => goes_on C d = true) old
                /\ goes_on C d = false.

(** Before the test of [while (nextUrl)]. *)
Definition T_head (C : Config) (nextUrl : value) (n : nat)
    (p : list feed_page) (f : bool) : Prop :=
  f = false /\
  ((truthy nextUrl = true /\ Forall (fun d => goes_on C d = true) p
    /\ List.length p = n)
   \/ (truthy nextUrl = false /\ T_exit C p f)).

(** ** Commits *)

(** The contract was honoured by every page and the checkpoint not
    cleared. *)
Definition good (evs : list event) : bool :=
  forallb honours_contract evs && negb (cleared evs).

(** A request that writes neither the checkpoint nor a page request. *)
Definition idle (rq : request) : bool :=
  match rq with
  | UpdateState _ | ClearState | FetchFeed _ _ => false
  | _ => true
  end.

(** As long as the contract was honoured and the checkpoint not cleared,
    [Y] holds of the [State] region and the commits made. *)
Definition guarded (t0 : list event) (Y : state_rows -> list Z -> Prop)
    (w : World) : Prop :=
  exists evs, trace w = (t0 ++ evs)%list
              /\ (good evs = true -> Y (State w) (commits evs)).

(** The region holds [hi], which bounds the commits made so far; [s] is
    the window's start. *)
Definition stored (s hi : Z) (rows : state_rows) (cs : list Z) : Prop :=
  tidy rows = true
  /\ read_checkpoint rows (Some s) = Some hi
  /\ s <= hi
  /\ Forall (fun c => s <= c <= hi) cs
  /\ StronglySorted Z.le cs.

Definition Y_rest (s : Z) (rows : state_rows) (cs : list Z) : Prop :=
  exists hi, stored s hi rows cs.

Definition Y_head (s : Z) (cp : num) (rows : state_rows) (cs : list Z) : Prop :=
  exists hi, cp = Some hi /\ stored s hi rows cs.

Definition Y_page (s : Z) (cp : num) (d : feed_page) (rows : state_rows)
    (cs : list Z) : Prop :=
  exists hi e, cp = Some hi /\ stored s hi rows cs /\ end_time d = Some e /\ hi <= e.

End Invariants.

(* ===================================================================== *)
(** * The calls of a run, replayed *)
(* ===================================================================== *)

(** The spreadsheet changes through calls only.  [replay] applies the
    calls of a trace to a spreadsheet, one after the other; what one call
    does depends on the request and on whether it was answered. *)
Module Ledger.

Import ExportJs Props.

Definition effect_of (ev : event) (w : World) : World :=
  match ev with
  | (UpdateState checkpoint, Done) => with_State (Sheets.write_checkpoint checkpoint) w
  | (ClearState, Done) => with_State Sheets.clear_row2 w
  | (AppendRaw rows, Done) => with_Raw (fun old => (old ++ rows)%list) w
  | (ClearRaw, Done) => with_Raw (fun _ => []) w
  | (AppendLog entry, Done) => with_Logs (fun old => (old ++ [entry])%list) w
  | (ClearLogs, Done) => with_Logs (fun _ => []) w
  | _ => w
  end.

Definition played (ev : event) (w : World) : World :=
  logged (fst ev) (snd ev) (effect_of ev w).

Definition replay (evs : list event) (w : World) : World :=
  fold_left (fun w ev => played ev w) evs w.

(** The world is [w0] after calls that satisfy [S]. *)
Definition after (w0 : World) (S : list event -> Prop) (w : World) : Prop :=
  exists evs, w = replay evs w0 /\ S evs.

(** ** What the controller asks for *)

(** A row as [rows.push([...])] builds it from a ticket of the window. *)
Definition staged_row (E : Env) (C : Config) (r : row) : Prop :=
  exists t requesterEmail commentsData,
    r = [ ticket_id t; ticket_created_at t; requesterEmail;
          or_else (ticket_via_channel t) (str "");
          or_else (ticket_subject t) (str "");
          str (formattedComments (ticket_requester_id t) commentsData) ]
    /\ truthy requesterEmail = true
    /\ in_window C (createdTs E t) = true.

(** What a reader of [Tickets_Raw] can rely on in such a row: six cells,
    an address or "N/A" in the third, a channel and a subject that are
    given or empty, a digest that is text. *)
Definition given_or_empty (v : value) : Prop := truthy v = true \/ v = str "".

Definition whole_row (r : row) : Prop :=
  List.length r = 6%nat
  /\ truthy (nth 2 r undefined) = true
  /\ given_or_empty (nth 3 r undefined)
  /\ given_or_empty (nth 4 r undefined)
  /\ exists digest, nth 5 r undefined = str digest.

(** The three kinds of rows [log] is called for. *)
Definition audit_entry (E : Env) (C : Config) (entry : row) : Prop :=
  (exists n cp fetched saved last,
      entry = running_entry E C n cp fetched saved last /\ (saved <= fetched)%nat)
  \/ (exists n st, entry = complete_entry E C n st
                   /\ (totalSaved st <= totalFetched st)%nat)
  \/ (exists n msg, entry = error_entry E C n msg).

(** The requests of the controller, for a list of recipients; [fresh]
    tells whether it may clear the audit log. *)
Definition request_ok (E : Env) (C : Config) (recipients : list string)
    (fresh : bool) (rq : request) : Prop :=
  match rq with
  | GetState | UpdateState _ | ClearState | GetRaw | ClearRaw => True
  | ClearLogs => fresh = true
  | AppendRaw rows => rows <> [] /\ Forall (staged_row E C) rows
  | AppendLog entry => audit_entry E C entry
  | FetchFeed url _ => truthy url = true
  | FetchUser url =>
      exists t, in_window C (createdTs E t) = true
                /\ truthy (ticket_requester_id t) = true
                /\ url = user_url C (ticket_requester_id t)
  | FetchComments url =>
      exists t, in_window C (createdTs E t) = true
                /\ url = comments_url C (ticket_id t)
  | CreateFile name => name = "Zendesk Export - " ++ monthStr C
  | WriteExport _ values => exists rows, values = header :: rows
  | Grant _ emailAddress => In emailAddress recipients
  | SendMail to subject _ =>
      to = recipients /\ recipients <> []
      /\ subject = "Zendesk Monthly Report - " ++ monthStr C
  end.

(** The entries added to the audit log and the rows added to staging by
    the calls of a trace that were answered. *)
Definition entries (evs : list event) : list row :=
  flat_map (fun ev => match ev with
                      | (AppendLog entry, Done) => [entry]
                      | _ => []
                      end) evs.

Definition appended (evs : list event) : list row :=
  flat_map (fun ev => match ev with
                      | (AppendRaw rows, Done) => rows
                      | _ => []
                      end) evs.

(** ** The order of the calls *)

(** The tickets fetched and the rows saved by the calls of a trace. *)
Definition fetched (evs : list event) : nat :=
  List.length (flat_map page_tickets (pages evs)).

Definition saved (evs : list event) : nat := List.length (appended evs).

(** The report was written. *)
Definition written (evs : list event) : Prop :=
  exists id values, In (WriteExport id values, Done) evs.

(** A turn of the loop has just been completed, with the cursor [cp]
    written to [State] and the turn logged. *)
Definition turned (cp : num) (evs : list event) : Prop :=
  exists evs0 entry,
    evs = (evs0 ++ [(UpdateState cp, Done); (AppendLog entry, Done)])%list.

Definition status (entry : row) : value := nth 6 entry undefined.

Definition counts_of (evs : list event) (entry : row) : Prop :=
  nth 3 entry undefined = number (Some (Z.of_nat (fetched evs)))
  /\ nth 4 entry undefined = number (Some (Z.of_nat (saved evs))).

(** Every call of [evs] satisfies [P] with respect to the calls made
    before it; [before] are the calls made before the first of [evs]. *)
Fixpoint each_after (P : list event -> event -> Prop)
    (before evs : list event) : Prop :=
  match evs with
  | [] => True
  | ev :: rest => P before ev /\ each_after P (before ++ [ev])%list rest
  end.

(** What holds of a call of the controller when it is made, after the
    calls [before] of the same run.  [base] are the staging rows the run
    builds on, [guard] is the test on the cursor under which the report is
    made, and [fresh_rows] tells from the [State] rows whether the run
    starts afresh. *)
Definition in_order (base : list row) (guard : num -> bool)
    (fresh_rows : state_rows -> bool) (before : list event) (ev : event) : Prop :=
  match fst ev with
  | AppendLog entry =>
      (status entry = str "Running" ->
       counts_of before entry
       /\ exists evs0 cp, before = (evs0 ++ [(UpdateState cp, Done)])%list
                          /\ nth 2 entry undefined = number cp)
      /\ (status entry = str "Export Complete" -> counts_of before entry)
  | CreateFile _ => exists cp, turned cp before /\ guard cp = true
  | WriteExport _ values => values = header :: (base ++ appended before)%list
  | ClearState => written before
  | ClearRaw =>
      written before
      \/ exists rows, before = [(GetState, GotState rows); (ClearLogs, Done)]
                      /\ fresh_rows rows = true
  | ClearLogs =>
      exists rows, before = [(GetState, GotState rows)] /\ fresh_rows rows = true
  | _ => True
  end.

(** A run that came to its end: the last three calls cleared the
    checkpoint, cleared staging and logged the completion. *)
Definition ends_clean (evs : list event) : Prop :=
  exists evs0 entry,
    evs = (evs0 ++ [(ClearState, Done); (ClearRaw, Done); (AppendLog entry, Done)])%list
    /\ status entry = str "Export Complete".

(** The first column of a staging row is the ticket's id. *)
Definition first_cell (r : row) : value := nth 0 r undefined.

(** ** Text *)

(** The string begins with a white space character or a line terminator,
    of one, two or three bytes.  With [back] set the bytes are read last
    first, and a character of several bytes is met from its last byte. *)
Definition space_ahead (back : bool) (s : string) : bool :=
  match s with
  | String c1 s1 =>
      is_space c1
      || match s1 with
         | String c2 s2 =>
             (if back then is_space2 c2 c1 else is_space2 c1 c2)
             || match s2 with
                | String c3 _ =>
                    if back then is_space3 c3 c2 c1 else is_space3 c1 c2 c3
                | EmptyString => false
                end
         | EmptyString => false
         end
  | EmptyString => false
  end.

(** The string begins, or ends, with white space. *)
Definition leads_with_space (s : string) : bool := space_ahead false s.

Definition trails_with_space (s : string) : bool :=
  space_ahead true (rev_string s "").

(** How often a character occurs in a string. *)
Fixpoint occurrences (c : ascii) (s : string) : nat :=
  match s with
  | String x s' => if (x =? c)%char then S (occurrences c s') else occurrences c s'
  | EmptyString => O
  end.

Definition commas (s : string) : nat := occurrences "," s.

End Ledger.

(** The turn of the loop a call belongs to, and calls that throw. *)
Module Turns.

Import ExportJs Props Hoare Ledger.

(** What holds of a call when it is made, after the calls [before] of the
    same run.  A lookup is made inside the turn for a page, after nothing
    but answered lookups; the staging append comes there too and carries
    one row for each admitted ticket of the page; the checkpoint is written
    when the page is persisted, and it is the page's [end_time]. *)
Definition in_turn (E : Env) (C : Config) (before : list event) (ev : event) : Prop :=
  match fst ev with
  | FetchUser _ | FetchComments _ => exists data, looking_up before data
  | AppendRaw rows =>
      exists data, looking_up before data
                   /\ Forall2 row_of (admitted E C data) rows
  | UpdateState checkpoint =>
      exists data, page_persisted E C before data /\ checkpoint = end_time data
  | _ => True
  end.

(** The calls made since the trace was [t0] were all answered, each in its
    turn, and [P] holds of them. *)
Definition at_turn (E : Env) (C : Config) (t0 : list event)
    (P : list event -> Prop) : World -> Prop :=
  grown t0 (fun evs => calm evs /\ each_after (in_turn E C) [] evs /\ P evs).

(** The last call made since the trace was [t0] threw [msg]; those before
    it were answered; each was made in its turn. *)
Definition thrown_with (E : Env) (C : Config) (t0 : list event)
    (msg : string) : World -> Prop :=
  grown t0 (fun evs =>
    exists before rq,
      evs = (before ++ [(rq, Threw msg)])%list
      /\ calm before /\ each_after (in_turn E C) [] evs).

(** How a computation made of such calls ends: with a result, or with the
    error of the call that threw, or out of fuel. *)
Definition ended {A} (E : Env) (C : Config) (t0 : list event)
    (R : A -> World -> Prop) : result A -> World -> Prop :=
  fun r w =>
    match r with
    | Ok a => R a w
    | Throw msg => thrown_with E C t0 msg w
    | OutOfFuel => at_turn E C t0 (fun _ => True) w
    end.

End Turns.

(* ===================================================================== *)
(** * Dates: the month's window *)
(* ===================================================================== *)

(** [Date] as ECMAScript defines it, as far as [getMonthRange] and
    [getPreviousMonth] use it.  A time value is a number of milliseconds
    since 1970-01-01T00:00:00Z, or [NaN].  Local time is UTC plus an offset
    [tz] in milliseconds that is the same all year (a zone without daylight
    saving; [tz = 0] is UTC). *)
Module JSDate.

Definition msPerDay : Z := 86400000.

Definition Day (t : Z) : Z := t / msPerDay.

Definition TimeWithinDay (t : Z) : Z := t mod msPerDay.

(** The day number of a date of the proleptic Gregorian calendar, months
    counted from 1, and the date of a day number. *)
Definition days_from_civil (y m d : Z) : Z :=
  let y' := if m <=? 2 then y - 1 else y in
  let era := y' / 400 in
  let yoe := y' - era * 400 in
  let doy := (153 * (if 2 <? m then m - 3 else m + 9) + 2) / 5 + d - 1 in
  let doe := yoe * 365 + yoe / 4 - yoe / 100 + doy in
  era * 146097 + doe - 719468.

Definition civil_from_days (z : Z) : Z * Z * Z :=
  let z' := z + 719468 in
  let era := z' / 146097 in
  let doe := z' - era * 146097 in
  let yoe := (doe - doe / 1460 + doe / 36524 - doe / 146096) / 365 in
  let doy := doe - (365 * yoe + yoe / 4 - yoe / 100) in
  let mp := (5 * doy + 2) / 153 in
  let d := doy - (153 * mp + 2) / 5 + 1 in
  let m := if mp <? 10 then mp + 3 else mp - 9 in
  (if m <=? 2 then yoe + era * 400 + 1 else yoe + era * 400, m, d).

Definition YearFromTime (t : Z) : Z := fst (fst (civil_from_days (Day t))).

(** Months are counted from 0 here, as [getMonth] counts them. *)
Definition MonthFromTime (t : Z) : Z := snd (fst (civil_from_days (Day t))) - 1.

Definition DateFromTime (t : Z) : Z := snd (civil_from_days (Day t)).

(** [MakeDay(year, month, date)]: the month may lie outside 0..11 and the
    date outside the month; both carry over. *)
Definition MakeDay (year month date : Z) : Z :=
  days_from_civil (year + month / 12) (month mod 12 + 1) 1 + date - 1.

Definition MakeDate (day time : Z) : Z := day * msPerDay + time.

(** Local time.  [tz] is the offset of local time from UTC in
    milliseconds, taken to be the same at every instant: a zone without
    daylight saving, or one looked at between two changes of its offset. *)
Definition LocalTime (tz t : Z) : Z := t + tz.

Definition UTC (tz t : Z) : Z := t - tz.

(** [date.getFullYear()], [date.getMonth()] *)
Definition getFullYear (tz : Z) (t : num) : num :=
  match t with Some t => Some (YearFromTime (LocalTime tz t)) | None => None end.

Definition getMonth (tz : Z) (t : num) : num :=
  match t with Some t => Some (MonthFromTime (LocalTime tz t)) | None => None end.

(** [date.setMonth(month)]: the new time value. *)
Definition setMonth (tz : Z) (t : num) (month : num) : num :=
  match t, month with
  | Some t, Some m =>
      let local := LocalTime tz t in
      Some (UTC tz (MakeDate (MakeDay (YearFromTime local) m (DateFromTime local))
                             (TimeWithinDay local)))
  | _, _ => None
  end.

(** [new Date(year, month, 1)] in local time. *)
Definition first_of_month (tz : Z) (year month : num) : num :=
  match year, month with
  | Some y, Some m => Some (UTC tz (MakeDate (MakeDay y m 1) 0))
  | _, _ => None
  end.

(** [s.split(sep)] for a separator of one character. *)
Fixpoint split_on (sep : ascii) (s : string) (piece : string) : list string :=
  match s with
  | String c s' =>
      if (c =? sep)%char then rev_string piece "" :: split_on sep s' ""
      else split_on sep s' (String c piece)
  | EmptyString => [rev_string piece ""]
  end.

(** [String(n).padStart(2, "0")] *)
Definition padStart2 (s : string) : string :=
  match String.length s with
  | O => "00"
  | S O => "0" ++ s
  | _ => s
  end.

End JSDate.

(** [getMonthRange] is the same function in [export.js], in the batch
    script and in the auto-chaining handler; [getPreviousMonth] is the
    handler's.  [parse v] is [new Date(v).getTime()]. *)
Module Months.

Import JSDate.

Definition plus1 (n : num) : num :=
  match n with Some z => Some (z + 1) | None => None end.

Definition minus1 (n : num) : num :=
  match n with Some z => Some (z - 1) | None => None end.

(** [[
function getMonthRange(monthStr) {
  const [year, month] = monthStr.split("-");
  const start = new Date(`${year}-${month}-01T00:00:00Z`);
  const end = new Date(start);
  end.setMonth(start.getMonth() + 1);
  return {
    startTimestamp: Math.floor(start.getTime() / 1000),
    endTimestamp: Math.floor(end.getTime() / 1000)
  };
}
]] *)
Definition date_string (monthStr : string) : string :=
  let parts := map str (split_on "-" monthStr "") in
  let year := nth 0 parts undefined in
  let month := nth 1 parts undefined in
  to_string year ++ "-" ++ to_string month ++ "-01T00:00:00Z".

Definition getMonthRange (parse : value -> num) (tz : Z) (monthStr : string)
  : num * num :=
  let start := parse (str (date_string monthStr)) in
  let end_ := setMonth tz start (plus1 (getMonth tz start)) in
  (floor_div_1000 start, floor_div_1000 end_).

(** [[
function getPreviousMonth() {
  const now = new Date();
  const firstDayThisMonth = new Date(now.getFullYear(), now.getMonth(), 1);
  const lastMonth = new Date(firstDayThisMonth - 1);
  const year = lastMonth.getFullYear();
  const month = String(lastMonth.getMonth() + 1).padStart(2, "0");
  return `${year}-${month}`;
}
]] *)
Definition getPreviousMonth (tz : Z) (now : num) : string :=
  let firstDayThisMonth := first_of_month tz (getFullYear tz now) (getMonth tz now) in
  let lastMonth := minus1 firstDayThisMonth in
  let year := getFullYear tz lastMonth in
  let month := padStart2 (string_of_num (plus1 (getMonth tz lastMonth))) in
  string_of_num year ++ "-" ++ month.

(** The name of a month, as [EXPORT_MONTH] gives it: [YYYY-MM]. *)
Definition month_name (y m : Z) : string :=
  string_of_Z y ++ "-" ++ padStart2 (string_of_Z m).

(** The first second of a month, and the month after a month. *)
Definition first_second (y m : Z) : Z := 86400 * days_from_civil y m 1.

Definition following (y m : Z) : Z * Z := if m =? 12 then (y + 1, 1) else (y, m + 1).

Definition preceding (y m : Z) : Z * Z := if m =? 1 then (y - 1, 12) else (y, m - 1).

(** The number of days of a month. *)
Definition days_in (y m : Z) : Z :=
  days_from_civil (fst (following y m)) (snd (following y m)) 1
  - days_from_civil y m 1.

(** The months from January of [lo] on, [n] years long. *)
Definition months (lo : Z) (n : nat) : list (Z * Z) :=
  flat_map (fun k => map (fun j => (lo + Z.of_nat k, 1 + Z.of_nat j)) (seq 0 12))
           (seq 0 n).

(** What is checked of every month from 1970 to 2199, by evaluation. *)
Definition month_checks (ym : Z * Z) : bool :=
  let (y, m) := ym in
  let d0 := days_from_civil y m 1 in
  let (y1, m1) := following y m in
  let (py, pm) := preceding y m in
  (date_string (month_name y m) =? month_name y m ++ "-01T00:00:00Z")%string
  && (let '(cy, cm, cd) := civil_from_days d0 in (cy =? y) && (cm =? m) && (cd =? 1))
  && (MakeDay y m 1 =? days_from_civil y1 m1 1)
  && (let '(cy, cm, cd) := civil_from_days (d0 - 1) in
      (cy =? py) && (cm =? pm) && (cd =? days_in py pm)
      && (MakeDay cy cm cd =? d0 + days_in py pm - 1))
  && (28 <=? days_in y m) && (days_in y m <=? 31).

End Months.

(* ===================================================================== *)
(** * The auto-chaining handler *)
(* ===================================================================== *)

(** The second of the HTTP handlers: one feed page per request on the same
    spreadsheet as [export.js], the report made once the cursor has reached
    the end of the window, and otherwise a request to itself for the next
    page.  It keeps no audit log. *)
Module Chain.

Import ExportJs.

(** [req.query.month] as the platform hands it over: missing, a string,
    or an array of strings when the parameter is given more than once. *)
Inductive query :=
| missing
| once (month : string)
| several (months : list string).

(** What the request and the process environment give besides [Config]:
    [setup_error] is what reading the service account throws, if it throws;
    [query_month] is [req.query.month].  Unless that is an array,
    [monthStr C] is the month the handler works on, which [month_of] below
    computes from [month_value] of the query, and [startTimestamp C],
    [endTimestamp C] are what [getMonthRange] made of it. *)
Record Request := mkRequest {
  setup_error : option string;
  query_month : query;
  VERCEL_URL : value
}.

(** [req.query.month] when it is no array. *)
Definition month_value (q : query) : value :=
  match q with
  | once month => str month
  | _ => undefined
  end.

(** What [monthStr.split("-")] throws in [getMonthRange] when the month is
    an array: every array is truthy, so that it is taken for the month, and
    it has no method [split]. *)
Definition split_of_array : string := "monthStr.split is not a function".

(** [[
const monthParam = req.query.month || null;
const monthStr = monthParam || getPreviousMonth();
]] *)
Definition month_of (tz : Z) (now : num) (query_month : value) : string :=
  to_string (or_else (or_else query_month null)
                     (str (Months.getPreviousMonth tz now))).

(** What [undefined.split(",")] throws. *)
Definition split_of_undefined : string :=
  "Cannot read properties of undefined (reading 'split')".

(** [process.env.EMAIL_RECIPIENTS.split(",")] *)
Definition RECIPIENTS (C : Config) : option (list string) :=
  match EMAIL_RECIPIENTS C with
  | Some s => Some (split_comma s "")
  | None => None
  end.

(** [res.status(200).json({ message })], after the request to itself was
    answered when [chained] names its address; [res.status(500).json({
    error })]. *)
Inductive reply :=
| Message (message : string) (chained : option string)
| Error (error : string).

Definition self_url (R : Request) (C : Config) : string :=
  (if truthy (VERCEL_URL R) then "https://" ++ to_string (VERCEL_URL R) else "")
  ++ "/api/run-export?month=" ++ monthStr C.

(** The body of [if (newCheckpoint >= endTimestamp) { ... }]. *)
Definition finalize (E : Env) (C : Config) (recipients : list string) : M reply :=
  exportSheetId <- call E (CreateFile ("Zendesk Export - " ++ monthStr C))
                     (fun n _ => (GotFile (new_file_id E n), new_file_id E n))
                     (fun w => w) ;;
  rawData <- Sheets.get_Raw E ;;
  call E (WriteExport exportSheetId (header :: rawData))
       (fun _ _ => (Done, tt)) (fun w => w) ;;;
  share E exportSheetId recipients ;;;
  call E (SendMail recipients
            ("Zendesk Monthly Report - " ++ monthStr C)
            ("Export completed." ++ String "010" (String "010"
               ("Google Sheet:" ++ String "010"
                  ("https://docs.google.com/spreadsheets/d/"
                     ++ to_string exportSheetId)))))
       (fun _ _ => (Done, tt)) (fun w => w) ;;;
  Sheets.clear_State E ;;;
  Sheets.clear_Raw E ;;;
  ret (Message "Export complete" None).

(** The request of the handler to itself: it is the last thing the handler
    awaits, and it is not a call on the services of the model; it throws
    when the environment says that the call of this number throws. *)
Definition chain (E : Env) (R : Request) (C : Config) : M reply :=
  fun w =>
    match fails E (List.length (trace w)) with
    | Some msg => (Throw msg, w)
    | None => (Ok (Message "Processing continued..." (Some (self_url R C))), w)
    end.

(** The [try] block from the read of [State] on. *)
Definition body (E : Env) (R : Request) (C : Config) (recipients : list string)
  : M reply :=
  rows <- Sheets.get_State E ;;
  let checkpoint := read_checkpoint rows (startTimestamp C) in
  data <- fetch_feed E (str (incremental_url C checkpoint)) checkpoint ;;
  let tickets := page_tickets data in
  let newCheckpoint := end_time data in
  found <- for_tickets E C tickets [] null ;;
  let rowsToAppend := fst (found : list row * value) in
  (match rowsToAppend with
   | [] => ret tt
   | _ :: _ => Sheets.append_Raw E rowsToAppend
   end) ;;;
  Sheets.update_State E newCheckpoint ;;;
  if ge newCheckpoint (endTimestamp C)
  then finalize E C recipients
  else chain E R C.

(** [export default async function handler(req, res)]: the reply and the
    spreadsheet afterwards.  Before its first call the handler reads the
    service account, splits the recipients and computes the month and its
    window, each of which can throw: [getMonthRange] does when the month is
    an array.  Nothing in the handler loops, so the case of a computation
    out of fuel does not arise. *)
Definition handler (E : Env) (R : Request) (C : Config) (w : World) : reply * World :=
  match setup_error R with
  | Some msg => (Error msg, w)
  | None =>
      match RECIPIENTS C with
      | None => (Error split_of_undefined, w)
      | Some recipients =>
          match query_month R with
          | several _ => (Error split_of_array, w)
          | _ =>
              match body E R C recipients w with
              | (Ok r, w') => (r, w')
              | (Throw msg, w') => (Error msg, w')
              | (OutOfFuel, w') => (Error "", w')
              end
          end
      end
  end.

End Chain.

(** What the calls of one request of the auto-chaining handler look
    like when it answers with a message. *)
Module ChainProps.

Import ExportJs Props Ledger.

(** At least one call was made. *)
Definition started (evs : list event) : Prop := evs <> [].

(** The calls up to the checkpoint write: [State] is read, one page is
    fetched from the cursor found there, the tickets admitted are looked
    up, their rows are appended in one call if there are any, and the
    page's [end_time] is written to [State]. *)
Definition turn (C : Config) (rows : state_rows) (page : feed_page)
    (lookups : list event) (staged : list row) : list event :=
  let cp := read_checkpoint rows (startTimestamp C) in
  ([ (GetState, GotState rows);
     (FetchFeed (str (incremental_url C cp)) cp, GotPage page) ]
   ++ lookups
   ++ match staged with
      | [] => []
      | _ :: _ => [(AppendRaw staged, Done)]
      end
   ++ [(UpdateState (end_time page), Done)])%list.

(** The calls of the finalization, all answered. *)
Definition report (C : Config) (recipients : list string) (id : value)
    (raw : list row) : list event :=
  ([ (CreateFile ("Zendesk Export - " ++ monthStr C), GotFile id);
     (GetRaw, GotRaw raw);
     (WriteExport id (header :: raw), Done) ]
   ++ map (fun emailAddress => (Grant id emailAddress, Done)) recipients
   ++ [ (SendMail recipients
           ("Zendesk Monthly Report - " ++ monthStr C)
           ("Export completed." ++ String "010" (String "010"
              ("Google Sheet:" ++ String "010"
                 ("https://docs.google.com/spreadsheets/d/" ++ to_string id)))),
         Done);
        (ClearState, Done);
        (ClearRaw, Done) ])%list.

(** The calls of a request answered [r], made from the spreadsheet [w]. *)
Definition told (R : Chain.Request) (C : Config) (recipients : list string)
    (w : World) (r : Chain.reply) (evs : list event) : Prop :=
  match r with
  | Chain.Error _ => True
  | Chain.Message message chained =>
      exists page lookups staged,
        Forall is_lookup lookups
        /\ match chained with
           | Some url =>
               message = "Processing continued..."
               /\ url = Chain.self_url R C
               /\ ge (end_time page) (endTimestamp C) = false
               /\ evs = turn C (State w) page lookups staged
           | None =>
               message = "Export complete"
               /\ ge (end_time page) (endTimestamp C) = true
               /\ exists id,
                   evs = (turn C (State w) page lookups staged
                          ++ report C recipients id (Tickets_Raw w ++ staged))%list
           end
  end.

End ChainProps.

(* ===================================================================== *)
(** * The polling handler, and requests in a row *)
(* ===================================================================== *)

(** The third of the HTTP handlers: it fetches one page per request and
    keeps only the cursor, in [/tmp/checkpoint.json]. *)
Module Poll.

(** What one request meets: the three Zendesk settings of the process
    environment, what [fetch] throws if it throws, the status line of the
    answer, what [response.json()] throws if it throws, and the body for
    the address asked. *)
Record Upstream := mkUpstream {
  ZENDESK_SUBDOMAIN : value;
  ZENDESK_EMAIL : value;
  ZENDESK_API_TOKEN : value;
  fetch_error : option string;
  response_ok : bool;
  response_status : Z;
  response_text : string;
  json_error : option string;
  data : string -> feed_page
}.

Inductive reply :=
| Failed (status : Z) (error : string)
| Polled (processed : nat) (next_start_time : num) (completed : value).

(** [saved.end_time] of the checkpoint file, or 1 December 2025. *)
Definition startTime (checkpoint_json : option num) : num :=
  match checkpoint_json with
  | Some end_time => end_time
  | None => Handler.december_1_2025
  end.

(** [!subdomain || !email || !apiToken] does not hold. *)
Definition credentials (U : Upstream) : bool :=
  truthy (ZENDESK_SUBDOMAIN U) && truthy (ZENDESK_EMAIL U)
  && truthy (ZENDESK_API_TOKEN U).

(** The start time in the address.  A page without [end_time] leaves a
    checkpoint file without it, and the request after it asks from
    [undefined]. *)
Definition start_text (startTime : num) : string :=
  match startTime with
  | Some z => string_of_Z z
  | None => "undefined"
  end.

(** [[
`https://${subdomain}.zendesk.com/api/v2/incremental/tickets.json?start_time=${startTime}`
]] *)
Definition url (U : Upstream) (startTime : num) : string :=
  "https://" ++ to_string (ZENDESK_SUBDOMAIN U)
  ++ ".zendesk.com/api/v2/incremental/tickets.json?start_time="
  ++ start_text startTime.

(** The reply, the checkpoint file afterwards, and the addresses
    fetched. *)
Definition handler (U : Upstream) (checkpoint_json : option num)
  : reply * option num * list string :=
  if negb (credentials U)
  then (Failed 500 "Missing Zendesk credentials", checkpoint_json, [])
  else
    let url := url U (startTime checkpoint_json) in
    match fetch_error U with
    | Some msg => (Failed 500 msg, checkpoint_json, [url])
    | None =>
        if negb (response_ok U)
        then (Failed (response_status U) (response_text U), checkpoint_json, [url])
        else
          match json_error U with
          | Some msg => (Failed 500 msg, checkpoint_json, [url])
          | None =>
              let data := data U url in
              let tickets := match tickets data with Some l => l | None => [] end in
              (Polled (List.length tickets) (end_time data) (end_of_stream data),
               Some (end_time data), [url])
          end
    end.

(** Requests one after the other: for each, the addresses it fetched and
    its reply; and the checkpoint file in the end. *)
Fixpoint serve (Us : list Upstream) (checkpoint_json : option num)
  : list (list string * reply) * option num :=
  match Us with
  | [] => ([], checkpoint_json)
  | U :: rest =>
      let '(r, next, fetched) := handler U checkpoint_json in
      let (rs, last) := serve rest next in
      ((fetched, r) :: rs, last)
  end.

(** Where the feed is to be asked from after these replies, when it was
    to be asked from [start] before them. *)
Definition resume (start : num) (replies : list reply) : num :=
  fold_left (fun s r => match r with
                        | Polled _ next_start_time _ => next_start_time
                        | Failed _ _ => s
                        end) replies start.

End Poll.

(** Requests to the file-backed handler, one after the other. *)
Module Requests.

Import Handler.

(** The tickets kept in [/tmp/tickets.json]. *)
Definition stored (fs : Files) : list ticket :=
  match tickets_json fs with Some l => l | None => [] end.

Fixpoint serve (Us : list Upstream) (fs : Files)
  : list reply * Files * list (list row) :=
  match Us with
  | [] => ([], fs, [])
  | U :: rest =>
      let '(r, fs1, mailed1) := handler U fs in
      let '(rs, fs2, mailed2) := serve rest fs1 in
      (r :: rs, fs2, (mailed1 ++ mailed2)%list)
  end.

(** The tickets of the pages these requests were served. *)
Fixpoint served (Us : list Upstream) (fs : Files) : list ticket :=
  match Us with
  | [] => []
  | U :: rest =>
      (ExportJs.page_tickets (data U (startTime fs))
       ++ served rest (snd (fst (handler U fs))))%list
  end.

Definition collected (r : reply) : bool :=
  match r with Collected _ _ => true | _ => false end.

(** The total reported by the last of the replies. *)
Definition last_total (replies : list reply) (before : nat) : nat :=
  match List.last replies (Collected 0 before) with
  | Collected _ total => total
  | Completed total => total
  | Failed _ _ => before
  end.

End Requests.

(* ===================================================================== *)
(** * Properties *)
(* ===================================================================== *)

Import Hoare Invariants.

(** ** Strings and lists *)

Lemma append_assoc (a b c : string) : ((a ++ b) ++ c = a ++ (b ++ c))%string.
Proof.
  induction a as [|x a IH]; simpl; [reflexivity | now rewrite IH].
Qed.

Lemma append_empty_r (a : string) : (a ++ "")%string = a.
Proof.
  induction a as [|x a IH]; simpl; [reflexivity | now rewrite IH].
Qed.

(** [join] unfolds from the left: the first element, then the others, each
    behind a separator. *)
Lemma join_fold_rest (sep : string) (l : list string) (r : string) :
  snd (fold_left
         (fun (st : bool * string) (x : string) =>
            let (first, r) := st in
            (false, if first then r ++ x else r ++ sep ++ x)%string)
         l (false, r))
  = (r ++ String.concat "" (map (fun x => sep ++ x) l))%string.
Proof.
  revert r. induction l as [|x l IH]; intros r; simpl.
  - now rewrite append_empty_r.
  - rewrite IH. rewrite append_assoc. f_equal.
    destruct l; simpl; [now rewrite !append_empty_r | now rewrite append_assoc].
Qed.

Lemma join_nil (sep : string) : join sep [] = "".
Proof. reflexivity. Qed.

Lemma join_cons (sep x : string) (l : list string) :
  join sep (x :: l) =
  (x ++ match l with [] => "" | _ :: _ => sep ++ join sep l end)%string.
Proof.
  unfold join. simpl. rewrite join_fold_rest.
  destruct l as [|y l]; simpl.
  - reflexivity.
  - rewrite join_fold_rest. f_equal.
    destruct l; simpl; [now rewrite !append_empty_r|].
    now rewrite append_assoc.
Qed.

(** ** Reasoning about the monad *)

#[local] Arguments String.append : simpl never.

Section Monad.

Context {A B : Type}.

Lemma bind_Ok (m : M A) (k : A -> M B) w a w1 :
  m w = (Ok a, w1) -> bind m k w = k a w1.
Proof. unfold bind. now intros ->. Qed.

Lemma bind_Throw (m : M A) (k : A -> M B) w msg w1 :
  m w = (Throw msg, w1) -> bind m k w = (Throw msg, w1).
Proof. unfold bind. now intros ->. Qed.

Lemma bind_OutOfFuel (m : M A) (k : A -> M B) w w1 :
  m w = (OutOfFuel, w1) -> bind m k w = (OutOfFuel, w1).
Proof. unfold bind. now intros ->. Qed.

(** What a call can do: throw what the environment says, or answer. *)
Lemma call_cases (E : Env) rq (serve : nat -> World -> response * A) effect w :
  (exists msg, fails E (List.length (trace w)) = Some msg /\
               call E rq serve effect w = (Throw msg, logged rq (Threw msg) w))
  \/ (fails E (List.length (trace w)) = None /\
      call E rq serve effect w =
      (Ok (snd (serve (List.length (trace w)) w)),
       logged rq (fst (serve (List.length (trace w)) w)) (effect w))).
Proof.
  unfold call. destruct (fails E (List.length (trace w))) as [msg|].
  - left. now exists msg.
  - right. split; [reflexivity|]. now destruct (serve _ w).
Qed.

End Monad.

Lemma triple_ret {A} (a : A) (P : World -> Prop) Q :
  (forall w, P w -> Q (Ok a) w) -> triple P (ret a) Q.
Proof. intros H w Hw. now apply H. Qed.

Lemma triple_bind {A B} (m : M A) (k : A -> M B) P I Q R :
  triple P m (post I Q) ->
  (forall a, triple (Q a) (k a) (post I R)) ->
  triple P (bind m k) (post I R).
Proof.
  intros Hm Hk w Hw. specialize (Hm w Hw). unfold bind.
  destruct (m w) as [[a|msg|] w1]; simpl in *; auto.
  now apply Hk.
Qed.

Lemma triple_conseq {A} (m : M A) (P P' : World -> Prop) Q Q' :
  triple P' m Q' ->
  (forall w, P w -> P' w) ->
  (forall r w, Q' r w -> Q r w) ->
  triple P m Q.
Proof. intros H HP HQ w Hw. apply HQ, H, HP, Hw. Qed.

Lemma triple_call {A} (E : Env) rq (serve : nat -> World -> response * A)
    effect (P : World -> Prop) Q :
  (forall w msg, P w -> fails E (List.length (trace w)) = Some msg ->
     Q (Throw msg) (logged rq (Threw msg) w)) ->
  (forall w, P w -> fails E (List.length (trace w)) = None ->
     Q (Ok (snd (serve (List.length (trace w)) w)))
       (logged rq (fst (serve (List.length (trace w)) w)) (effect w))) ->
  triple P (call E rq serve effect) Q.
Proof.
  intros Ht Ho w Hw.
  destruct (call_cases E rq serve effect w) as [(msg & Hf & ->)|[Hf ->]]; simpl.
  - now apply Ht.
  - now apply Ho.
Qed.

Lemma grown_logged t0 (S S' : list Props.event -> Prop) rq rs w w' :
  grown t0 S w ->
  trace w' = trace w ->
  (forall evs, S evs -> S' (evs ++ [(rq, rs)])%list) ->
  grown t0 S' (logged rq rs w').
Proof.
  intros (evs & Ht & HS) Hw' Hstep. exists (evs ++ [(rq, rs)])%list. split.
  - simpl. rewrite Hw', Ht. now rewrite app_assoc.
  - now apply Hstep.
Qed.

Lemma grown_start (S : list Props.event -> Prop) w : S [] -> grown (trace w) S w.
Proof. intros H. exists []. now rewrite app_nil_r. Qed.

Lemma trace_with_State f w : trace (with_State f w) = trace w.
Proof. reflexivity. Qed.

Lemma trace_with_Raw f w : trace (with_Raw f w) = trace w.
Proof. reflexivity. Qed.

Lemma trace_with_Logs f w : trace (with_Logs f w) = trace w.
Proof. reflexivity. Qed.

(** ** The body digest *)

Import ExportJs Props.

Lemma role_label requester_id c :
  role requester_id c = label requester_id (comment_author_id c).
Proof. reflexivity. Qed.

Lemma filter_nil_existsb {X} (p : X -> bool) (l : list X) :
  existsb p l = false <-> filter p l = [].
Proof.
  induction l as [|x l IH]; simpl; [tauto|].
  destruct (p x); simpl; [split; discriminate | exact IH].
Qed.

Lemma join_public_digest requester_id (cs : list comment) :
  join separator
    (map (format_comment requester_id)
         (filter (fun c => truthy (comment_public c)) cs))
  = body_digest requester_id cs.
Proof.
  induction cs as [|c rest IH]; [reflexivity|].
  simpl. destruct (truthy (comment_public c)); [|exact IH].
  simpl map. rewrite join_cons. unfold format_comment at 1.
  rewrite role_label, !append_assoc. do 3 f_equal.
  destruct (existsb _ rest) eqn:Hex.
  - destruct (filter _ rest) eqn:Hf.
    + apply filter_nil_existsb in Hf. congruence.
    + simpl map in *. now rewrite IH.
  - apply filter_nil_existsb in Hex. now rewrite Hex.
Qed.

Lemma digest_skips_private requester_id l1 c l2 :
  truthy (comment_public c) = false ->
  body_digest requester_id (l1 ++ c :: l2) = body_digest requester_id (l1 ++ l2).
Proof.
  intros Hc. induction l1 as [|x l1 IH]; simpl.
  - now rewrite Hc.
  - rewrite IH. rewrite !existsb_app. simpl. now rewrite Hc.
Qed.

(** What [enrich] returns, and the call that gave it the comments. *)
Lemma enrich_Ok E C t w r w' :
  enrich E C t w = (Ok r, w') ->
  exists email reply,
    In (FetchComments (comments_url C (ticket_id t)), GotComments reply) (trace w')
    /\ r = [ ticket_id t; ticket_created_at t; email;
             or_else (ticket_via_channel t) (str "");
             or_else (ticket_subject t) (str "");
             str (formattedComments (ticket_requester_id t) reply) ].
Proof.
  unfold enrich, fetch_user, fetch_comments. intros H.
  assert (Hc : forall email w1,
    bind (call E (FetchComments (comments_url C (ticket_id t)))
            (fun n _ => (GotComments (ticket_comments E n (comments_url C (ticket_id t))),
                         ticket_comments E n (comments_url C (ticket_id t))))
            (fun w => w))
         (fun commentsData =>
            ret [ ticket_id t; ticket_created_at t; email;
                  or_else (ticket_via_channel t) (str "");
                  or_else (ticket_subject t) (str "");
                  str (formattedComments (ticket_requester_id t) commentsData) ]) w1
    = (Ok r, w') ->
    exists reply,
      In (FetchComments (comments_url C (ticket_id t)), GotComments reply) (trace w')
      /\ r = [ ticket_id t; ticket_created_at t; email;
               or_else (ticket_via_channel t) (str "");
               or_else (ticket_subject t) (str "");
               str (formattedComments (ticket_requester_id t) reply) ]).
  { intros email w1 H1. unfold bind in H1.
    match type of H1 with context [call ?e ?rq ?s ?f w1] =>
      destruct (call_cases e rq s f w1) as [(msg & _ & Hq)|[_ Hq]];
      rewrite Hq in H1 end; [discriminate|].
    unfold ret in H1. inversion H1; subst. eexists. split; [|reflexivity].
    simpl. apply in_or_app. right. now left. }
  unfold bind at 1 in H.
  destruct (truthy (ticket_requester_id t)).
  - unfold bind at 1 in H.
    match type of H with context [call ?e ?rq ?s ?f w] =>
      destruct (call_cases e rq s f w) as [(msg & _ & Hq)|[_ Hq]];
      rewrite Hq in H end; [discriminate|].
    unfold ret at 1 in H. apply Hc in H. destruct H as (reply & ? & ?). eauto.
  - unfold ret at 1 in H. apply Hc in H. destruct H as (reply & ? & ?). eauto.
Qed.

(** C6. The body digest of an enriched row is the design's digest of the
    comments the lookup returned: only the comments marked public, each
    labelled Requester when its author is the ticket's requester and Agent
    otherwise, in upstream order, with the fixed separator between them; a
    comment that is not public contributes nothing. *)
Theorem body_digest_public_labelled_ordered :
  forall (E : Env) (C : Config) (t : ticket),
    (forall reply,
        formattedComments (ticket_requester_id t) reply
        = body_digest (ticket_requester_id t) (reply_comments reply))
    /\ (forall l1 c l2,
          truthy (comment_public c) = false ->
          body_digest (ticket_requester_id t) (l1 ++ c :: l2)
          = body_digest (ticket_requester_id t) (l1 ++ l2))
    /\ (forall w r w',
          enrich E C t w = (Ok r, w') ->
          exists reply,
            In (FetchComments (comments_url C (ticket_id t)), GotComments reply)
               (trace w')
            /\ nth 5 r undefined
               = str (body_digest (ticket_requester_id t) (reply_comments reply))).
Proof.
  intros E C t. split; [|split].
  - intros reply. unfold formattedComments, publicComments, reply_comments.
    apply join_public_digest.
  - intros l1 c l2. apply digest_skips_private.
  - intros w r w' H. apply enrich_Ok in H. destruct H as (email & reply & Hin & ->).
    exists reply. split; [exact Hin|]. simpl.
    unfold formattedComments, publicComments, reply_comments.
    now rewrite join_public_digest.
Qed.

(** ** Calls that keep a property of the trace *)

Section Keeps.

Variable t0 : list event.
Variable ok : event -> Prop.

Let I : World -> Prop := grown t0 (Forall ok).

Lemma keeps_logged rq rs w w' :
  I w -> trace w' = trace w -> ok (rq, rs) -> I (logged rq rs w').
Proof.
  intros HI Hw Hok. apply (grown_logged t0 (Forall ok) (Forall ok) rq rs w w' HI Hw).
  intros evs Hevs. apply Forall_app. split; [exact Hevs | now constructor].
Qed.

Lemma call_keeps {A} (E : Env) rq (serve : nat -> World -> response * A) effect :
  (forall rs, ok (rq, rs)) ->
  (forall w, trace (effect w) = trace w) ->
  triple I (call E rq serve effect) (post I (fun _ => I)).
Proof.
  intros Hok Heff. apply triple_call; intros w; intros; simpl.
  - apply keeps_logged with (w := w); auto.
  - apply keeps_logged with (w := w); auto.
Qed.

End Keeps.

(** ** The window filter *)

Lemma in_window_bounds C ts :
  in_window C ts = true <->
  exists s e c, startTimestamp C = Some s /\ endTimestamp C = Some e /\
                ts = Some c /\ s <= c < e.
Proof.
  unfold in_window, ge, lt. split.
  - intros H. apply andb_prop in H. destruct H as [H1 H2].
    destruct ts as [c|]; [|discriminate].
    destruct (startTimestamp C) as [s|]; [|discriminate].
    destruct (endTimestamp C) as [e|]; [|discriminate].
    exists s, e, c. repeat split; lia.
  - intros (s & e & c & -> & -> & -> & Hs & He).
    apply andb_true_intro. split; lia.
Qed.

Section Window.

Variables (E : Env) (C : Config) (t0 : list event).

Let I : World -> Prop := grown t0 (Forall (appends_in_window E C)).

Lemma enrich_in_window t :
  triple I (enrich E C t)
         (post I (fun r w => I w /\ row_created_at r = ticket_created_at t)).
Proof.
  unfold enrich.
  apply triple_bind with (Q := fun _ => I).
  - destruct (truthy (ticket_requester_id t)).
    + apply triple_bind with (Q := fun _ => I).
      * apply call_keeps; [intros; exact Logic.I | reflexivity].
      * intros u. apply triple_ret. auto.
    + apply triple_ret. auto.
  - intros email. apply triple_bind with (Q := fun _ => I).
    + apply call_keeps; [intros; exact Logic.I | reflexivity].
    + intros cd. apply triple_ret. intros w Hw. split; [exact Hw | reflexivity].
Qed.

Lemma for_tickets_in_window ts :
  forall rows last,
    Forall (row_in_window E C) rows ->
    triple I (for_tickets E C ts rows last)
           (post I (fun found w => I w /\ Forall (row_in_window E C) (fst found))).
Proof.
  induction ts as [|t rest IH]; intros rows last Hrows; simpl.
  - apply triple_ret. intros w Hw. simpl. auto.
  - destruct (in_window C (createdTs E t)) eqn:Hin; [|now apply IH].
    apply triple_bind
      with (Q := fun r w => I w /\ row_created_at r = ticket_created_at t).
    + apply enrich_in_window.
    + intros r.
      apply triple_conseq
        with (P' := fun w => I w /\ row_created_at r = ticket_created_at t
                             /\ Forall (row_in_window E C) (rows ++ [r])%list)
             (Q' := post I (fun found w =>
                              I w /\ Forall (row_in_window E C) (fst found))).
      * intros w (HI & Hr & Hall). now apply IH.
      * intros w (HI & Hr). repeat split; auto.
        apply Forall_app. split; [exact Hrows|]. constructor; [|constructor].
        apply in_window_bounds in Hin. destruct Hin as (s & e & c & ? & ? & ? & ?).
        exists s, e, c. unfold createdTs in *. rewrite Hr. auto.
      * auto.
Qed.

Lemma log_in_window status cp fetched saved last :
  triple I (log E C status cp fetched saved last) (post I (fun _ => I)).
Proof.
  unfold log, Sheets.append_Logs. intros w Hw.
  apply (call_keeps t0 (appends_in_window E C)); auto. intros; exact Logic.I.
Qed.

Lemma loop_in_window fuel :
  forall nextUrl st, triple I (loop E C fuel nextUrl st) (post I (fun _ => I)).
Proof.
  induction fuel as [|fuel IH]; intros nextUrl st; simpl;
    (destruct (truthy nextUrl); [|apply triple_ret; auto]).
  - intros w Hw. exact Hw.
  - apply triple_bind with (Q := fun _ => I).
    { apply call_keeps; [intros; exact Logic.I | reflexivity]. }
    intros data.
    apply triple_bind
      with (Q := fun found w => I w /\ Forall (row_in_window E C) (fst found)).
    { apply for_tickets_in_window. constructor. }
    intros [rows last]. simpl fst.
    apply triple_bind with (Q := fun _ => I).
    { destruct rows as [|r rows].
      - apply triple_ret. tauto.
      - apply triple_bind with (Q := fun _ => I).
        + intros w [Hw Hrows]. unfold Sheets.append_Raw.
          apply (call_keeps t0 (appends_in_window E C)); auto.
        + intros _. apply triple_ret. auto. }
    intros saved.
    apply triple_bind with (Q := fun _ => I).
    { apply call_keeps; [intros; exact Logic.I | reflexivity]. }
    intros _.
    apply triple_bind with (Q := fun _ => I).
    { apply log_in_window. }
    intros _. destruct (breaks C data); [apply triple_ret; auto | apply IH].
Qed.

Lemma share_in_window exportId l :
  triple I (share E exportId l) (post I (fun _ => I)).
Proof.
  induction l as [|x l IH]; simpl.
  - apply triple_ret. auto.
  - apply triple_bind with (Q := fun _ => I); [|intros _; exact IH].
    apply call_keeps; [intros; exact Logic.I | reflexivity].
Qed.

Lemma finalize_in_window st :
  triple I (finalize E C st) (post I (fun _ => I)).
Proof.
  unfold finalize, Sheets.get_Raw, Sheets.clear_State, Sheets.clear_Raw.
  repeat (first
    [ apply log_in_window
    | apply share_in_window
    | apply call_keeps; [intros; exact Logic.I | reflexivity]
    | apply triple_ret; solve [auto]
    | match goal with |- triple _ (match ?l with [] => _ | _ :: _ => _ end) _ =>
        destruct l end
    | apply triple_bind with (Q := fun _ => I); [|intro] ]).
Qed.

Lemma run_in_window fuel :
  triple I (run E C fuel) (post I (fun _ => I)).
Proof.
  unfold run, Sheets.get_State.
  apply triple_bind with (Q := fun _ => I).
  { apply call_keeps; [intros; exact Logic.I | reflexivity]. }
  intros rows. apply triple_bind with (Q := fun _ => I).
  { apply loop_in_window. }
  intros st. apply finalize_in_window.
Qed.

Lemma main_in_window fuel w : I w -> I (snd (main E C fuel w)).
Proof.
  intros Hw. unfold main. destruct (negb _); [exact Hw|].
  pose proof (run_in_window fuel w Hw) as Hr.
  destruct (run E C fuel w) as [[[]|msg|] w1]; simpl in *; auto.
  pose proof (log_in_window ("ERROR: " ++ msg) (str "UNKNOWN") 0 0 (str "FAIL") w1 Hr)
    as Hl.
  destruct (log E C _ _ _ _ _ w1) as [[[]|msg'|] w2]; simpl in *; auto.
Qed.

End Window.

(** The file-backed handler stores every ticket of the page it fetched: it
    has no window.  Asked for its December 2025 export, it stages a ticket
    created before that month began and one created after it ended. *)
Lemma handler_stages_outside_window :
  exists staged,
    Handler.tickets_json
      (snd (fst (Handler.handler Sample.stray_upstream Sample.no_files)))
    = Some staged
    /\ ~ Forall (ticket_in_window Sample.iso_getTime Sample.december) staged.
Proof.
  eexists. split; [reflexivity|].
  intros H. inversion H as [|t l (s & e & c & Hs & He & Hc & Hle) _]; subst.
  vm_compute in Hs, He, Hc.
  injection Hs as <-. injection He as <-. injection Hc as <-. lia.
Qed.

(** C1 (for the spreadsheet-backed controller of [export.js]). Whatever
    the environment answers and however long the run lasts, every row the
    program appends to [Tickets_Raw] has a creation time, in seconds, with
    [start <= created_at < end].  A ticket created at [end] is passed over;
    a ticket created at [start] is enriched and its row pushed. *)
Theorem staging_rows_lie_in_window :
  forall (E : Env) (C : Config) (fuel : nat) (w : World),
    (exists evs,
        events_since (trace w) (snd (main E C fuel w)) evs
        /\ Forall (appends_in_window E C) evs)
    /\ (forall t rest rows last,
          createdTs E t = endTimestamp C ->
          for_tickets E C (t :: rest) rows last = for_tickets E C rest rows last)
    /\ (forall t rest rows last s e,
          startTimestamp C = Some s -> endTimestamp C = Some e -> s < e ->
          createdTs E t = Some s ->
          for_tickets E C (t :: rest) rows last
          = (r <- enrich E C t ;; for_tickets E C rest (rows ++ [r])%list (ticket_id t))).
Proof.
  intros E C fuel w. split; [|split].
  - apply (main_in_window E C (trace w) fuel w). apply grown_start. constructor.
  - intros t rest rows last Hend. simpl.
    replace (in_window C (createdTs E t)) with false; [reflexivity|].
    unfold in_window. rewrite Hend. unfold ge, lt.
    destruct (endTimestamp C) as [e|], (startTimestamp C) as [s|]; simpl;
      rewrite ?andb_false_r; try reflexivity.
    symmetry. apply andb_false_intro2. lia.
  - intros t rest rows last s e Hs He Hlt Hc. simpl.
    replace (in_window C (createdTs E t)) with true; [reflexivity|].
    symmetry. apply in_window_bounds. exists s, e, s. repeat split; auto; lia.
Qed.

(** Witness for C1: the tie-break on December 2025. *)
Lemma staging_rows_lie_in_window_witness :
  let E := Sample.quiet Sample.stray_page [] in
  let first := Sample.ticket_at 1 "2025-12-01T00:00:00Z" 7 in
  let late := Sample.ticket_at 2 "2026-01-01T00:00:00Z" 7 in
  for_tickets E Sample.december [first] [] null
  = (r <- enrich E Sample.december first ;;
     for_tickets E Sample.december [] ([] ++ [r])%list (ticket_id first))
  /\ for_tickets E Sample.december [late] [] null
     = for_tickets E Sample.december [] [] null.
Proof.
  intros E first late.
  destruct (staging_rows_lie_in_window E Sample.december 1 Sample.empty_world)
    as (_ & Hend & Hstart).
  split.
  - apply (Hstart first [] [] null 1764547200 1767225600); try reflexivity.
  - apply (Hend late). reflexivity.
Defined.

(** ** Calls that do not fail *)

Lemma call_None {A} (E : Env) rq (serve : nat -> World -> response * A) effect w :
  fails E (List.length (trace w)) = None ->
  call E rq serve effect w =
  (Ok (snd (serve (List.length (trace w)) w)),
   logged rq (fst (serve (List.length (trace w)) w)) (effect w)).
Proof.
  intros H. destruct (call_cases E rq serve effect w) as [(msg & Hf & _)|[_ Hq]];
    [congruence | exact Hq].
Qed.

Lemma call_Some {A} (E : Env) rq (serve : nat -> World -> response * A) effect w msg :
  fails E (List.length (trace w)) = Some msg ->
  call E rq serve effect w = (Throw msg, logged rq (Threw msg) w).
Proof.
  intros H. destruct (call_cases E rq serve effect w) as [(m & Hf & Hq)|[Hf _]];
    [|congruence].
  rewrite Hq. congruence.
Qed.

Lemma length_logged rq rs w :
  List.length (trace (logged rq rs w)) = S (List.length (trace w)).
Proof. simpl. rewrite length_app. simpl. lia. Qed.

(** The number of the next call, from the shape of the trace. *)
Ltac clock :=
  simpl; rewrite ?length_app; simpl; rewrite ?Nat.add_1_r;
  first [assumption | reflexivity | lia].

(** ** Tickets outside the window cost nothing *)

Lemma for_tickets_none_admitted E C ts rows last w :
  Forall (fun t => in_window C (createdTs E t) = false) ts ->
  for_tickets E C ts rows last w = (Ok (rows, last), w).
Proof.
  induction 1 as [|t ts Ht _ IH]; simpl; [reflexivity|]. now rewrite Ht.
Qed.

Lemma for_tickets_skips_unparsable E C t :
  Date_getTime E (ticket_created_at t) = None ->
  forall l1 l2 rows last w,
    for_tickets E C (l1 ++ t :: l2) rows last w
    = for_tickets E C (l1 ++ l2) rows last w.
Proof.
  intros Ht. induction l1 as [|x l1 IH]; intros l2 rows last w; simpl.
  - unfold createdTs. rewrite Ht. reflexivity.
  - destruct (in_window C (createdTs E x)); [|apply IH].
    unfold bind. destruct (enrich E C x w) as [[r|msg|] w1]; auto.
Qed.

Lemma loop_quiet_page E C fuel nextUrl st w :
  truthy nextUrl = true ->
  Forall (fun t => in_window C (createdTs E t) = false)
         (page_tickets (feed E (List.length (trace w)) nextUrl)) ->
  fails E (List.length (trace w)) = None ->
  fails E (S (List.length (trace w))) = None ->
  fails E (S (S (List.length (trace w)))) = None ->
  loop E C (S fuel) nextUrl st w
  = (if breaks C (feed E (List.length (trace w)) nextUrl)
     then ret (locals_after_quiet_page E nextUrl st w)
     else loop E C fuel (next_page (feed E (List.length (trace w)) nextUrl))
            (locals_after_quiet_page E nextUrl st w))
      (after_quiet_page E C nextUrl st w).
Proof.
  intros Hurl Hnone F0 F1 F2. simpl. rewrite Hurl.
  unfold fetch_feed. erewrite bind_Ok by (apply call_None; exact F0).
  cbv beta zeta. simpl fst. simpl snd.
  erewrite bind_Ok by (apply for_tickets_none_admitted; exact Hnone).
  cbv beta iota zeta.
  erewrite bind_Ok by reflexivity.
  unfold Sheets.update_State.
  erewrite bind_Ok by (apply call_None; clock).
  unfold log, Sheets.append_Logs.
  erewrite bind_Ok by (apply call_None; clock).
  simpl. rewrite !length_app. simpl. rewrite !Nat.add_1_r.
  unfold after_quiet_page, locals_after_quiet_page, logged, with_State, with_Logs,
    running_entry. simpl.
  rewrite <- !app_assoc. simpl. reflexivity.
Qed.

(** C10. A feed page whose body has no [tickets] array is consumed like an
    empty page: nothing is looked up or appended, the checkpoint is written
    and the turn is logged, and no error comes of it.  A ticket whose
    [created_at] does not parse is passed over without a call and without
    an error: the loop over the page goes as if the ticket were not there. *)
Theorem missing_tickets_and_bad_dates_are_skipped :
  forall (E : Env) (C : Config),
    (forall fuel nextUrl st w,
        truthy nextUrl = true ->
        tickets (feed E (List.length (trace w)) nextUrl) = None ->
        fails E (List.length (trace w)) = None ->
        fails E (S (List.length (trace w))) = None ->
        fails E (S (S (List.length (trace w)))) = None ->
        loop E C (S fuel) nextUrl st w
        = (if breaks C (feed E (List.length (trace w)) nextUrl)
           then ret (locals_after_quiet_page E nextUrl st w)
           else loop E C fuel (next_page (feed E (List.length (trace w)) nextUrl))
                  (locals_after_quiet_page E nextUrl st w))
            (after_quiet_page E C nextUrl st w))
    /\ (forall t,
          Date_getTime E (ticket_created_at t) = None ->
          ge (createdTs E t) (startTimestamp C) = false
          /\ lt (createdTs E t) (endTimestamp C) = false
          /\ in_window C (createdTs E t) = false
          /\ forall l1 l2 rows last w,
              for_tickets E C (l1 ++ t :: l2) rows last w
              = for_tickets E C (l1 ++ l2) rows last w).
Proof.
  intros E C. split.
  - intros fuel nextUrl st w Hurl Hnone F0 F1 F2.
    apply loop_quiet_page; auto.
    unfold page_tickets. rewrite Hnone. constructor.
  - intros t Ht. unfold createdTs. rewrite Ht. repeat split.
    now apply for_tickets_skips_unparsable.
Qed.

(** ** Finalization *)

Lemma finalize_unshared_quiet E C st t0 :
  RECIPIENTS C = [] ->
  triple (grown t0 (Forall (fun ev => shares_or_mails ev = false)))
         (finalize E C st)
         (post (grown t0 (Forall (fun ev => shares_or_mails ev = false)))
               (fun _ => grown t0 (Forall (fun ev => shares_or_mails ev = false)))).
Proof.
  intros HR. unfold finalize, Sheets.get_Raw, Sheets.clear_State, Sheets.clear_Raw,
    log, Sheets.append_Logs.
  rewrite HR. simpl share.
  set (I := grown t0 (Forall (fun ev => shares_or_mails ev = false))).
  apply triple_bind with (Q := fun _ => I);
    [apply call_keeps; [reflexivity | reflexivity]|intros exportId].
  apply triple_bind with (Q := fun _ => I);
    [apply call_keeps; [reflexivity | reflexivity]|intros rawData].
  apply triple_bind with (Q := fun _ => I);
    [apply call_keeps; [reflexivity | reflexivity]|intros _].
  apply triple_bind with (Q := fun _ => I); [apply triple_ret; auto|intros _].
  apply triple_bind with (Q := fun _ => I); [apply triple_ret; auto|intros _].
  apply triple_bind with (Q := fun _ => I);
    [apply call_keeps; [reflexivity | reflexivity]|intros _].
  apply triple_bind with (Q := fun _ => I);
    [apply call_keeps; [reflexivity | reflexivity]|intros _].
  intros w Hw. apply (call_keeps t0 (fun ev => shares_or_mails ev = false));
    [reflexivity | reflexivity | exact Hw].
Qed.

Lemma finalize_unshared_succeeds E C st w :
  RECIPIENTS C = [] ->
  (forall k, (k < 6)%nat -> fails E (List.length (trace w) + k) = None) ->
  finalize E C st w = (Ok tt, after_unshared_finalize E C st w).
Proof.
  intros HR Hf. unfold finalize. rewrite HR. simpl share.
  assert (F : forall k, (k < 6)%nat -> forall n,
             n = (List.length (trace w) + k)%nat -> fails E n = None)
    by (intros; subst; auto).
  erewrite bind_Ok by (apply call_None; apply (F 0%nat); [lia | clock]).
  unfold Sheets.get_Raw.
  erewrite bind_Ok by (apply call_None; apply (F 1%nat); [lia | clock]).
  cbv beta. simpl fst. simpl snd.
  erewrite bind_Ok by (apply call_None; apply (F 2%nat); [lia | clock]).
  erewrite bind_Ok by reflexivity.
  erewrite bind_Ok by reflexivity.
  unfold Sheets.clear_State.
  erewrite bind_Ok by (apply call_None; apply (F 3%nat); [lia | clock]).
  unfold Sheets.clear_Raw.
  erewrite bind_Ok by (apply call_None; apply (F 4%nat); [lia | clock]).
  unfold log, Sheets.append_Logs.
  rewrite call_None by (apply (F 5%nat); [lia | clock]).
  simpl. rewrite !length_app. simpl.
  replace (List.length (trace w) + 1 + 1 + 1 + 1 + 1)%nat
    with (List.length (trace w) + 5)%nat by lia.
  f_equal.
  unfold after_unshared_finalize, complete_entry, logged, with_Logs, with_Raw,
    with_State.
  cbn [State Tickets_Raw Logs trace]. rewrite <- !app_assoc. reflexivity.
Qed.

Lemma RECIPIENTS_unset C :
  EMAIL_RECIPIENTS C = None \/ EMAIL_RECIPIENTS C = Some "" -> RECIPIENTS C = [].
Proof. unfold RECIPIENTS. intros [-> | ->]; reflexivity. Qed.

Lemma Forall_existsb_false {X} (p : X -> bool) (l : list X) :
  Forall (fun x => p x = false) l -> existsb p l = false.
Proof.
  induction 1 as [|x l Hx _ IH]; simpl; [reflexivity|]. now rewrite Hx.
Qed.

(** C9. With no recipient configured ([EMAIL_RECIPIENTS] unset or empty),
    finalization grants no access and sends no mail, whatever else happens;
    and when none of its six calls fails it creates the report, fills it
    with the header and the staging rows, clears the checkpoint and the
    staging rows, and logs "Export Complete". *)
Theorem finalize_with_no_recipients :
  forall (E : Env) (C : Config) (st : locals) (w : World),
    (EMAIL_RECIPIENTS C = None \/ EMAIL_RECIPIENTS C = Some "" -> RECIPIENTS C = [])
    /\ (RECIPIENTS C = [] ->
        (exists evs,
            events_since (trace w) (snd (finalize E C st w)) evs
            /\ existsb shares_or_mails evs = false)
        /\ ((forall k, (k < 6)%nat -> fails E (List.length (trace w) + k) = None) ->
            finalize E C st w = (Ok tt, after_unshared_finalize E C st w))).
Proof.
  intros E C st w. split; [apply RECIPIENTS_unset|].
  intros HR. split.
  - pose proof (finalize_unshared_quiet E C st (trace w) HR w) as H.
    assert (Hg : grown (trace w) (Forall (fun ev => shares_or_mails ev = false))
                       (snd (finalize E C st w))).
    { specialize (H (grown_start _ w (Forall_nil _))).
      destruct (finalize E C st w) as [[[]|msg|] w1]; exact H. }
    destruct Hg as (evs & Ht & Hall). exists evs. split; [exact Ht|].
    now apply Forall_existsb_false.
  - now apply finalize_unshared_succeeds.
Qed.

(** ** Lookups: what a failure does *)

Section Frame.

Variables (E : Env) (C : Config) (w0 : World).

Let I : World -> Prop := same_sheets w0.

Lemma lookup_frame {A} rq (serve : nat -> World -> response * A) :
  triple I (call E rq serve (fun w => w)) (post I (fun _ => I)).
Proof. apply triple_call; intros w; intros; exact H. Qed.

Lemma enrich_frame t : triple I (enrich E C t) (post I (fun _ => I)).
Proof.
  unfold enrich, fetch_user, fetch_comments.
  apply triple_bind with (Q := fun _ => I).
  - destruct (truthy (ticket_requester_id t)).
    + apply triple_bind with (Q := fun _ => I); [apply lookup_frame|].
      intros u. apply triple_ret. auto.
    + apply triple_ret. auto.
  - intros email. apply triple_bind with (Q := fun _ => I); [apply lookup_frame|].
    intros cd. apply triple_ret. auto.
Qed.

Lemma for_tickets_frame ts :
  forall rows last, triple I (for_tickets E C ts rows last) (post I (fun _ => I)).
Proof.
  induction ts as [|t rest IH]; intros rows last; simpl.
  - apply triple_ret. auto.
  - destruct (in_window C (createdTs E t)); [|apply IH].
    apply triple_bind with (Q := fun _ => I); [apply enrich_frame|].
    intros r. apply IH.
Qed.

End Frame.

Lemma same_sheets_refl w : same_sheets w w.
Proof. repeat split. Qed.

Lemma for_tickets_same_sheets E C ts rows last w :
  same_sheets w (snd (for_tickets E C ts rows last w)).
Proof.
  pose proof (for_tickets_frame E C w ts rows last w (same_sheets_refl w)) as H.
  destruct (for_tickets E C ts rows last w) as [[a|msg|] w1]; exact H.
Qed.

(** In [export.js] a lookup that throws ends the whole run.  The comment
    lookup of the second of three December tickets fails: the process exits
    with code 1, staging holds no row, not even the first ticket's, the
    third ticket is never looked up, and the only audit entry is the error
    row, whose last-record column reads FAIL.  And when the lookups answer
    without data, so that every record is degraded, the run completes and
    the last-record column of the audit log reads 103, the last ticket
    admitted, and then DONE: no entry names the degraded records 101 and
    102. *)
Lemma throwing_lookup_aborts_the_batch :
  let thrown := main Sample.second_lookup_throws Sample.december 5 Sample.empty_world in
  let degraded := main Sample.empty_answers Sample.december 5 Sample.empty_world in
  (fst thrown = Exit 1
   /\ Tickets_Raw (snd thrown) = []
   /\ existsb stages_or_looks_up (skipn 6 (trace (snd thrown))) = false
   /\ map (fun entry => nth 5 entry undefined) (Logs (snd thrown)) = [str "FAIL"])
  /\ (fst degraded = Exit 0
      /\ map (fun entry => nth 5 entry undefined) (Logs (snd degraded))
         = [number (Some 103); str "DONE"]).
Proof. vm_compute. repeat split; reflexivity. Qed.

(** ** Three-way postconditions *)

Lemma triple_bind3 {A B} (m : M A) (k : A -> M B) P I F Q R :
  triple P m (post3 I F Q) ->
  (forall a, triple (Q a) (k a) (post3 I F R)) ->
  triple P (bind m k) (post3 I F R).
Proof.
  intros Hm Hk w Hw. specialize (Hm w Hw). unfold bind.
  destruct (m w) as [[a|msg|] w1]; simpl in *; auto.
  now apply Hk.
Qed.

Lemma triple_call3 {A} (E : Env) rq (serve : nat -> World -> response * A)
    effect (P I F : World -> Prop) R :
  (forall w msg, P w -> fails E (List.length (trace w)) = Some msg ->
     I (logged rq (Threw msg) w)) ->
  (forall w, P w -> fails E (List.length (trace w)) = None ->
     R (snd (serve (List.length (trace w)) w))
       (logged rq (fst (serve (List.length (trace w)) w)) (effect w))) ->
  triple P (call E rq serve effect) (post3 I F R).
Proof. intros Ht Ho. apply triple_call; auto. Qed.

(** ** Pages and finalization *)

Lemma pages_app evs evs' : pages (evs ++ evs') = (pages evs ++ pages evs')%list.
Proof. unfold pages. apply flat_map_app. Qed.

Lemma finalizing_app evs evs' :
  finalizing (evs ++ evs') = finalizing evs || finalizing evs'.
Proof. unfold finalizing. apply existsb_app. Qed.

Lemma pages_snoc_other evs rq rs :
  (forall url cursor, rq <> FetchFeed url cursor) ->
  pages (evs ++ [(rq, rs)]) = pages evs.
Proof.
  intros H. rewrite pages_app. simpl.
  destruct rq; try (now rewrite app_nil_r).
  exfalso. eapply H. reflexivity.
Qed.

Lemma pages_snoc_threw evs rq msg : pages (evs ++ [(rq, Threw msg)]) = pages evs.
Proof. rewrite pages_app. simpl. destruct rq; now rewrite app_nil_r. Qed.

Lemma finalizing_snoc_other evs rq rs :
  (forall name, rq <> CreateFile name) ->
  finalizing (evs ++ [(rq, rs)]) = finalizing evs.
Proof.
  intros H. rewrite finalizing_app. simpl.
  destruct rq; try (now rewrite orb_false_r).
  exfalso. eapply H. reflexivity.
Qed.

Lemma neutral_not_fetch rq : neutral rq = true -> forall u c, rq <> FetchFeed u c.
Proof. intros H u c ->. discriminate. Qed.

Lemma neutral_not_create rq : neutral rq = true -> forall n, rq <> CreateFile n.
Proof. intros H n ->. discriminate. Qed.

Section Pages.

Variables (E : Env) (C : Config) (t0 : list event) (total : nat).

Local Abbreviation seen := (Invariants.seen t0).
Local Abbreviation T_any := (Invariants.T_any C).
Local Abbreviation T_fuel := (Invariants.T_fuel C total).
Local Abbreviation T_page := (Invariants.T_page C).
Local Abbreviation T_exit := (Invariants.T_exit C).
Local Abbreviation T_head := (Invariants.T_head C).

Let on := fun d => goes_on C d = true.

Lemma T_page_any d n p f : T_page d n p f -> T_any p f.
Proof.
  intros (-> & old & -> & Hold & _). split; [|discriminate].
  now rewrite removelast_last.
Qed.

Lemma T_exit_any p f : T_exit p f -> T_any p f.
Proof.
  intros (old & d & -> & Hold & Hd). split.
  - now rewrite removelast_last.
  - intros _. now exists old, d.
Qed.

Lemma Forall_removelast {X} (P : X -> Prop) (l : list X) :
  Forall P l -> Forall P (removelast l).
Proof.
  induction 1 as [|x l Hx Hl IH]; simpl; [constructor|].
  destruct l; [constructor | now constructor].
Qed.

Lemma T_head_any u n p f : T_head u n p f -> T_any p f.
Proof.
  intros (-> & [(_ & Hp & _)|(_ & He)]).
  - split; [now apply Forall_removelast | discriminate].
  - now apply T_exit_any.
Qed.

(** A call that is neither a page fetch nor the report's creation. *)
Lemma call_neutral {A} rq (serve : nat -> World -> response * A) effect T :
  neutral rq = true ->
  (forall w, trace (effect w) = trace w) ->
  (forall p f, T p f -> T_any p f) ->
  triple (seen T) (call E rq serve effect)
         (post3 (seen T_any) (seen T_fuel) (fun _ => seen T)).
Proof.
  intros Hn Heff HT. apply triple_call3; intros w; intros.
  - apply (grown_logged t0 _ _ rq (Threw msg) w w H eq_refl).
    intros evs Hevs. rewrite pages_snoc_threw.
    rewrite finalizing_snoc_other by now apply neutral_not_create.
    now apply HT.
  - apply (grown_logged t0 _ _ rq _ w (effect w) H (Heff w)).
    intros evs Hevs. rewrite pages_snoc_other by now apply neutral_not_fetch.
    now rewrite finalizing_snoc_other by now apply neutral_not_create.
Qed.

Section Neutral.

Variable T : list feed_page -> bool -> Prop.
Hypothesis HT : forall p f, T p f -> T_any p f.

Let Q {A} : result A -> World -> Prop :=
  post3 (seen T_any) (seen T_fuel) (fun _ => seen T).

Lemma enrich_neutral t : triple (seen T) (enrich E C t) Q.
Proof.
  unfold enrich, fetch_user, fetch_comments.
  apply triple_bind3 with (Q := fun _ => seen T).
  - destruct (truthy (ticket_requester_id t)).
    + apply triple_bind3 with (Q := fun _ => seen T);
        [now apply call_neutral|].
      intros u. apply triple_ret. auto.
    + apply triple_ret. auto.
  - intros email. apply triple_bind3 with (Q := fun _ => seen T);
      [now apply call_neutral|].
    intros cd. apply triple_ret. auto.
Qed.

Lemma for_tickets_neutral ts :
  forall rows last, triple (seen T) (for_tickets E C ts rows last) Q.
Proof.
  induction ts as [|t rest IH]; intros rows last; simpl.
  - apply triple_ret. auto.
  - destruct (in_window C (createdTs E t)); [|apply IH].
    apply triple_bind3 with (Q := fun _ => seen T); [apply enrich_neutral|].
    intros r. apply IH.
Qed.

Lemma log_neutral status cp fetched saved last :
  triple (seen T) (log E C status cp fetched saved last) Q.
Proof.
  unfold log, Sheets.append_Logs. intros w Hw.
  apply (call_neutral _ _ _ T); auto.
Qed.

Lemma share_neutral exportId l : triple (seen T) (share E exportId l) Q.
Proof.
  induction l as [|x l IH]; simpl.
  - apply triple_ret. auto.
  - apply triple_bind3 with (Q := fun _ => seen T); [|intros _; exact IH].
    now apply call_neutral.
Qed.

End Neutral.

Lemma loop_pages fuel :
  forall nextUrl st n,
    (n + fuel = total)%nat ->
    triple (seen (T_head nextUrl n)) (loop E C fuel nextUrl st)
           (post3 (seen T_any) (seen T_fuel)
                  (fun _ => seen (fun p f => f = false /\ T_exit p f))).
Proof.
  induction fuel as [|fuel IH]; intros nextUrl st n Hn; simpl;
    destruct (truthy nextUrl) eqn:Hurl.
  - intros w (evs & Ht & Hf & [(_ & Hp & Hlen)|(Hx & _)]); [|congruence].
    exists evs. split; [exact Ht|]. repeat split; auto. lia.
  - apply triple_ret. intros w (evs & Ht & Hf & [(Hx & _)|(_ & He)]); [congruence|].
    exists evs. auto.
  - apply triple_bind3 with (Q := fun data => seen (T_page data n)).
    { unfold fetch_feed. apply triple_call3; intros w; intros.
      - apply (grown_logged t0 _ _ _ (Threw msg) w w H eq_refl).
        intros evs Hevs. rewrite pages_snoc_threw.
        rewrite finalizing_snoc_other by discriminate.
        now apply T_head_any with (u := nextUrl) (n := n).
      - apply (grown_logged t0 _ _ _ _ w w H eq_refl).
        intros evs (Hf & [(_ & Hp & Hlen)|(Hx & _)]); [|congruence].
        rewrite pages_app. rewrite finalizing_snoc_other by discriminate.
        split; [exact Hf|]. exists (pages evs). auto. }
    intros data.
    apply triple_bind3 with (Q := fun _ => seen (T_page data n)).
    { apply for_tickets_neutral. apply T_page_any. }
    intros [rows last].
    apply triple_bind3 with (Q := fun _ => seen (T_page data n)).
    { destruct rows as [|r rows].
      - apply triple_ret. auto.
      - apply triple_bind3 with (Q := fun _ => seen (T_page data n)).
        + apply call_neutral; auto. apply T_page_any.
        + intros _. apply triple_ret. auto. }
    intros saved.
    apply triple_bind3 with (Q := fun _ => seen (T_page data n)).
    { apply call_neutral; auto. apply T_page_any. }
    intros _.
    apply triple_bind3 with (Q := fun _ => seen (T_page data n)).
    { apply log_neutral. apply T_page_any. }
    intros _. destruct (breaks C data) eqn:Hb.
    + apply triple_ret. intros w (evs & Ht & Hf & old & Hp & Hold & Hlen).
      exists evs. split; [exact Ht|]. split; [exact Hf|].
      exists old, data. repeat split; auto. unfold goes_on. now rewrite Hb.
    + apply triple_conseq
        with (P' := seen (T_head (next_page data) (S n)))
             (Q' := post3 (seen T_any) (seen T_fuel)
                      (fun _ => seen (fun p f => f = false /\ T_exit p f))).
      * apply IH. lia.
      * intros w (evs & Ht & Hf & old & Hp & Hold & Hlen).
        exists evs. split; [exact Ht|]. split; [exact Hf|].
        destruct (truthy (next_page data)) eqn:Hnext.
        -- left. split; [reflexivity|]. rewrite Hp. split.
           ++ apply Forall_app. split; [exact Hold|]. constructor; [|constructor].
              unfold on, goes_on. now rewrite Hb, Hnext.
           ++ rewrite length_app. simpl. lia.
        -- right. split; [reflexivity|]. exists old, data. repeat split; auto.
           unfold goes_on. now rewrite Hb, Hnext.
      * auto.
  - apply triple_ret. intros w (evs & Ht & Hf & [(Hx & _)|(_ & He)]); [congruence|].
    exists evs. auto.
Qed.

Lemma finalize_pages st :
  triple (seen T_exit) (finalize E C st)
         (post3 (seen T_any) (seen T_fuel) (fun _ => seen T_exit)).
Proof.
  unfold finalize, Sheets.get_Raw, Sheets.clear_State, Sheets.clear_Raw.
  apply triple_bind3 with (Q := fun _ => seen T_exit).
  { apply triple_call3; intros w; intros.
    - apply (grown_logged t0 _ _ _ (Threw msg) w w H eq_refl).
      intros evs Hevs. rewrite pages_snoc_threw. now apply T_exit_any.
    - apply (grown_logged t0 _ _ _ _ w w H eq_refl).
      intros evs Hevs. now rewrite pages_snoc_other by discriminate. }
  intros exportId.
  repeat (first
    [ apply log_neutral; apply T_exit_any
    | apply share_neutral; apply T_exit_any
    | apply call_neutral; [reflexivity | reflexivity | apply T_exit_any]
    | apply triple_ret; solve [auto]
    | match goal with |- triple _ (match ?l with [] => _ | _ :: _ => _ end) _ =>
        destruct l end
    | apply triple_bind3 with (Q := fun _ => seen T_exit); [|intro] ]).
Qed.

End Pages.

Lemma first_url_truthy C cp : truthy (str (incremental_url C cp)) = true.
Proof. reflexivity. Qed.

Lemma run_pages E C fuel t0 :
  triple (seen t0 (fun p f => p = [] /\ f = false)) (run E C fuel)
         (post3 (seen t0 (T_any C)) (seen t0 (T_fuel C fuel))
                (fun _ => seen t0 (T_exit C))).
Proof.
  unfold run, Sheets.get_State.
  apply triple_bind3 with (Q := fun _ => seen t0 (fun p f => p = [] /\ f = false)).
  { apply call_neutral; auto. intros p f [-> ->]. split; [constructor | discriminate]. }
  intros rows.
  apply triple_bind3 with (Q := fun _ => seen t0 (fun p f => f = false /\ T_exit C p f)).
  - eapply triple_conseq;
      [apply (loop_pages E C t0 fuel fuel _ _ 0%nat eq_refl) | | intros r w H; exact H].
    intros w (evs & Ht & Hp & Hf). exists evs. split; [exact Ht|]. cbv beta.
    split; [exact Hf|]. left. rewrite first_url_truthy, Hp. repeat split. constructor.
  - intros st. eapply triple_conseq;
      [apply finalize_pages | | intros r w H; exact H].
    intros w (evs & Ht & _ & He). exists evs. split; [exact Ht | exact He].
Qed.

(** ** Runs in which no call fails *)

Lemma ret_never_throws {A} (a : A) : never_throws (ret a).
Proof. intros w msg. discriminate. Qed.

Lemma bind_never_throws {A B} (m : M A) (k : A -> M B) :
  never_throws m -> (forall a, never_throws (k a)) -> never_throws (bind m k).
Proof.
  intros Hm Hk w msg. unfold bind. specialize (Hm w).
  destruct (m w) as [[a|m'|] w1]; simpl in *.
  - apply Hk.
  - now destruct (Hm m').
  - discriminate.
Qed.

Section NoFailure.

Variables (E : Env) (C : Config).
Hypothesis quiet : forall n, fails E n = None.

Lemma call_never_throws {A} rq (serve : nat -> World -> response * A) effect :
  never_throws (call E rq serve effect).
Proof. intros w msg. rewrite call_None by apply quiet. discriminate. Qed.

Lemma enrich_never_throws t : never_throws (enrich E C t).
Proof.
  unfold enrich, fetch_user, fetch_comments.
  apply bind_never_throws.
  - destruct (truthy _); [|apply ret_never_throws].
    apply bind_never_throws; [apply call_never_throws|intros; apply ret_never_throws].
  - intros email. apply bind_never_throws;
      [apply call_never_throws|intros; apply ret_never_throws].
Qed.

Lemma for_tickets_never_throws ts :
  forall rows last, never_throws (for_tickets E C ts rows last).
Proof.
  induction ts as [|t rest IH]; intros rows last; simpl.
  - apply ret_never_throws.
  - destruct (in_window C (createdTs E t)); [|apply IH].
    apply bind_never_throws; [apply enrich_never_throws | intros; apply IH].
Qed.

Lemma log_never_throws status cp fetched saved last :
  never_throws (log E C status cp fetched saved last).
Proof.
  unfold log, Sheets.append_Logs. intros w msg.
  rewrite call_None by apply quiet. discriminate.
Qed.

Lemma loop_never_throws fuel :
  forall nextUrl st, never_throws (loop E C fuel nextUrl st).
Proof.
  induction fuel as [|fuel IH]; intros nextUrl st; simpl;
    (destruct (truthy nextUrl); [|apply ret_never_throws]).
  - intros w msg. discriminate.
  - apply bind_never_throws; [apply call_never_throws|intros data].
    apply bind_never_throws; [apply for_tickets_never_throws|intros [rows last]].
    apply bind_never_throws.
    { destruct rows; [apply ret_never_throws|].
      apply bind_never_throws; [apply call_never_throws|intros; apply ret_never_throws]. }
    intros saved.
    apply bind_never_throws; [apply call_never_throws|intros _].
    apply bind_never_throws; [apply log_never_throws|intros _].
    destruct (breaks C data); [apply ret_never_throws | apply IH].
Qed.

Lemma share_never_throws exportId l : never_throws (share E exportId l).
Proof.
  induction l as [|x l IH]; simpl; [apply ret_never_throws|].
  apply bind_never_throws; [apply call_never_throws | intros; exact IH].
Qed.

Lemma finalize_never_throws st : never_throws (finalize E C st).
Proof.
  unfold finalize, Sheets.get_Raw, Sheets.clear_State, Sheets.clear_Raw.
  repeat (first
    [ apply log_never_throws
    | apply share_never_throws
    | apply call_never_throws
    | apply ret_never_throws
    | match goal with |- never_throws (match ?l with [] => _ | _ :: _ => _ end) =>
        destruct l end
    | apply bind_never_throws; [|intro] ]).
Qed.

Lemma run_never_throws fuel : never_throws (run E C fuel).
Proof.
  unfold run, Sheets.get_State.
  apply bind_never_throws; [apply call_never_throws|intros rows].
  apply bind_never_throws; [apply loop_never_throws | intros; apply finalize_never_throws].
Qed.

End NoFailure.

(** ** A run that returns has finalized *)

Section Finalized.

Variables (E : Env) (C : Config) (t0 : list event).

Let any : World -> Prop := grown t0 (fun _ => True).
Let begun : World -> Prop := grown t0 (fun evs => finalizing evs = true).

Lemma call_any {A} rq (serve : nat -> World -> response * A) effect :
  (forall w, trace (effect w) = trace w) ->
  triple any (call E rq serve effect) (post any (fun _ => any)).
Proof.
  intros Heff. apply triple_call; intros w; intros; simpl.
  - now apply (grown_logged t0 _ _ rq (Threw msg) w w H eq_refl).
  - now apply (grown_logged t0 _ _ rq _ w (effect w) H (Heff w)).
Qed.

Lemma call_begun {A} rq (serve : nat -> World -> response * A) effect :
  (forall w, trace (effect w) = trace w) ->
  triple begun (call E rq serve effect) (post any (fun _ => begun)).
Proof.
  intros Heff. apply triple_call; intros w; intros; simpl.
  - now apply (grown_logged t0 _ _ rq (Threw msg) w w H eq_refl).
  - apply (grown_logged t0 _ _ rq _ w (effect w) H (Heff w)).
    intros evs Hevs. rewrite finalizing_app, Hevs. reflexivity.
Qed.

Lemma enrich_any t : triple any (enrich E C t) (post any (fun _ => any)).
Proof.
  unfold enrich, fetch_user, fetch_comments.
  apply triple_bind with (Q := fun _ => any).
  - destruct (truthy (ticket_requester_id t)).
    + apply triple_bind with (Q := fun _ => any); [now apply call_any|].
      intros u. apply triple_ret. auto.
    + apply triple_ret. auto.
  - intros email. apply triple_bind with (Q := fun _ => any); [now apply call_any|].
    intros cd. apply triple_ret. auto.
Qed.

Lemma for_tickets_any ts :
  forall rows last, triple any (for_tickets E C ts rows last) (post any (fun _ => any)).
Proof.
  induction ts as [|t rest IH]; intros rows last; simpl.
  - apply triple_ret. auto.
  - destruct (in_window C (createdTs E t)); [|apply IH].
    apply triple_bind with (Q := fun _ => any); [apply enrich_any | intros; apply IH].
Qed.

Lemma log_any status cp fetched saved last :
  triple any (log E C status cp fetched saved last) (post any (fun _ => any)).
Proof.
  unfold log, Sheets.append_Logs. intros w Hw. apply call_any; auto.
Qed.

Lemma log_begun status cp fetched saved last :
  triple begun (log E C status cp fetched saved last) (post any (fun _ => begun)).
Proof.
  unfold log, Sheets.append_Logs. intros w Hw. apply call_begun; auto.
Qed.

Lemma loop_any fuel :
  forall nextUrl st, triple any (loop E C fuel nextUrl st) (post any (fun _ => any)).
Proof.
  induction fuel as [|fuel IH]; intros nextUrl st; simpl;
    (destruct (truthy nextUrl); [|apply triple_ret; auto]).
  - intros w Hw. exact Hw.
  - apply triple_bind with (Q := fun _ => any); [now apply call_any|intros data].
    apply triple_bind with (Q := fun _ => any); [apply for_tickets_any|].
    intros [rows last].
    apply triple_bind with (Q := fun _ => any).
    { destruct rows; [apply triple_ret; auto|].
      apply triple_bind with (Q := fun _ => any); [now apply call_any|].
      intros _. apply triple_ret. auto. }
    intros saved.
    apply triple_bind with (Q := fun _ => any); [now apply call_any|intros _].
    apply triple_bind with (Q := fun _ => any); [apply log_any|intros _].
    destruct (breaks C data); [apply triple_ret; auto | apply IH].
Qed.

Lemma share_begun exportId l :
  triple begun (share E exportId l) (post any (fun _ => begun)).
Proof.
  induction l as [|x l IH]; simpl.
  - apply triple_ret. auto.
  - apply triple_bind with (Q := fun _ => begun); [now apply call_begun|].
    intros _. exact IH.
Qed.

Lemma finalize_begun st :
  triple any (finalize E C st) (post any (fun _ => begun)).
Proof.
  unfold finalize, Sheets.get_Raw, Sheets.clear_State, Sheets.clear_Raw.
  apply triple_bind with (Q := fun _ => begun).
  { apply triple_call; intros w; intros; simpl.
    - now apply (grown_logged t0 _ _ _ (Threw msg) w w H eq_refl).
    - apply (grown_logged t0 _ _ _ _ w w H eq_refl).
      intros evs _. rewrite finalizing_app. simpl. apply orb_true_r. }
  intros exportId.
  repeat (first
    [ apply log_begun
    | apply share_begun
    | apply call_begun; reflexivity
    | apply triple_ret; solve [auto]
    | match goal with |- triple _ (match ?l with [] => _ | _ :: _ => _ end) _ =>
        destruct l end
    | apply triple_bind with (Q := fun _ => begun); [|intro] ]).
Qed.

Lemma run_begun fuel : triple any (run E C fuel) (post any (fun _ => begun)).
Proof.
  unfold run, Sheets.get_State.
  apply triple_bind with (Q := fun _ => any); [now apply call_any|intros rows].
  apply triple_bind with (Q := fun _ => any); [apply loop_any|intros st].
  apply finalize_begun.
Qed.

End Finalized.

Lemma goes_on_iff C d :
  goes_on C d = true <->
  truthy (end_of_stream d) = false
  /\ ge (end_time d) (endTimestamp C) = false
  /\ truthy (next_page d) = true.
Proof.
  unfold goes_on, breaks.
  destruct (truthy (end_of_stream d)), (ge (end_time d) (endTimestamp C)),
    (truthy (next_page d)); simpl; intuition discriminate.
Qed.

Lemma stops_iff C d :
  goes_on C d = false <->
  truthy (end_of_stream d) = true
  \/ ge (end_time d) (endTimestamp C) = true
  \/ truthy (next_page d) = false.
Proof.
  unfold goes_on, breaks.
  destruct (truthy (end_of_stream d)), (ge (end_time d) (endTimestamp C)),
    (truthy (next_page d)); simpl; intuition discriminate.
Qed.

(** Finalization starts although the window is not drained in the design's
    sense.  When the only page fetched ends past December while the feed has
    not signalled its end, [export.js] creates the report all the same, and
    so does the batch script.  When the feed runs dry in mid-December
    [export.js] creates the report as well; the batch script, which asks for
    the cursor to have reached the window's end, does not. *)
Lemma finalizes_before_end_of_feed :
  let past := Sample.quiet Sample.past_december Sample.talk in
  let dry := Sample.quiet Sample.dry_in_december Sample.talk in
  let evs := trace (snd (run past Sample.december 3 Sample.empty_world)) in
  let evs_batch := trace (snd (Batch.run past Sample.december 3 Sample.empty_world)) in
  let evs_dry := trace (snd (run dry Sample.december 3 Sample.empty_world)) in
  let evs_dry_batch :=
    trace (snd (Batch.run dry Sample.december 3 Sample.empty_world)) in
  (finalizing evs = true /\ existsb (drained Sample.december) (pages evs) = false)
  /\ (finalizing evs_batch = true
      /\ existsb (drained Sample.december) (pages evs_batch) = false)
  /\ (finalizing evs_dry = true
      /\ existsb (drained Sample.december) (pages evs_dry) = false)
  /\ finalizing evs_dry_batch = false.
Proof. vm_compute. repeat split; reflexivity. Qed.

(** C3 (as [export.js] has it). The loop takes another turn after a page
    exactly when the page does not signal the end of the feed, its end time
    is below the window's end, and it names a next page; so every page but
    the last one fetched is such a page.  Finalization is what follows the
    loop: it is entered only after a page that stops the loop (end of feed,
    or cursor at or past the window's end, or no next page), and a run that
    returns has entered it.  The fuel runs out only if every page fetched
    asked for another turn; and when no call fails the run does not throw. *)
Theorem finalization_follows_the_loop :
  forall (E : Env) (C : Config) (fuel : nat) (w : World),
  exists evs,
    events_since (trace w) (snd (run E C fuel w)) evs
    /\ Forall (fun d => truthy (end_of_stream d) = false
                        /\ ge (end_time d) (endTimestamp C) = false
                        /\ truthy (next_page d) = true)
              (removelast (pages evs))
    /\ (finalizing evs = true ->
        exists old d,
          pages evs = (old ++ [d])%list
          /\ (truthy (end_of_stream d) = true
              \/ ge (end_time d) (endTimestamp C) = true
              \/ truthy (next_page d) = false))
    /\ (fst (run E C fuel w) = OutOfFuel ->
        Forall (fun d => goes_on C d = true) (pages evs)
        /\ List.length (pages evs) = fuel)
    /\ (forall a, fst (run E C fuel w) = Ok a -> finalizing evs = true)
    /\ ((forall n, fails E n = None) ->
        forall msg, fst (run E C fuel w) <> Throw msg).
Proof.
  intros E C fuel w.
  assert (Hstart : seen (trace w) (fun p f => p = [] /\ f = false) w)
    by (apply grown_start; split; reflexivity).
  pose proof (run_pages E C fuel (trace w) w Hstart) as Hp.
  pose proof (run_begun E C (trace w) fuel w (grown_start _ w Logic.I)) as Hb.
  assert (Hany : seen (trace w) (T_any C) (snd (run E C fuel w))).
  { destruct (run E C fuel w) as [[a|msg|] w1]; simpl in *; auto.
    - destruct Hp as (evs & Ht & He). exists evs. split; [exact Ht|].
      now apply T_exit_any.
    - destruct Hp as (evs & Ht & Hf & Hl & Hz). exists evs. split; [exact Ht|].
      split; [now apply Forall_removelast | congruence]. }
  destruct Hany as (evs & Ht & Hrl & Hfin). exists evs. split; [exact Ht|].
  split; [|split; [|split; [|split]]].
  - eapply Forall_impl; [|exact Hrl]. intros d. apply goes_on_iff.
  - intros Hf. destruct (Hfin Hf) as (old & d & Hpg & Hd).
    exists old, d. split; [exact Hpg|]. now apply stops_iff.
  - intros Hr. destruct (run E C fuel w) as [[a|msg|] w1]; try discriminate.
    simpl in *. destruct Hp as (evs' & Ht' & Hf & Hl & _).
    rewrite Ht in Ht'. apply app_inv_head in Ht'. subst evs'. auto.
  - intros a Hr. destruct (run E C fuel w) as [[a'|msg|] w1]; try discriminate.
    simpl in *. destruct Hb as (evs' & Ht' & Hf).
    rewrite Ht in Ht'. apply app_inv_head in Ht'. now subst evs'.
  - intros Hq msg. apply run_never_throws. exact Hq.
Qed.

(** ** Reading back a number written in decimal *)

Lemma of_uint_acc_val d : forall acc,
  Z.pos (Pos.of_uint_acc d acc) = uint_val d (Z.pos acc).
Proof.
  induction d; intros acc; cbn [Pos.of_uint_acc uint_val]; try reflexivity;
    rewrite IHd; f_equal; lia.
Qed.

Lemma of_uint_val d : Z.of_uint d = uint_val d 0.
Proof.
  unfold Z.of_uint.
  induction d; simpl; try reflexivity; try exact IHd;
    rewrite of_uint_acc_val; reflexivity.
Qed.

Lemma read_digits_uint d : forall acc,
  read_digits 10 (NilEmpty.string_of_uint d) acc
  = match d with
    | Decimal.Nil => acc
    | _ => Some (uint_val d (match acc with Some a => a | None => 0 end))
    end.
Proof.
  induction d; intros acc; [reflexivity|..];
    cbn [NilEmpty.string_of_uint read_digits];
    match goal with |- context [digit_val ?c] =>
      let v := eval vm_compute in (digit_val c) in
      change (digit_val c) with v end;
    cbv beta iota;
    match goal with |- context [?k <? 10] =>
      change (k <? 10) with true end;
    cbv beta iota; rewrite IHd;
    destruct d; cbn [uint_val]; rewrite ?Z.add_0_r; reflexivity.
Qed.

(** A string that begins with an ASCII character other than white space
    is stripped of nothing. *)
Lemma skip_spaces_plain c s :
  is_space c = false -> (nat_of_ascii c < 128)%nat ->
  skip_spaces (String c s) = String c s.
Proof.
  intros Hc Hn. unfold skip_spaces. cbn [skip_spaces_from]. rewrite Hc.
  destruct s as [|c2 s2]; [reflexivity|].
  replace (is_space2 c c2) with false
    by (unfold is_space2; destruct (Nat.eqb_spec (nat_of_ascii c) 194);
        [lia | reflexivity]).
  destruct s2 as [|c3 s3]; [reflexivity|].
  replace (is_space3 c c2 c3) with false; [reflexivity|].
  unfold is_space3.
  repeat match goal with
         | |- context [(nat_of_ascii c =? ?k)%nat] =>
             destruct (Nat.eqb_spec (nat_of_ascii c) k); [lia|]
         end.
  reflexivity.
Qed.

Lemma digits_no_prefix d :
  skip_spaces (NilEmpty.string_of_uint d) = NilEmpty.string_of_uint d
  /\ strip_sign (NilEmpty.string_of_uint d) = (1, NilEmpty.string_of_uint d)
  /\ strip_hex_prefix (NilEmpty.string_of_uint d) = (10, NilEmpty.string_of_uint d).
Proof.
  split; [|split].
  - destruct d; [reflexivity|..]; cbn [NilEmpty.string_of_uint];
      (apply skip_spaces_plain; [reflexivity | cbn; lia]).
  - destruct d; reflexivity.
  - destruct d; try reflexivity. destruct d; reflexivity.
Qed.

Lemma parse_digits d :
  d <> Decimal.Nil ->
  (let (radix, s2) := strip_hex_prefix (NilEmpty.string_of_uint d) in
   read_digits radix s2 None) = Some (Z.of_uint d).
Proof.
  intros Hd. destruct (digits_no_prefix d) as (_ & _ & ->).
  rewrite read_digits_uint, of_uint_val. destruct d; [contradiction|..]; reflexivity.
Qed.

Lemma string_of_uint_nonnil d :
  d <> Decimal.Nil -> NilZero.string_of_uint d = NilEmpty.string_of_uint d.
Proof. destruct d; [contradiction|..]; reflexivity. Qed.

Lemma parseInt_string_of_Z z : parseInt_string (string_of_Z z) = Some z.
Proof.
  unfold string_of_Z. destruct z as [|p|p]; [reflexivity|..];
    pose proof (Unsigned.to_uint_nonnil p) as Hd;
    pose proof (Unsigned.of_to p) as Hp;
    cbn [Z.to_int NilZero.string_of_int];
    rewrite (string_of_uint_nonnil _ Hd); unfold parseInt_string.
  - destruct (digits_no_prefix (Pos.to_uint p)) as (-> & -> & _).
    pose proof (parse_digits _ Hd) as H.
    destruct (strip_hex_prefix _) as [radix s2]. rewrite H.
    unfold Z.of_uint. rewrite Hp. reflexivity.
  - rewrite skip_spaces_plain by (reflexivity || (cbn; lia)).
    change (strip_sign (String "-" (NilEmpty.string_of_uint (Pos.to_uint p))))
      with (-1, NilEmpty.string_of_uint (Pos.to_uint p)).
    cbv beta iota.
    pose proof (parse_digits _ Hd) as H.
    destruct (strip_hex_prefix _) as [radix s2]. rewrite H.
    unfold Z.of_uint. rewrite Hp. reflexivity.
Qed.

(** ** Reading the checkpoint back *)

Lemma read_checkpoint_cons r rows cp :
  read_checkpoint (r :: rows) cp
  = read_checkpoint rows (if has_key r then parseInt (nth_error r 1) else cp).
Proof.
  unfold read_checkpoint, has_key. cbn [fold_left].
  destruct (nth_error r 0) as [k|]; reflexivity.
Qed.

Lemma read_checkpoint_keyless rows cp :
  forallb (fun r => negb (has_key r)) rows = true -> read_checkpoint rows cp = cp.
Proof.
  induction rows as [|r rows IH]; intros H; [reflexivity|].
  simpl in H. apply andb_prop in H. destruct H as [Hr Hrows].
  rewrite read_checkpoint_cons. apply negb_true_iff in Hr. rewrite Hr. now apply IH.
Qed.

Lemma tidy_put_row2 r rows : tidy rows = true -> tidy (Sheets.put_row2 r rows) = true.
Proof.
  unfold tidy. destruct rows as [|h [|x t]]; simpl; auto.
Qed.

Lemma tidy_write cp rows :
  tidy rows = true -> tidy (Sheets.write_checkpoint cp rows) = true.
Proof. destruct cp; apply tidy_put_row2. Qed.

Lemma read_after_put_row2 c rows cp :
  tidy rows = true ->
  read_checkpoint (Sheets.put_row2 ["checkpoint"; string_of_Z c] rows) cp = Some c.
Proof.
  unfold tidy. intros H. apply andb_prop in H. destruct H as [Hh Ht].
  apply negb_true_iff in Hh.
  destruct rows as [|h [|x t]]; cbn [Sheets.put_row2];
    rewrite !read_checkpoint_cons; simpl in Hh; try rewrite Hh;
    change (has_key ["checkpoint"; string_of_Z c]) with true; cbv iota;
    cbn [nth_error parseInt]; rewrite parseInt_string_of_Z.
  - reflexivity.
  - reflexivity.
  - simpl in Ht. now apply read_checkpoint_keyless.
Qed.

Lemma read_after_write c rows cp :
  tidy rows = true ->
  read_checkpoint (Sheets.write_checkpoint (Some c) rows) cp = Some c.
Proof. apply read_after_put_row2. Qed.

Lemma read_fresh rows cp :
  forallb (fun r => negb (has_key r)) rows = true -> read_checkpoint rows cp = cp.
Proof. apply read_checkpoint_keyless. Qed.

(** ** Properties of the trace that later calls cannot undo *)

Section Closed.

Variables (E : Env) (C : Config) (t0 : list event).
Variable S : list event -> Prop.
Hypothesis S_snoc : forall evs ev, S evs -> S (evs ++ [ev])%list.

Let I : World -> Prop := grown t0 S.

Lemma call_closed {A} rq (serve : nat -> World -> response * A) effect :
  (forall w, trace (effect w) = trace w) ->
  triple I (call E rq serve effect) (post I (fun _ => I)).
Proof.
  intros Heff. apply triple_call; intros w; intros; simpl.
  - apply (grown_logged t0 _ _ rq (Threw msg) w w H eq_refl). auto.
  - apply (grown_logged t0 _ _ rq _ w (effect w) H (Heff w)). auto.
Qed.

Lemma enrich_closed t : triple I (enrich E C t) (post I (fun _ => I)).
Proof.
  unfold enrich, fetch_user, fetch_comments.
  apply triple_bind with (Q := fun _ => I).
  - destruct (truthy (ticket_requester_id t)).
    + apply triple_bind with (Q := fun _ => I); [now apply call_closed|].
      intros u. apply triple_ret. auto.
    + apply triple_ret. auto.
  - intros email. apply triple_bind with (Q := fun _ => I); [now apply call_closed|].
    intros cd. apply triple_ret. auto.
Qed.

Lemma for_tickets_closed ts :
  forall rows last, triple I (for_tickets E C ts rows last) (post I (fun _ => I)).
Proof.
  induction ts as [|t rest IH]; intros rows last; simpl.
  - apply triple_ret. auto.
  - destruct (in_window C (createdTs E t)); [|apply IH].
    apply triple_bind with (Q := fun _ => I); [apply enrich_closed | intros; apply IH].
Qed.

Lemma log_closed status cp fetched saved last :
  triple I (log E C status cp fetched saved last) (post I (fun _ => I)).
Proof.
  unfold log, Sheets.append_Logs. intros w Hw. apply call_closed; auto.
Qed.

(** The turn of the loop after its page has been fetched. *)
Lemma loop_closed fuel :
  forall nextUrl st, triple I (loop E C fuel nextUrl st) (post I (fun _ => I)).
Proof.
  induction fuel as [|fuel IH]; intros nextUrl st; simpl;
    (destruct (truthy nextUrl); [|apply triple_ret; auto]).
  - intros w Hw. exact Hw.
  - apply triple_bind with (Q := fun _ => I); [now apply call_closed|intros data].
    apply triple_bind with (Q := fun _ => I); [apply for_tickets_closed|].
    intros [rows last].
    apply triple_bind with (Q := fun _ => I).
    { destruct rows; [apply triple_ret; auto|].
      apply triple_bind with (Q := fun _ => I); [now apply call_closed|].
      intros _. apply triple_ret. auto. }
    intros saved.
    apply triple_bind with (Q := fun _ => I); [now apply call_closed|intros _].
    apply triple_bind with (Q := fun _ => I); [apply log_closed|intros _].
    destruct (breaks C data); [apply triple_ret; auto | apply IH].
Qed.

Lemma share_closed exportId l :
  triple I (share E exportId l) (post I (fun _ => I)).
Proof.
  induction l as [|x l IH]; simpl.
  - apply triple_ret. auto.
  - apply triple_bind with (Q := fun _ => I); [now apply call_closed|].
    intros _. exact IH.
Qed.

Lemma finalize_closed st : triple I (finalize E C st) (post I (fun _ => I)).
Proof.
  unfold finalize, Sheets.get_Raw, Sheets.clear_State, Sheets.clear_Raw.
  repeat (first
    [ apply log_closed
    | apply share_closed
    | apply call_closed; reflexivity
    | apply triple_ret; solve [auto]
    | match goal with |- triple _ (match ?l with [] => _ | _ :: _ => _ end) _ =>
        destruct l end
    | apply triple_bind with (Q := fun _ => I); [|intro] ]).
Qed.

End Closed.

(** ** Where a run starts *)

Lemma post_same {A} (I : World -> Prop) (r : result A) w :
  post I (fun _ => I) r w -> I w.
Proof. destruct r; auto. Qed.

(** The first two calls of a run: the read of [State], and the request of
    the page at the cursor read there. *)
Lemma run_first_page E C fuel w :
  fails E (List.length (trace w)) = None ->
  grown (trace w)
        (fun evs =>
           exists rs rest,
             evs = (GetState, GotState (State w))
                   :: (FetchFeed
                         (str (incremental_url C
                                 (read_checkpoint (State w) (startTimestamp C))))
                         (read_checkpoint (State w) (startTimestamp C)), rs)
                   :: rest)
        (snd (run E C (S fuel) w)).
Proof.
  intros F0. unfold run, Sheets.get_State.
  erewrite bind_Ok by (apply call_None; exact F0).
  cbv beta zeta. simpl fst. simpl snd.
  set (cp := read_checkpoint (State w) (startTimestamp C)).
  set (url := str (incremental_url C cp)).
  set (w1 := logged GetState (GotState (State w)) w).
  set (S := fun evs : list event =>
              exists rs rest,
                evs = (GetState, GotState (State w)) :: (FetchFeed url cp, rs) :: rest).
  assert (Hs : forall evs ev, S evs -> S (evs ++ [ev])%list).
  { intros evs ev (rs & rest & ->). now exists rs, (rest ++ [ev])%list. }
  assert (H1 : grown (trace w) (fun evs => evs = [(GetState, GotState (State w))]) w1)
    by (exists [(GetState, GotState (State w))]; split; reflexivity).
  set (I := grown (trace w) S).
  apply post_same with (r := fst (bind (loop E C (Datatypes.S fuel) url
                                          (mkLocals cp 0 0 null))
                                    (fun st => finalize E C st) w1)).
  apply (triple_bind _ _ (grown (trace w)
                            (fun evs => evs = [(GetState, GotState (State w))]))
           I (fun _ => I) (fun _ => I)); [| | exact H1].
  - cbn [loop]. unfold url at 1. rewrite first_url_truthy. fold url.
    apply triple_bind with (Q := fun _ => I).
    { unfold fetch_feed. apply triple_call; intros w'; intros; simpl.
      - apply (grown_logged (trace w) _ _ _ (Threw msg) w' w' H eq_refl).
        intros evs ->. now exists (Threw msg), [].
      - apply (grown_logged (trace w) _ _ _ _ w' w' H eq_refl).
        intros evs ->. eexists _, []. reflexivity. }
    intros data.
    apply triple_bind with (Q := fun _ => I); [now apply for_tickets_closed|].
    intros [rows last].
    apply triple_bind with (Q := fun _ => I).
    { destruct rows; [apply triple_ret; auto|].
      apply triple_bind with (Q := fun _ => I); [now apply call_closed|].
      intros _. apply triple_ret. auto. }
    intros saved.
    apply triple_bind with (Q := fun _ => I); [now apply call_closed|intros _].
    apply triple_bind with (Q := fun _ => I); [now apply log_closed|intros _].
    destruct (breaks C data); [apply triple_ret; auto | now apply loop_closed].
  - intros st. now apply finalize_closed.
Qed.

(** The checkpoint has no window in its key.  A November run dies just
    after committing its first cursor; the December run that follows asks
    the feed to go on from November's cursor, not from 1 December. *)
Lemma december_adopts_november_cursor :
  let E := Sample.dies_after_commit in
  let w1 := snd (main E Sample.november 5 Sample.empty_world) in
  let w2 := snd (main E Sample.december 5 w1) in
  monthStr Sample.november <> monthStr Sample.december
  /\ State w1 = [[]; ["checkpoint"; "1762000000"]]
  /\ first_cursor (skipn (List.length (trace w1)) (trace w2)) = Some (Some 1762000000)
  /\ startTimestamp Sample.december = Some 1764547200.
Proof.
  vm_compute. repeat split; try reflexivity. discriminate.
Qed.

(** C4 (as the code has it). The checkpoint is kept in the second row of
    [State] under the constant key "checkpoint"; the window takes no part in
    writing or in finding it.  Whatever window a run exports: in a region
    in which only the second row may carry the key, a cursor written there
    is the cursor read back; only when no row carries the key is the
    window's own start read; and the run asks its first page from the
    cursor it read, the address it requests being the feed's with that
    cursor as [start_time]. *)
Theorem checkpoint_key_ignores_the_window :
  forall (E : Env) (C : Config) (fuel : nat) (w : World),
    (forall c rows,
        tidy rows = true ->
        read_checkpoint (Sheets.write_checkpoint (Some c) rows) (startTimestamp C)
        = Some c)
    /\ (forall rows,
          forallb (fun r => negb (has_key r)) rows = true ->
          read_checkpoint rows (startTimestamp C) = startTimestamp C)
    /\ (fails E (List.length (trace w)) = None ->
        exists rs rest,
          events_since (trace w) (snd (run E C (S fuel) w))
            ((GetState, GotState (State w))
             :: (FetchFeed
                   (str (host C ++ "/api/v2/incremental/tickets.json?start_time="
                           ++ string_of_num
                                (read_checkpoint (State w) (startTimestamp C))))
                   (read_checkpoint (State w) (startTimestamp C)), rs)
             :: rest)).
Proof.
  intros E C fuel w. split; [|split].
  - intros c rows. apply read_after_write.
  - intros rows. apply read_fresh.
  - intros F0. destruct (run_first_page E C fuel w F0) as (evs & Ht & rs & rest & ->).
    now exists rs, rest.
Qed.

(** ** Commits never go back *)

Lemma StronglySorted_snoc (l : list Z) (x : Z) :
  StronglySorted Z.le l -> Forall (fun y => y <= x) l ->
  StronglySorted Z.le (l ++ [x]).
Proof.
  induction 1 as [|y l Hl IH Hy]; intros Hx; simpl.
  - constructor; constructor.
  - inversion Hx; subst. constructor; [now apply IH|].
    apply Forall_app. split; [exact Hy | now constructor].
Qed.

Lemma commits_app evs evs' : commits (evs ++ evs') = (commits evs ++ commits evs')%list.
Proof. unfold commits. apply flat_map_app. Qed.

Lemma good_snoc evs ev :
  good (evs ++ [ev]) = true ->
  good evs = true /\ honours_contract ev = true /\ is_clear ev = false.
Proof.
  unfold good, cleared. rewrite forallb_app, existsb_app. simpl.
  rewrite andb_true_r, orb_false_r. intros H.
  apply andb_prop in H. destruct H as [H1 H2].
  apply andb_prop in H1. destruct H1 as [H1 H3].
  apply negb_true_iff in H2. apply orb_false_elim in H2. destruct H2 as [H2 H4].
  rewrite H1, H2. auto.
Qed.

Lemma commits_snoc_idle evs rq rs :
  (forall c, rq <> UpdateState c) -> commits (evs ++ [(rq, rs)]) = commits evs.
Proof.
  intros H. rewrite commits_app. simpl. destruct rq; try (now rewrite app_nil_r).
  exfalso. eapply H. reflexivity.
Qed.

Lemma commits_snoc_threw evs rq msg : commits (evs ++ [(rq, Threw msg)]) = commits evs.
Proof.
  rewrite commits_app. simpl.
  destruct rq; try (now rewrite app_nil_r).
  match goal with |- context [match ?c with Some _ => _ | None => _ end] =>
    destruct c end; now rewrite app_nil_r.
Qed.

Section Monotone.

Variables (E : Env) (C : Config) (t0 : list event) (s : Z).
Hypothesis Hstart : startTimestamp C = Some s.

Local Abbreviation guarded := (Invariants.guarded t0).
Local Abbreviation stored := (Invariants.stored s).
Local Abbreviation Y_rest := (Invariants.Y_rest s).
Local Abbreviation Y_head := (Invariants.Y_head s).
Local Abbreviation Y_page := (Invariants.Y_page s).

Lemma Y_head_rest cp rows cs : Y_head cp rows cs -> Y_rest rows cs.
Proof. intros (hi & _ & H). now exists hi. Qed.

Lemma Y_page_rest cp d rows cs : Y_page cp d rows cs -> Y_rest rows cs.
Proof. intros (hi & e & _ & H & _). now exists hi. Qed.

Lemma call_idle {A} rq (serve : nat -> World -> response * A) effect Y :
  idle rq = true ->
  (forall w, trace (effect w) = trace w) ->
  (forall w, State (effect w) = State w) ->
  (forall rows cs, Y rows cs -> Y_rest rows cs) ->
  triple (guarded Y) (call E rq serve effect)
         (post (guarded Y_rest) (fun _ => guarded Y)).
Proof.
  intros Hi Ht Hs HY. apply triple_call;
    [intros w msg (evs & Hw & Hg) Hf | intros w (evs & Hw & Hg) Hf]; simpl.
  - exists (evs ++ [(rq, Threw msg)])%list. split.
    + simpl. now rewrite Hw, app_assoc.
    + intros Hgood. apply good_snoc in Hgood. destruct Hgood as (Hgood & _ & _).
      rewrite commits_snoc_threw. simpl. apply HY. auto.
  - exists (evs ++ [(rq, fst (serve (List.length (trace w)) w))])%list. split.
    + simpl. now rewrite Ht, Hw, app_assoc.
    + intros Hgood. apply good_snoc in Hgood. destruct Hgood as (Hgood & _ & _).
      rewrite commits_snoc_idle by (intros c ->; discriminate).
      simpl. rewrite Hs. auto.
Qed.

Section Idle.

Variable Y : state_rows -> list Z -> Prop.
Hypothesis HY : forall rows cs, Y rows cs -> Y_rest rows cs.

Lemma enrich_idle t :
  triple (guarded Y) (enrich E C t) (post (guarded Y_rest) (fun _ => guarded Y)).
Proof.
  unfold enrich, fetch_user, fetch_comments.
  apply triple_bind with (Q := fun _ => guarded Y).
  - destruct (truthy (ticket_requester_id t)).
    + apply triple_bind with (Q := fun _ => guarded Y); [now apply call_idle|].
      intros u. apply triple_ret. auto.
    + apply triple_ret. auto.
  - intros email.
    apply triple_bind with (Q := fun _ => guarded Y); [now apply call_idle|].
    intros cd. apply triple_ret. auto.
Qed.

Lemma for_tickets_idle ts :
  forall rows last,
    triple (guarded Y) (for_tickets E C ts rows last)
           (post (guarded Y_rest) (fun _ => guarded Y)).
Proof.
  induction ts as [|t rest IH]; intros rows last; simpl.
  - apply triple_ret. auto.
  - destruct (in_window C (createdTs E t)); [|apply IH].
    apply triple_bind with (Q := fun _ => guarded Y);
      [apply enrich_idle | intros; apply IH].
Qed.

Lemma log_idle status cp fetched saved last :
  triple (guarded Y) (log E C status cp fetched saved last)
         (post (guarded Y_rest) (fun _ => guarded Y)).
Proof.
  unfold log, Sheets.append_Logs. intros w Hw. apply call_idle; auto.
Qed.

Lemma share_idle exportId l :
  triple (guarded Y) (share E exportId l)
         (post (guarded Y_rest) (fun _ => guarded Y)).
Proof.
  induction l as [|x l IH]; simpl.
  - apply triple_ret. auto.
  - apply triple_bind with (Q := fun _ => guarded Y); [now apply call_idle|].
    intros _. exact IH.
Qed.

End Idle.

Lemma fetch_feed_contract nextUrl cp :
  triple (guarded (Y_head cp)) (fetch_feed E nextUrl cp)
         (post (guarded Y_rest) (fun data => guarded (Y_page cp data))).
Proof.
  unfold fetch_feed. apply triple_call;
    [intros w msg (evs & Hw & Hg) Hf | intros w (evs & Hw & Hg) Hf]; simpl.
  - eexists. split; [simpl; now rewrite Hw, app_assoc|].
    intros Hgood. apply good_snoc in Hgood. destruct Hgood as (Hgood & _ & _).
    rewrite commits_snoc_threw. simpl. eapply Y_head_rest. eauto.
  - eexists. split; [simpl; now rewrite Hw, app_assoc|].
    intros Hgood. apply good_snoc in Hgood. destruct Hgood as (Hgood & Hc & _).
    rewrite commits_snoc_idle by discriminate. simpl.
    destruct (Hg Hgood) as (hi & -> & Hst).
    simpl in Hc. destruct (end_time (feed E _ nextUrl)) as [e|] eqn:He;
      [|discriminate].
    rewrite <- Hw in He. apply Z.leb_le in Hc.
    exists hi, e. repeat split; auto; apply Hst.
Qed.

Lemma update_State_commits cp d :
  triple (guarded (Y_page cp d)) (Sheets.update_State E (end_time d))
         (post (guarded Y_rest) (fun _ => guarded (Y_head (end_time d)))).
Proof.
  unfold Sheets.update_State. apply triple_call;
    [intros w msg (evs & Hw & Hg) Hf | intros w (evs & Hw & Hg) Hf]; simpl.
  - eexists. split; [simpl; now rewrite Hw, app_assoc|].
    intros Hgood. apply good_snoc in Hgood. destruct Hgood as (Hgood & _ & _).
    rewrite commits_snoc_threw. simpl. eapply Y_page_rest. eauto.
  - eexists. split; [simpl; now rewrite Hw, app_assoc|].
    intros Hgood. apply good_snoc in Hgood. destruct Hgood as (Hgood & _ & _).
    destruct (Hg Hgood) as (hi & e & -> & (Ht & Hr & Hle & Hall & Hsort) & He & Hhe).
    rewrite He. rewrite commits_app. simpl.
    exists e. split; [reflexivity|]. repeat split.
    + now apply tidy_put_row2.
    + now apply read_after_put_row2.
    + lia.
    + apply Forall_app. split.
      * eapply Forall_impl; [|exact Hall]. simpl. intros; lia.
      * constructor; [lia | constructor].
    + apply StronglySorted_snoc; [exact Hsort|].
      eapply Forall_impl; [|exact Hall]. simpl. intros; lia.
Qed.

Lemma loop_commits fuel :
  forall nextUrl st,
    triple (guarded (Y_head (checkpoint st))) (loop E C fuel nextUrl st)
           (post (guarded Y_rest) (fun _ => guarded Y_rest)).
Proof.
  induction fuel as [|fuel IH]; intros nextUrl st; simpl;
    (destruct (truthy nextUrl);
     [|apply triple_ret; intros w (evs & Hw & Hg); exists evs; split; auto;
       intros Hgood; eapply Y_head_rest; eauto]).
  - intros w (evs & Hw & Hg). exists evs. split; auto.
    intros Hgood. eapply Y_head_rest; eauto.
  - apply triple_bind with (Q := fun data => guarded (Y_page (checkpoint st) data));
      [apply fetch_feed_contract|].
    intros data.
    apply triple_bind with (Q := fun _ => guarded (Y_page (checkpoint st) data)).
    { apply for_tickets_idle. apply Y_page_rest. }
    intros [rows last].
    apply triple_bind with (Q := fun _ => guarded (Y_page (checkpoint st) data)).
    { destruct rows; [apply triple_ret; auto|].
      apply triple_bind with (Q := fun _ => guarded (Y_page (checkpoint st) data)).
      - apply call_idle; auto. apply Y_page_rest.
      - intros _. apply triple_ret. auto. }
    intros saved.
    apply triple_bind with (Q := fun _ => guarded (Y_head (end_time data)));
      [apply update_State_commits|].
    intros _.
    apply triple_bind with (Q := fun _ => guarded (Y_head (end_time data))).
    { apply log_idle. apply Y_head_rest. }
    intros _. destruct (breaks C data).
    + apply triple_ret. intros w (evs & Hw & Hg). exists evs. split; auto.
      intros Hgood. eapply Y_head_rest; eauto.
    + apply (IH (next_page data)
                (mkLocals (end_time data)
                          (totalFetched st + List.length (page_tickets data))
                          saved last)).
Qed.

Lemma clear_State_commits :
  triple (guarded Y_rest) (Sheets.clear_State E)
         (post (guarded Y_rest) (fun _ => guarded Y_rest)).
Proof.
  unfold Sheets.clear_State. apply triple_call;
    [intros w msg (evs & Hw & Hg) Hf | intros w (evs & Hw & Hg) Hf]; simpl.
  - eexists. split; [simpl; now rewrite Hw, app_assoc|].
    intros Hgood. apply good_snoc in Hgood. destruct Hgood as (Hgood & _ & _).
    rewrite commits_snoc_threw. simpl. auto.
  - eexists. split; [simpl; now rewrite Hw, app_assoc|].
    intros Hgood. apply good_snoc in Hgood. destruct Hgood as (_ & _ & Hc).
    discriminate.
Qed.

Lemma finalize_commits st :
  triple (guarded Y_rest) (finalize E C st)
         (post (guarded Y_rest) (fun _ => guarded Y_rest)).
Proof.
  unfold finalize, Sheets.get_Raw, Sheets.clear_Raw.
  repeat (first
    [ apply log_idle; solve [auto]
    | apply share_idle; solve [auto]
    | apply clear_State_commits
    | apply call_idle; [reflexivity | reflexivity | reflexivity | solve [auto]]
    | apply triple_ret; solve [auto]
    | match goal with |- triple _ (match ?l with [] => _ | _ :: _ => _ end) _ =>
        destruct l end
    | apply triple_bind with (Q := fun _ => guarded Y_rest); [|intro] ]).
Qed.

Lemma run_commits fuel :
  triple (guarded Y_rest) (run E C fuel)
         (post (guarded Y_rest) (fun _ => guarded Y_rest)).
Proof.
  unfold run.
  apply triple_bind
    with (Q := fun rows => guarded (Y_head (read_checkpoint rows (startTimestamp C)))).
  - unfold Sheets.get_State. apply triple_call;
    [intros w msg (evs & Hw & Hg) Hf | intros w (evs & Hw & Hg) Hf]; simpl.
    + eexists. split; [simpl; now rewrite Hw, app_assoc|].
      intros Hgood. apply good_snoc in Hgood. destruct Hgood as (Hgood & _ & _).
      rewrite commits_snoc_threw. simpl. auto.
    + eexists. split; [simpl; now rewrite Hw, app_assoc|].
      intros Hgood. apply good_snoc in Hgood. destruct Hgood as (Hgood & _ & _).
      rewrite commits_snoc_idle by discriminate. simpl.
      destruct (Hg Hgood) as (hi & Hst). exists hi. split; [|exact Hst].
      rewrite Hstart. apply Hst.
  - intros rows.
    apply triple_bind with (Q := fun _ => guarded Y_rest).
    + apply (loop_commits fuel _
               (mkLocals (read_checkpoint rows (startTimestamp C)) 0 0 null)).
    + intros st. apply finalize_commits.
Qed.

Lemma main_commits fuel w : guarded Y_rest w -> guarded Y_rest (snd (main E C fuel w)).
Proof.
  intros Hw. unfold main. destruct (negb _); [exact Hw|].
  pose proof (run_commits fuel w Hw) as Hr.
  destruct (run E C fuel w) as [[[]|msg|] w1]; simpl in *; auto.
  apply post_same
    with (r := fst (log E C ("ERROR: " ++ msg) (str "UNKNOWN") 0 0 (str "FAIL") w1)).
  apply log_idle; auto.
Qed.

Lemma reinvoke_commits fuels :
  forall w, guarded Y_rest w -> guarded Y_rest (reinvoke E C fuels w).
Proof.
  induction fuels as [|fuel rest IH]; intros w Hw; simpl; [exact Hw|].
  apply IH. now apply main_commits.
Qed.

End Monotone.

(** Run to completion and started again for the same month, the program
    commits a cursor below one it committed before: finalization cleared the
    checkpoint, and the second run starts over from the window's start.
    Every page honoured the paginator contract. *)
Lemma rerun_after_completion_goes_back :
  let evs := trace (reinvoke Sample.two_pages Sample.december [5; 5]%nat
                             Sample.empty_world) in
  forallb honours_contract evs = true
  /\ ~ StronglySorted Z.le (commits evs).
Proof.
  intros evs. split; [vm_compute; reflexivity|].
  assert (Hcs : commits evs = [1764550000; 1764560000; 1764550000; 1764560000])
    by (vm_compute; reflexivity).
  rewrite Hcs. intros H.
  inversion H as [|a l Hl Ha]; subst.
  inversion Hl as [|b l' Hl' Hb]; subst.
  inversion Hb as [|c l'' Hc _]; subst. lia.
Qed.

(** C5 (within one export). Start the program any number of times for the
    same window on a [State] region whose checkpoint, if it holds one, is at
    or above the window's start.  If every page fetched honoured the
    paginator contract ([end_time] at or above the cursor it was asked
    from), then up to the finalization that clears the checkpoint the
    cursors committed never go back and none is below the window's start. *)
Theorem commits_never_go_back :
  forall (E : Env) (C : Config) (fuels : list nat) (w : World) (s c0 : Z),
    startTimestamp C = Some s ->
    tidy (State w) = true ->
    read_checkpoint (State w) (Some s) = Some c0 ->
    s <= c0 ->
    exists evs,
      events_since (trace w) (reinvoke E C fuels w) evs
      /\ (forallb honours_contract evs = true ->
          cleared evs = false ->
          StronglySorted Z.le (commits evs)
          /\ Forall (fun c => s <= c) (commits evs)).
Proof.
  intros E C fuels w s c0 Hs Ht Hr Hle.
  destruct (reinvoke_commits E C (trace w) s Hs fuels w) as (evs & Hev & Hg).
  - exists []. split; [now rewrite app_nil_r|].
    intros _. exists c0. repeat split; auto; constructor.
  - exists evs. split; [exact Hev|]. intros Hc Hcl.
    destruct Hg as (hi & _ & _ & _ & Hall & Hsort).
    + unfold good. now rewrite Hc, Hcl.
    + split; [exact Hsort|]. eapply Forall_impl; [|exact Hall]. simpl. intros; lia.
Qed.

(** Witness for C5: November's run dies after its first commit and is
    started again; it resumes from the committed cursor and never goes
    below it. *)
Lemma commits_never_go_back_witness :
  exists evs,
    events_since [] (reinvoke Sample.dies_after_commit Sample.november [5; 3]%nat
                              Sample.empty_world) evs
    /\ StronglySorted Z.le (commits evs)
    /\ Forall (fun c => 1761955200 <= c) (commits evs).
Proof.
  destruct (commits_never_go_back Sample.dies_after_commit Sample.november
              [5; 3]%nat Sample.empty_world 1761955200 1761955200
              eq_refl eq_refl eq_refl (Z.le_refl _)) as (evs & Hev & H).
  exists evs. split; [exact Hev|].
  unfold events_since in Hev. simpl app in Hev. subst evs.
  apply H; reflexivity.
Defined.

(** ** Starting again past the window's end *)

Lemma past_cursor_not_in_window E C c e ts :
  endTimestamp C = Some e -> e <= c ->
  Forall (fun t => forall x, createdTs E t = Some x -> c <= x) ts ->
  Forall (fun t => in_window C (createdTs E t) = false) ts.
Proof.
  intros He Hle H. eapply Forall_impl; [|exact H]. simpl. intros t Ht.
  unfold in_window. destruct (createdTs E t) as [x|] eqn:Hx; [|reflexivity].
  specialize (Ht x eq_refl). rewrite He. unfold lt.
  apply andb_false_intro2. apply Z.ltb_ge. lia.
Qed.

Lemma run_resumes_into_finalize E C fuel w c e :
  endTimestamp C = Some e ->
  read_checkpoint (State w) (startTimestamp C) = Some c ->
  e <= c ->
  (exists c', end_time (feed E (S (List.length (trace w)))
                          (str (incremental_url C (Some c)))) = Some c'
              /\ c <= c') ->
  Forall (fun t => forall x, createdTs E t = Some x -> c <= x)
         (page_tickets (feed E (S (List.length (trace w)))
                          (str (incremental_url C (Some c))))) ->
  (forall k, (k < 4)%nat -> fails E (List.length (trace w) + k) = None) ->
  run E C (S fuel) w = finalize E C (resumed_locals E C c w) (resumed E C c w).
Proof.
  intros He Hr Hle (c' & Hc' & Hcc') Hrec Hf.
  assert (F : forall k, (k < 4)%nat -> forall n,
             n = (List.length (trace w) + k)%nat -> fails E n = None)
    by (intros; subst; auto).
  unfold run, Sheets.get_State.
  erewrite bind_Ok by (apply call_None; apply (F 0%nat); [lia | clock]).
  cbv beta zeta. simpl fst. simpl snd. rewrite Hr.
  set (w1 := logged GetState (GotState (State w)) w).
  assert (Hlen : List.length (trace w1) = S (List.length (trace w)))
    by apply length_logged.
  erewrite bind_Ok; [reflexivity|].
  rewrite loop_quiet_page.
  - unfold breaks. rewrite Hlen, Hc', He. unfold ge.
    replace (e <=? c') with true by (symmetry; apply Z.leb_le; lia).
    rewrite orb_true_r. reflexivity.
  - apply first_url_truthy.
  - rewrite Hlen. eapply past_cursor_not_in_window; eauto.
  - apply (F 1%nat); [lia | rewrite Hlen; lia].
  - apply (F 2%nat); [lia | rewrite Hlen; lia].
  - apply (F 3%nat); [lia | rewrite Hlen; lia].
Qed.

Section Quiet.

Variables (E : Env) (C : Config) (t0 : list event).

Let ok : event -> Prop := fun ev => stages_or_looks_up ev = false.
Let I : World -> Prop := grown t0 (Forall ok).

Lemma finalize_stages_nothing st :
  triple I (finalize E C st) (post I (fun _ => I)).
Proof.
  assert (Hlog : forall status cp fetched saved last,
             triple I (log E C status cp fetched saved last) (post I (fun _ => I))).
  { intros. unfold log, Sheets.append_Logs. intros w Hw.
    apply (call_keeps t0 ok); auto. reflexivity. }
  assert (Hshare : forall exportId l,
             triple I (share E exportId l) (post I (fun _ => I))).
  { intros exportId l. induction l as [|x l IH]; simpl.
    - apply triple_ret. auto.
    - apply triple_bind with (Q := fun _ => I); [|intros _; exact IH].
      apply call_keeps; [reflexivity | reflexivity]. }
  unfold finalize, Sheets.get_Raw, Sheets.clear_State, Sheets.clear_Raw.
  repeat (first
    [ apply Hlog
    | apply Hshare
    | apply call_keeps; [reflexivity | reflexivity]
    | apply triple_ret; solve [auto]
    | match goal with |- triple _ (match ?l with [] => _ | _ :: _ => _ end) _ =>
        destruct l end
    | apply triple_bind with (Q := fun _ => I); [|intro] ]).
Qed.

Lemma loop_last_quiet_page fuel nextUrl st n :
  truthy nextUrl = true ->
  Forall (fun t => in_window C (createdTs E t) = false)
         (page_tickets (feed E n nextUrl)) ->
  breaks C (feed E n nextUrl) = true ->
  triple (fun w => List.length (trace w) = n /\ I w)
         (loop E C (S fuel) nextUrl st) (post I (fun _ => I)).
Proof.
  intros Hurl Hnone Hb w [Hlen Hw]. cbn [loop]. rewrite Hurl.
  unfold fetch_feed.
  destruct (call_cases E (FetchFeed nextUrl (checkpoint st))
              (fun n (_ : World) => (GotPage (feed E n nextUrl), feed E n nextUrl))
              (fun w => w) w) as [(msg & _ & Hq)|[_ Hq]].
  - erewrite bind_Throw by exact Hq. simpl.
    apply keeps_logged with (w := w); auto. reflexivity.
  - erewrite bind_Ok by exact Hq. cbv beta zeta. simpl fst. simpl snd.
    rewrite Hlen.
    erewrite bind_Ok by (apply for_tickets_none_admitted; exact Hnone).
    cbv beta iota zeta. erewrite bind_Ok by reflexivity. rewrite Hb.
    match goal with |- post _ _ (fst (bind ?m ?k ?w2)) _ =>
      apply (triple_bind m k I I (fun _ => I) (fun _ => I))
    end.
    + unfold Sheets.update_State. apply call_keeps; [reflexivity | reflexivity].
    + intros _. apply triple_bind with (Q := fun _ => I).
      * unfold log, Sheets.append_Logs. intros w' Hw'.
        apply (call_keeps t0 ok); auto. reflexivity.
      * intros _. apply triple_ret. auto.
    + apply keeps_logged with (w := w); auto. reflexivity.
Qed.

End Quiet.

Lemma run_resumed_stages_nothing E C fuel w c e :
  endTimestamp C = Some e ->
  read_checkpoint (State w) (startTimestamp C) = Some c ->
  e <= c ->
  (exists c', end_time (feed E (S (List.length (trace w)))
                          (str (incremental_url C (Some c)))) = Some c'
              /\ c <= c') ->
  Forall (fun t => forall x, createdTs E t = Some x -> c <= x)
         (page_tickets (feed E (S (List.length (trace w)))
                          (str (incremental_url C (Some c))))) ->
  grown (trace w) (Forall (fun ev => stages_or_looks_up ev = false))
        (snd (run E C (S fuel) w)).
Proof.
  intros He Hr Hle (c' & Hc' & Hcc') Hrec.
  set (I := grown (trace w) (Forall (fun ev => stages_or_looks_up ev = false))).
  apply post_same with (r := fst (run E C (S fuel) w)).
  apply (triple_bind (Sheets.get_State E) _
           (fun w' => w' = w) I
           (fun rows w' => rows = State w
                           /\ List.length (trace w') = S (List.length (trace w))
                           /\ I w')
           (fun _ => I)); [| |reflexivity].
  - unfold Sheets.get_State. apply triple_call; intros w'; intros; subst w'; simpl.
    + exists [(GetState, Threw msg)]. split; [reflexivity|]. repeat constructor.
    + split; [reflexivity|]. split; [rewrite length_app; simpl; lia|].
      exists [(GetState, GotState (State w))]. split; [reflexivity|].
      repeat constructor.
  - intros rows.
    apply triple_bind with (Q := fun _ => I).
    + intros w' (-> & Hlen & Hw'). rewrite Hr.
      apply (loop_last_quiet_page E C (trace w) fuel _ _ (S (List.length (trace w)))).
      * apply first_url_truthy.
      * eapply past_cursor_not_in_window; eauto.
      * unfold breaks. rewrite Hc', He. unfold ge.
        replace (e <=? c') with true by (symmetry; apply Z.leb_le; lia).
        apply orb_true_r.
      * split; assumption.
    + intros st. apply finalize_stages_nothing.
Qed.

(** With an unchanged feed and a committed cursor at the window's end, a
    second start of [export.js] stages rows again.  The first run dies when
    the report's creation throws; the feed answers the second run's request
    from the committed cursor with tickets of December (a feed by update
    time does), and they are looked up and appended anew. *)
Lemma restart_appends_again :
  let E := Sample.drive_is_down in
  let w1 := snd (main E Sample.december 5 Sample.empty_world) in
  let w2 := snd (main E Sample.december 5 w1) in
  (forall n m url, feed E n url = feed E m url)
  /\ read_checkpoint (State w1) (startTimestamp Sample.december) = Some 1767225600
  /\ endTimestamp Sample.december = Some 1767225600
  /\ List.length (Tickets_Raw w1) = 3%nat
  /\ existsb stages_or_looks_up (skipn (List.length (trace w1)) (trace w2)) = true.
Proof.
  vm_compute. repeat split; reflexivity.
Qed.

(** C7 (under the paginator contract). Let the cursor found in [State] be
    at or past the window's end, and let the page fetched from it honour the
    contract: it ends at or after that cursor and carries no record created
    before it.  Then a run appends nothing to staging and looks no record
    up, whatever fails; and when its first four calls succeed it reads the
    checkpoint, fetches that one page, writes the checkpoint, logs the turn,
    and all the rest of the run is finalization, on staging rows left as
    they were. *)
Theorem restart_past_window_end_only_finalizes :
  forall (E : Env) (C : Config) (fuel : nat) (w : World) (c e : Z),
    endTimestamp C = Some e ->
    read_checkpoint (State w) (startTimestamp C) = Some c ->
    e <= c ->
    (exists c', end_time (feed E (S (List.length (trace w)))
                            (str (incremental_url C (Some c)))) = Some c'
                /\ c <= c') ->
    Forall (fun t => forall x, createdTs E t = Some x -> c <= x)
           (page_tickets (feed E (S (List.length (trace w)))
                            (str (incremental_url C (Some c))))) ->
    (exists evs,
        events_since (trace w) (snd (run E C (S fuel) w)) evs
        /\ existsb stages_or_looks_up evs = false)
    /\ ((forall k, (k < 4)%nat -> fails E (List.length (trace w) + k) = None) ->
        run E C (S fuel) w = finalize E C (resumed_locals E C c w) (resumed E C c w)
        /\ Tickets_Raw (resumed E C c w) = Tickets_Raw w
        /\ List.length (pages (skipn (List.length (trace w))
                                     (trace (resumed E C c w)))) = 1%nat).
Proof.
  intros E C fuel w c e He Hr Hle Hend Hrec. split.
  - destruct (run_resumed_stages_nothing E C fuel w c e He Hr Hle Hend Hrec)
      as (evs & Hev & Hall).
    exists evs. split; [exact Hev|]. now apply Forall_existsb_false.
  - intros Hf. split; [|split].
    + now apply run_resumes_into_finalize with (e := e).
    + reflexivity.
    + unfold resumed, after_quiet_page. cbn [trace logged].
      rewrite <- app_assoc. rewrite skipn_app, skipn_all, Nat.sub_diag.
      reflexivity.
Qed.

(** * The model at work *)

Example parseInt_cells :
  parseInt (Some "1764547200") = Some 1764547200
  /\ parseInt (Some " 42 rows") = Some 42
  /\ parseInt (Some "-7") = Some (-7)
  /\ parseInt (Some "0x1F") = Some 31
  /\ parseInt (Some "") = NaN
  /\ parseInt None = NaN.
Proof. repeat split; reflexivity. Qed.

Example recipients_are_split_and_trimmed :
  RECIPIENTS (mkConfig "2025-12" None None undefined
                (Some " ann@example.org, bob@example.org ") undefined)
  = ["ann@example.org"; "bob@example.org"]
  /\ Batch.RECIPIENTS (mkConfig "2025-12" None None undefined
                         (Some " ann@example.org, bob@example.org ") undefined)
     = [" ann@example.org"; " bob@example.org "].
Proof. split; reflexivity. Qed.

(** The scenario of the design: no checkpoint yet, so the first page is
    asked from 1 December; of A and B only A is admitted; the checkpoint
    moves to the page's end, which is the window's end; the report holds the
    header and A's row. *)
Example december_scenario :
  let E := Sample.quiet Sample.scenario_page Sample.talk in
  let out := main E Sample.december 5 Sample.empty_world in
  fst out = Exit 0
  /\ first_cursor (trace (snd out)) = Some (Some 1764547200)
  /\ commits (trace (snd out)) = [1767225600]
  /\ In (WriteExport (str "sheet-1")
           [ header;
             [ number (Some 1); str "2025-12-01T00:00:05Z"; str "ann@example.org";
               str "email"; str "Help";
               str ("**Requester:** It is broken" ++ separator ++ "**Agent:** Fixed") ] ])
        (map fst (trace (snd out)))
  /\ Tickets_Raw (snd out) = [].
Proof.
  vm_compute. repeat split; try reflexivity. intuition.
Qed.

(** * The properties on concrete runs *)

(** Witness for C6: a ticket with a requester's comment, an internal note and an
    agent's answer. *)
Lemma body_digest_public_labelled_ordered_witness :
  let E := Sample.quiet Sample.three_page Sample.talk in
  let t := Sample.ticket_at 101 "2025-12-02T08:00:00Z" 7 in
  let out := enrich E Sample.december t Sample.empty_world in
  (exists reply,
      In (FetchComments (comments_url Sample.december (ticket_id t)), GotComments reply)
         (trace (snd out))
      /\ nth 5 (match fst out with Ok r => r | _ => [] end) undefined
         = str (body_digest (ticket_requester_id t) (reply_comments reply)))
  /\ body_digest (ticket_requester_id t) Sample.talk
     = body_digest (ticket_requester_id t)
         [ mkComment (boolean true) (number (Some 7)) (str "It is broken");
           mkComment (boolean true) (number (Some 50)) (str "Fixed") ].
Proof.
  intros E t out.
  destruct (body_digest_public_labelled_ordered E Sample.december t)
    as (_ & Hskip & Hrow).
  split.
  - apply (Hrow Sample.empty_world). reflexivity.
  - apply (Hskip [mkComment (boolean true) (number (Some 7)) (str "It is broken")]
                 (mkComment (boolean false) (number (Some 50)) (str "internal note"))
                 [mkComment (boolean true) (number (Some 50)) (str "Fixed")]).
    reflexivity.
Defined.

(** Witness for C3: a run whose only page ends past December. *)
Lemma finalization_follows_the_loop_witness :
  let E := Sample.quiet Sample.past_december Sample.talk in
  let out := run E Sample.december 3 Sample.empty_world in
  (exists old d,
      pages (trace (snd out)) = (old ++ [d])%list
      /\ (truthy (end_of_stream d) = true
          \/ ge (end_time d) (endTimestamp Sample.december) = true
          \/ truthy (next_page d) = false))
  /\ forall msg, fst out <> Throw msg.
Proof.
  intros E out.
  destruct (finalization_follows_the_loop E Sample.december 3 Sample.empty_world)
    as (evs & Hev & _ & Hfin & _ & Hok & Hquiet).
  unfold events_since in Hev. simpl app in Hev. subst evs. split.
  - apply Hfin. apply (Hok tt). reflexivity.
  - apply Hquiet. reflexivity.
Defined.

(** Witness for C4: December's run on the spreadsheet November's run left
    behind asks the feed from November's cursor. *)
Lemma checkpoint_key_ignores_the_window_witness :
  let E := Sample.quiet Sample.november_page [] in
  let w := mkWorld (Sheets.write_checkpoint (Some 1762000000) []) [] [] [] in
  read_checkpoint (Sheets.write_checkpoint (Some 1762000000) [])
                  (startTimestamp Sample.december) = Some 1762000000
  /\ read_checkpoint [["key"; "value"]] (startTimestamp Sample.december)
     = startTimestamp Sample.december
  /\ exists rs rest,
       events_since (trace w) (snd (run E Sample.december 2 w))
         ((GetState, GotState (State w))
          :: (FetchFeed
                (str "https://acme.zendesk.com/api/v2/incremental/tickets.json?start_time=1762000000")
                (Some 1762000000), rs)
          :: rest).
Proof.
  intros E w.
  destruct (checkpoint_key_ignores_the_window E Sample.december 1 w)
    as (Hwrite & Hfresh & Hrun).
  split; [|split].
  - apply Hwrite. reflexivity.
  - apply Hfresh. reflexivity.
  - apply Hrun. reflexivity.
Defined.

(** Witness for C7: the spreadsheet of a December export that failed while finalizing,
    and a feed that has only January to offer from the cursor on. *)
Lemma restart_past_window_end_only_finalizes_witness :
  let E := Sample.quiet Sample.january_page Sample.talk in
  let w := Sample.december_fetched in
  (exists evs,
      events_since (trace w) (snd (run E Sample.december 3 w)) evs
      /\ existsb stages_or_looks_up evs = false)
  /\ run E Sample.december 3 w
     = finalize E Sample.december (resumed_locals E Sample.december 1767225600 w)
                (resumed E Sample.december 1767225600 w)
  /\ Tickets_Raw (resumed E Sample.december 1767225600 w) = Tickets_Raw w.
Proof.
  intros E w.
  assert (Hrec : Forall (fun t => forall x, createdTs E t = Some x -> 1767225600 <= x)
                        (page_tickets
                           (feed E (S (List.length (trace w)))
                                 (str (incremental_url Sample.december
                                         (Some 1767225600)))))).
  { constructor; [|constructor]. intros x Hx. vm_compute in Hx.
    injection Hx as <-. discriminate. }
  assert (Hend : exists c',
             end_time (feed E (S (List.length (trace w)))
                             (str (incremental_url Sample.december (Some 1767225600))))
             = Some c' /\ 1767225600 <= c').
  { exists 1767400000. split; [reflexivity | discriminate]. }
  destruct (restart_past_window_end_only_finalizes E Sample.december 2 w
              1767225600 1767225600 eq_refl eq_refl (Z.le_refl _) Hend Hrec)
    as (Hquiet & Hfin).
  split; [exact Hquiet|].
  destruct Hfin as (Hrun & Hraw & _); [reflexivity|]. split; assumption.
Defined.

(** Witness for C9: December's export has no recipient configured. *)
Lemma finalize_with_no_recipients_witness :
  let E := Sample.quiet Sample.three_page Sample.talk in
  let st := mkLocals (Some 1767225600) 3 3 (number (Some 103)) in
  RECIPIENTS Sample.december = []
  /\ (exists evs,
         events_since (trace Sample.december_fetched)
           (snd (finalize E Sample.december st Sample.december_fetched)) evs
         /\ existsb shares_or_mails evs = false)
  /\ finalize E Sample.december st Sample.december_fetched
     = (Ok tt, after_unshared_finalize E Sample.december st Sample.december_fetched).
Proof.
  intros E st.
  destruct (finalize_with_no_recipients E Sample.december st Sample.december_fetched)
    as (Hunset & Hfin).
  assert (HR : RECIPIENTS Sample.december = []) by (apply Hunset; now left).
  destruct (Hfin HR) as (Hquiet & Hdone).
  split; [exact HR|]. split; [exact Hquiet|]. apply Hdone. reflexivity.
Defined.

(** Witness for C10: a page without a [tickets] array, and a ticket whose date does
    not parse. *)
Lemma missing_tickets_and_bad_dates_are_skipped_witness :
  let E := Sample.quiet Sample.bare_page Sample.talk in
  let url := str Sample.december_first_url in
  let st := mkLocals (Some 1764547200) 0 0 null in
  let odd := Sample.ticket_at 5 "yesterday" 7 in
  let fine := Sample.ticket_at 6 "2025-12-05T10:00:00Z" 7 in
  loop E Sample.december 1 url st Sample.empty_world
  = (Ok (locals_after_quiet_page E url st Sample.empty_world),
     after_quiet_page E Sample.december url st Sample.empty_world)
  /\ in_window Sample.december (createdTs E odd) = false
  /\ for_tickets E Sample.december [fine; odd; fine] [] null Sample.empty_world
     = for_tickets E Sample.december [fine; fine] [] null Sample.empty_world.
Proof.
  intros E url st odd fine.
  destruct (missing_tickets_and_bad_dates_are_skipped E Sample.december)
    as (Hbare & Hodd).
  split; [|split].
  - rewrite Hbare; reflexivity.
  - apply (Hodd odd). reflexivity.
  - destruct (Hodd odd eq_refl) as (_ & _ & _ & Hskip). apply (Hskip [fine] [fine]).
Defined.
(* ===================================================================== *)
(** * Further properties of the code *)
(* ===================================================================== *)

Import Ledger.

(** ** Replaying a trace *)

Lemma replay_snoc evs ev w0 : replay (evs ++ [ev]) w0 = played ev (replay evs w0).
Proof. unfold replay. now rewrite fold_left_app. Qed.

Lemma trace_played ev w : trace (played ev w) = (trace w ++ [ev])%list.
Proof.
  destruct ev as [rq rs]. unfold played. cbn [fst snd logged trace].
  assert (H : trace (effect_of (rq, rs) w) = trace w)
    by (destruct rq, rs; reflexivity).
  now rewrite H.
Qed.

Lemma trace_replay evs : forall w0, trace (replay evs w0) = (trace w0 ++ evs)%list.
Proof.
  induction evs as [|ev evs IH] using rev_ind; intros w0.
  - now rewrite app_nil_r.
  - rewrite replay_snoc, trace_played, IH. now rewrite app_assoc.
Qed.

Lemma played_Threw rq msg w : played (rq, Threw msg) w = logged rq (Threw msg) w.
Proof. destruct rq; reflexivity. Qed.

Lemma after_start (S : list event -> Prop) w : S [] -> after w S w.
Proof. intros H. exists []. split; [reflexivity | exact H]. Qed.

Lemma after_events w0 S w :
  after w0 S w -> exists evs, events_since (trace w0) w evs /\ w = replay evs w0 /\ S evs.
Proof.
  intros (evs & -> & HS). exists evs. split; [apply trace_replay|]. now split.
Qed.

(** One call, from a world reached by calls satisfying [S]. *)
Lemma after_call {A} (E : Env) rq (serve : nat -> World -> response * A) effect
    w0 (S S' : list event -> Prop) (R : A -> list event -> Prop) :
  (forall n w, logged rq (fst (serve n w)) (effect w) = played (rq, fst (serve n w)) w) ->
  (forall evs msg, S evs ->
     fails E (List.length (trace w0 ++ evs)) = Some msg ->
     S' (evs ++ [(rq, Threw msg)])%list) ->
  (forall evs, S evs ->
     fails E (List.length (trace w0 ++ evs)) = None ->
     R (snd (serve (List.length (trace w0 ++ evs)) (replay evs w0)))
       (evs ++ [(rq, fst (serve (List.length (trace w0 ++ evs)) (replay evs w0)))])%list) ->
  triple (after w0 S) (call E rq serve effect)
         (post (after w0 S') (fun a => after w0 (R a))).
Proof.
  intros Heff Ht Ho. apply triple_call.
  - intros w msg (evs & -> & HS) Hf. rewrite trace_replay in Hf.
    exists (evs ++ [(rq, Threw msg)])%list. split; [|now apply Ht].
    now rewrite replay_snoc, played_Threw.
  - intros w (evs & -> & HS) Hf. rewrite trace_replay in Hf |- *.
    eexists. split; [|apply Ho; eassumption].
    now rewrite replay_snoc, Heff.
Qed.

(** ** The requests of a run *)

Section Contract.

Variables (E : Env) (C : Config) (w0 : World).
Variables (recipients : list string) (fresh : bool).

Let ok : event -> Prop := fun ev => request_ok E C recipients fresh (fst ev).
Let I : World -> Prop := after w0 (Forall ok).

Lemma call_ok {A} rq (serve : nat -> World -> response * A) effect :
  (forall n w, logged rq (fst (serve n w)) (effect w) = played (rq, fst (serve n w)) w) ->
  request_ok E C recipients fresh rq ->
  triple I (call E rq serve effect) (post I (fun _ => I)).
Proof.
  intros Heff Hrq.
  apply (after_call E rq serve effect w0 (Forall ok) (Forall ok) (fun _ => Forall ok));
    [exact Heff | |]; intros; apply Forall_app; split; auto; now constructor.
Qed.

Lemma or_else_truthy a b : truthy b = true -> truthy (or_else a b) = true.
Proof. intros Hb. unfold or_else. destruct (truthy a) eqn:Ha; auto. Qed.

Lemma triple_pure {A} (phi : Prop) (P : World -> Prop) (m : M A) Q :
  (phi -> triple P m Q) -> triple (fun w => P w /\ phi) m Q.
Proof. intros H w [Hw Hphi]. now apply H. Qed.

Lemma enrich_ok t :
  in_window C (createdTs E t) = true ->
  triple I (enrich E C t) (post I (fun r w => I w /\ staged_row E C r)).
Proof.
  intros Hin. unfold enrich, fetch_user, fetch_comments.
  apply triple_bind with (Q := fun email w => I w /\ truthy email = true).
  - destruct (truthy (ticket_requester_id t)) eqn:Hid.
    + apply triple_bind with (Q := fun _ => I).
      * apply call_ok; [reflexivity|]. now exists t.
      * intros u. apply triple_ret. intros w Hw. split; [exact Hw|].
        now apply or_else_truthy.
    + apply triple_ret. intros w Hw. now split.
  - intros email. apply triple_pure. intros Hmail.
    apply triple_bind with (Q := fun _ => I).
    + apply call_ok; [reflexivity|]. now exists t.
    + intros cd. apply triple_ret. intros w Hw. split; [exact Hw|].
      now exists t, email, cd.
Qed.

Lemma for_tickets_ok ts :
  forall rows last,
    Forall (staged_row E C) rows ->
    triple I (for_tickets E C ts rows last)
      (post I (fun found w =>
         I w /\ Forall (staged_row E C) (fst found)
         /\ (List.length (fst found) <= List.length rows + List.length ts)%nat)).
Proof.
  induction ts as [|t rest IH]; intros rows last Hrows; simpl.
  - apply triple_ret. intros w Hw. simpl. repeat split; auto. lia.
  - destruct (in_window C (createdTs E t)) eqn:Hin.
    + apply triple_bind with (Q := fun r w => I w /\ staged_row E C r).
      * now apply enrich_ok.
      * intros r. apply triple_pure. intros Hr.
        eapply triple_conseq.
        -- apply (IH (rows ++ [r])%list (ticket_id t)).
           apply Forall_app. split; [exact Hrows | now constructor].
        -- auto.
        -- intros [found|msg|] w; simpl; auto.
           intros (Hw & Hall & Hlen). repeat split; auto.
           rewrite length_app in Hlen. simpl in Hlen. lia.
    + eapply triple_conseq; [apply (IH rows last Hrows) | auto |].
      intros [found|msg|] w; simpl; auto.
      intros (Hw & Hall & Hlen). repeat split; auto. lia.
Qed.

Lemma log_ok status cp fetched saved last :
  (forall n, audit_entry E C
               [ str (now E n); str (monthStr C); cp;
                 number (Some (Z.of_nat fetched)); number (Some (Z.of_nat saved));
                 last; str status ]) ->
  triple I (log E C status cp fetched saved last) (post I (fun _ => I)).
Proof.
  intros Hentry. unfold log, Sheets.append_Logs. intros w Hw.
  apply (call_ok _ (fun _ _ => (Done, tt))); [reflexivity | apply Hentry | exact Hw].
Qed.

Lemma loop_ok fuel :
  forall nextUrl st,
    (totalSaved st <= totalFetched st)%nat ->
    triple I (loop E C fuel nextUrl st)
      (post I (fun st' w => I w /\ (totalSaved st' <= totalFetched st')%nat)).
Proof.
  induction fuel as [|fuel IH]; intros nextUrl st Hst; simpl;
    (destruct (truthy nextUrl) eqn:Hurl;
     [|apply triple_ret; intros w Hw; split; [exact Hw | exact Hst]]).
  - intros w Hw. exact Hw.
  - unfold fetch_feed. apply triple_bind with (Q := fun _ => I).
    { apply call_ok; [reflexivity | exact Hurl]. }
    intros data.
    apply triple_bind
      with (Q := fun found w =>
                   I w /\ Forall (staged_row E C) (fst found)
                   /\ (List.length (fst found)
                       <= List.length (@nil row)
                          + List.length (page_tickets data))%nat).
    { apply for_tickets_ok. constructor. }
    intros [rows last]. cbn [fst List.length Nat.add].
    apply triple_conseq
      with (P' := fun w => I w /\ (Forall (staged_row E C) rows
                                   /\ (List.length rows
                                       <= List.length (page_tickets data))%nat))
           (Q' := post I (fun st' w => I w /\ (totalSaved st' <= totalFetched st')%nat));
      [|tauto|auto].
    apply triple_pure. intros [Hrows Hlen].
    apply triple_bind
      with (Q := fun saved w =>
                   I w /\ (saved <= totalFetched st
                                    + List.length (page_tickets data))%nat).
    { destruct rows as [|r rows].
      - apply triple_ret. intros w Hw. split; [exact Hw | lia].
      - apply triple_bind with (Q := fun _ => I).
        + unfold Sheets.append_Raw. apply call_ok; [reflexivity|].
          split; [discriminate | exact Hrows].
        + intros _. apply triple_ret. intros w Hw. split; [exact Hw | lia]. }
    intros saved. apply triple_pure. intros Hsaved.
    apply triple_bind with (Q := fun _ => I).
    { unfold Sheets.update_State. apply call_ok; [reflexivity | exact Logic.I]. }
    intros _.
    apply triple_bind with (Q := fun _ => I).
    { apply log_ok. intros n. left.
      exists n, (end_time data),
        (totalFetched st + List.length (page_tickets data))%nat, saved, last.
      split; [reflexivity | exact Hsaved]. }
    intros _. destruct (breaks C data).
    + apply triple_ret. intros w Hw. now split.
    + now apply IH.
Qed.

Lemma share_ok exportId l :
  incl l recipients -> triple I (share E exportId l) (post I (fun _ => I)).
Proof.
  induction l as [|x l IH]; intros Hl; simpl.
  - apply triple_ret. auto.
  - apply triple_bind with (Q := fun _ => I).
    + apply call_ok; [reflexivity|]. apply Hl. now left.
    + intros _. apply IH. intros y Hy. apply Hl. now right.
Qed.

End Contract.

Lemma finalize_ok E C w0 fresh st :
  (totalSaved st <= totalFetched st)%nat ->
  triple (after w0 (Forall (fun ev => request_ok E C (RECIPIENTS C) fresh (fst ev))))
         (finalize E C st)
         (post (after w0 (Forall (fun ev => request_ok E C (RECIPIENTS C) fresh (fst ev))))
               (fun _ => after w0 (Forall (fun ev =>
                                      request_ok E C (RECIPIENTS C) fresh (fst ev))))).
Proof.
  intros Hst.
  set (I := after w0 (Forall (fun ev => request_ok E C (RECIPIENTS C) fresh (fst ev)))).
  assert (Hcall : forall A rq (serve : nat -> World -> response * A) effect,
             (forall n w, logged rq (fst (serve n w)) (effect w)
                          = played (rq, fst (serve n w)) w) ->
             request_ok E C (RECIPIENTS C) fresh rq ->
             triple I (call E rq serve effect) (post I (fun _ => I)))
    by (intros; now apply call_ok).
  unfold finalize, Sheets.get_Raw, Sheets.clear_State, Sheets.clear_Raw.
  apply triple_bind with (Q := fun _ => I);
    [apply Hcall; reflexivity | intros exportId].
  apply triple_bind with (Q := fun _ => I);
    [apply Hcall; [reflexivity | exact Logic.I] | intros rawData].
  apply triple_bind with (Q := fun _ => I);
    [apply Hcall; [reflexivity | now exists rawData] | intros _].
  apply triple_bind with (Q := fun _ => I);
    [apply share_ok, incl_refl | intros _].
  apply triple_bind with (Q := fun _ => I).
  { destruct (RECIPIENTS C) as [|x l] eqn:HR.
    - apply triple_ret. auto.
    - apply Hcall; [reflexivity|]. repeat split. discriminate. }
  intros _.
  apply triple_bind with (Q := fun _ => I);
    [apply Hcall; [reflexivity | exact Logic.I] | intros _].
  apply triple_bind with (Q := fun _ => I);
    [apply Hcall; [reflexivity | exact Logic.I] | intros _].
  apply log_ok. intros n. right. left. now exists n, st.
Qed.

Lemma run_ok E C w0 fresh fuel :
  triple (after w0 (Forall (fun ev => request_ok E C (RECIPIENTS C) fresh (fst ev))))
         (run E C fuel)
         (post (after w0 (Forall (fun ev => request_ok E C (RECIPIENTS C) fresh (fst ev))))
               (fun _ => after w0 (Forall (fun ev =>
                                      request_ok E C (RECIPIENTS C) fresh (fst ev))))).
Proof.
  set (I := after w0 (Forall (fun ev => request_ok E C (RECIPIENTS C) fresh (fst ev)))).
  unfold run, Sheets.get_State.
  apply triple_bind with (Q := fun _ => I).
  { apply call_ok; [reflexivity | exact Logic.I]. }
  intros rows.
  apply triple_bind
    with (Q := fun st w => I w /\ (totalSaved st <= totalFetched st)%nat).
  { apply loop_ok. simpl. lia. }
  intros st. apply triple_pure. apply finalize_ok.
Qed.

Lemma main_ok E C fuel w :
  after w (Forall (fun ev => request_ok E C (RECIPIENTS C) false (fst ev)))
        (snd (main E C fuel w)).
Proof.
  set (I := after w (Forall (fun ev => request_ok E C (RECIPIENTS C) false (fst ev)))).
  assert (Hw : I w) by (apply after_start; constructor).
  unfold main. destruct (negb _); [exact Hw|].
  pose proof (run_ok E C w false fuel w Hw) as Hr.
  destruct (run E C fuel w) as [[[]|msg|] w1]; simpl in *; auto.
  assert (Hl : triple I (log E C ("ERROR: " ++ msg) (str "UNKNOWN") 0 0 (str "FAIL"))
                      (post I (fun _ => I))).
  { apply log_ok. intros n. right. right. now exists n, msg. }
  specialize (Hl w1 Hr).
  destruct (log E C _ _ _ _ _ w1) as [[[]|msg'|] w2]; simpl in *; auto.
Qed.

Lemma Batch_finalize_ok E C w0 fresh st :
  (totalSaved st <= totalFetched st)%nat ->
  triple (after w0 (Forall (fun ev => request_ok E C (Batch.RECIPIENTS C) fresh (fst ev))))
         (Batch.finalize E C st)
         (post (after w0 (Forall (fun ev =>
                            request_ok E C (Batch.RECIPIENTS C) fresh (fst ev))))
               (fun _ => after w0 (Forall (fun ev =>
                            request_ok E C (Batch.RECIPIENTS C) fresh (fst ev))))).
Proof.
  intros Hst.
  set (I := after w0 (Forall (fun ev =>
                        request_ok E C (Batch.RECIPIENTS C) fresh (fst ev)))).
  assert (Hcall : forall A rq (serve : nat -> World -> response * A) effect,
             (forall n w, logged rq (fst (serve n w)) (effect w)
                          = played (rq, fst (serve n w)) w) ->
             request_ok E C (Batch.RECIPIENTS C) fresh rq ->
             triple I (call E rq serve effect) (post I (fun _ => I)))
    by (intros; now apply call_ok).
  unfold Batch.finalize, Sheets.get_Raw, Sheets.clear_State, Sheets.clear_Raw.
  apply triple_bind with (Q := fun _ => I);
    [apply Hcall; reflexivity | intros exportId].
  apply triple_bind with (Q := fun _ => I);
    [apply Hcall; [reflexivity | exact Logic.I] | intros rawData].
  apply triple_bind with (Q := fun _ => I);
    [apply Hcall; [reflexivity | now exists rawData] | intros _].
  apply triple_bind with (Q := fun _ => I);
    [apply share_ok, incl_refl | intros _].
  apply triple_bind with (Q := fun _ => I).
  { destruct (Batch.RECIPIENTS C) as [|x l] eqn:HR.
    - apply triple_ret. auto.
    - apply Hcall; [reflexivity|]. repeat split. discriminate. }
  intros _.
  apply triple_bind with (Q := fun _ => I);
    [apply Hcall; [reflexivity | exact Logic.I] | intros _].
  apply triple_bind with (Q := fun _ => I);
    [apply Hcall; [reflexivity | exact Logic.I] | intros _].
  apply log_ok. intros n. right. left. now exists n, st.
Qed.

Lemma Batch_run_ok E C w0 fuel :
  triple (after w0 (Forall (fun ev => request_ok E C (Batch.RECIPIENTS C) true (fst ev))))
         (Batch.run E C fuel)
         (post (after w0 (Forall (fun ev =>
                            request_ok E C (Batch.RECIPIENTS C) true (fst ev))))
               (fun _ => after w0 (Forall (fun ev =>
                            request_ok E C (Batch.RECIPIENTS C) true (fst ev))))).
Proof.
  set (I := after w0 (Forall (fun ev =>
                        request_ok E C (Batch.RECIPIENTS C) true (fst ev)))).
  unfold Batch.run, Sheets.get_State.
  apply triple_bind with (Q := fun _ => I).
  { apply call_ok; [reflexivity | exact Logic.I]. }
  intros rows. destruct (Batch.read_state rows (startTimestamp C)) as [cp isFreshRun].
  apply triple_bind with (Q := fun _ => I).
  { destruct isFreshRun; [|apply triple_ret; auto].
    unfold Sheets.clear_Logs, Sheets.clear_Raw.
    apply triple_bind with (Q := fun _ => I); [|intros _];
      (apply call_ok; [reflexivity|]); [reflexivity | exact Logic.I]. }
  intros _.
  apply triple_bind
    with (Q := fun st w => I w /\ (totalSaved st <= totalFetched st)%nat).
  { apply loop_ok. simpl. lia. }
  intros st. apply triple_pure. intros Hst.
  destruct (ge (checkpoint st) (endTimestamp C)).
  - now apply Batch_finalize_ok.
  - apply triple_ret. auto.
Qed.

(** ** What the replayed calls leave in the spreadsheet *)

Lemma Logs_replay evs : forall w,
  Forall (fun ev => fst ev <> ClearLogs) evs ->
  Logs (replay evs w) = (Logs w ++ entries evs)%list.
Proof.
  induction evs as [|ev evs IH] using rev_ind; intros w Hevs.
  - simpl. now rewrite app_nil_r.
  - apply Forall_app in Hevs. destruct Hevs as [Hevs Hev].
    inversion Hev as [|? ? Hne _]; subst.
    rewrite replay_snoc. unfold entries. rewrite flat_map_app. fold (entries evs).
    rewrite app_assoc, <- (IH w Hevs).
    destruct ev as [rq rs]. simpl in Hne.
    destruct rq, rs; try reflexivity; simpl; rewrite ?app_nil_r; try reflexivity.
    contradiction.
Qed.

Lemma or_else_given a : given_or_empty (or_else a (str "")).
Proof. unfold given_or_empty, or_else. destruct (truthy a) eqn:Ha; auto. Qed.

Lemma staged_row_whole E C r : staged_row E C r -> whole_row r /\ row_in_window E C r.
Proof.
  intros (t & email & cd & -> & Hmail & Hin). split.
  - repeat split; simpl; auto using or_else_given. now eexists.
  - apply in_window_bounds in Hin. destruct Hin as (s & e & c & Hs & He & Hc & Hle).
    now exists s, e, c.
Qed.

Lemma main_requests E C fuel w :
  exists evs,
    events_since (trace w) (snd (main E C fuel w)) evs
    /\ snd (main E C fuel w) = replay evs w
    /\ Forall (fun ev => request_ok E C (RECIPIENTS C) false (fst ev)) evs.
Proof. apply after_events, main_ok. Qed.

Lemma Batch_run_requests E C fuel w :
  exists evs,
    events_since (trace w) (snd (Batch.run E C fuel w)) evs
    /\ snd (Batch.run E C fuel w) = replay evs w
    /\ Forall (fun ev => request_ok E C (Batch.RECIPIENTS C) true (fst ev)) evs.
Proof.
  apply after_events.
  pose proof (Batch_run_ok E C w fuel w (after_start _ w (Forall_nil _))) as H.
  destruct (Batch.run E C fuel w) as [[[]|msg|] w1]; exact H.
Qed.

Lemma entries_audit E C recipients fresh evs :
  Forall (fun ev => request_ok E C recipients fresh (fst ev)) evs ->
  Forall (audit_entry E C) (entries evs).
Proof.
  induction 1 as [|[rq rs] evs Hev _ IH]; [constructor|].
  unfold entries. cbn [flat_map]. fold (entries evs).
  destruct rq, rs; simpl; auto.
Qed.

(** X1. The audit log of [export.js] only grows.  Whatever the services
    answer, a run leaves every entry that was in [Logs] where it was and
    adds, after them, the entries of the [log] calls that were answered,
    in the order of the calls.  Each added entry is one of three rows of
    seven cells with the month in the second: a "Running" row, whose saved
    count is at most its fetched count, the "Export Complete" row, or an
    "ERROR: ..." row. *)
Theorem audit_log_only_grows :
  forall (E : Env) (C : Config) (fuel : nat) (w : World),
    exists evs,
      events_since (trace w) (snd (main E C fuel w)) evs
      /\ Logs (snd (main E C fuel w)) = (Logs w ++ entries evs)%list
      /\ Forall (audit_entry E C) (entries evs).
Proof.
  intros E C fuel w. destruct (main_requests E C fuel w) as (evs & Hev & Hw & Hok).
  exists evs. split; [exact Hev|]. split.
  - rewrite Hw. apply Logs_replay. eapply Forall_impl; [|exact Hok].
    intros [rq rs] Hrq Heq. simpl in *. subst rq. discriminate Hrq.
  - eapply entries_audit, Hok.
Qed.

(** X2. Every append to [Tickets_Raw] made by [export.js] carries at least
    one row, and every row it carries is whole: six cells, of which the
    third (the requester's address) is never empty, since a missing address
    is written "N/A"; the channel and the subject are what the ticket gives
    or the empty string; the sixth is the text of the digest. *)
Theorem staged_rows_are_whole :
  forall (E : Env) (C : Config) (fuel : nat) (w : World),
    exists evs,
      events_since (trace w) (snd (main E C fuel w)) evs
      /\ forall rows rs, In (AppendRaw rows, rs) evs ->
                         rows <> [] /\ Forall whole_row rows.
Proof.
  intros E C fuel w. destruct (main_requests E C fuel w) as (evs & Hev & _ & Hok).
  exists evs. split; [exact Hev|]. intros rows rs Hin.
  rewrite Forall_forall in Hok. specialize (Hok _ Hin). destruct Hok as [Hne Hrows].
  split; [exact Hne|]. eapply Forall_impl; [|exact Hrows].
  intros r Hr. now apply staged_row_whole in Hr.
Qed.

(** X3. What [export.js] asks of Drive and of the mail transport: the
    report it creates is named after the month; it grants access to
    addresses of [RECIPIENTS] only; and a mail, if one is sent, goes to the
    whole list, which is then not empty, under the month's subject. *)
Theorem report_goes_to_recipients_only :
  forall (E : Env) (C : Config) (fuel : nat) (w : World),
    exists evs,
      events_since (trace w) (snd (main E C fuel w)) evs
      /\ (forall name rs, In (CreateFile name, rs) evs ->
            name = "Zendesk Export - " ++ monthStr C)
      /\ (forall id emailAddress rs, In (Grant id emailAddress, rs) evs ->
            In emailAddress (RECIPIENTS C))
      /\ (forall to subject text rs, In (SendMail to subject text, rs) evs ->
            to = RECIPIENTS C /\ to <> []
            /\ subject = "Zendesk Monthly Report - " ++ monthStr C).
Proof.
  intros E C fuel w. destruct (main_requests E C fuel w) as (evs & Hev & _ & Hok).
  exists evs. split; [exact Hev|]. rewrite Forall_forall in Hok.
  split; [|split].
  - intros name rs Hin. exact (Hok _ Hin).
  - intros id x rs Hin. exact (Hok _ Hin).
  - intros to subject text rs Hin. destruct (Hok _ Hin) as (Hto & Hne & Hs).
    rewrite Hto. auto.
Qed.

(** ** Calls in their order *)

Lemma each_after_app P l1 : forall before l2,
  each_after P before (l1 ++ l2)
  <-> each_after P before l1 /\ each_after P (before ++ l1)%list l2.
Proof.
  induction l1 as [|x l1 IH]; intros before l2; simpl.
  - rewrite app_nil_r. tauto.
  - rewrite IH, <- app_assoc. simpl. tauto.
Qed.

Lemma each_after_snoc P evs ev :
  each_after P [] evs -> P evs ev -> each_after P [] (evs ++ [ev]).
Proof. intros H Hev. apply each_after_app. simpl. auto. Qed.

Lemma each_after_split P evs1 ev evs2 :
  each_after P [] (evs1 ++ ev :: evs2) -> P evs1 ev.
Proof. intros H. apply each_after_app in H. simpl in H. tauto. Qed.

Lemma appended_app evs evs' :
  appended (evs ++ evs') = (appended evs ++ appended evs')%list.
Proof. apply flat_map_app. Qed.

Lemma fetched_snoc evs ev :
  fetched (evs ++ [ev])
  = (fetched evs + List.length (flat_map page_tickets (pages [ev])))%nat.
Proof. unfold fetched. now rewrite pages_app, flat_map_app, length_app. Qed.

Lemma saved_snoc evs ev :
  saved (evs ++ [ev]) = (saved evs + List.length (appended [ev]))%nat.
Proof. unfold saved. now rewrite appended_app, length_app. Qed.

(** ** Calls that keep what holds of the trace *)

Section Kept.

Variables (E : Env) (C : Config) (w0 : World).
Variable S : list event -> Prop.
Variable kind : request -> Prop.

Hypothesis S_kind : forall evs rq rs, kind rq -> S evs -> S (evs ++ [(rq, rs)])%list.

Let I : World -> Prop := after w0 S.

Lemma call_kept {A} rq (serve : nat -> World -> response * A) effect :
  (forall n w, logged rq (fst (serve n w)) (effect w) = played (rq, fst (serve n w)) w) ->
  kind rq ->
  triple I (call E rq serve effect) (post I (fun _ => I)).
Proof.
  intros Heff Hk.
  apply (after_call E rq serve effect w0 S S (fun _ => S)); auto.
Qed.

Hypothesis kind_user : forall url, kind (FetchUser url).
Hypothesis kind_comments : forall url, kind (FetchComments url).

Lemma enrich_kept t : triple I (enrich E C t) (post I (fun _ => I)).
Proof.
  unfold enrich, fetch_user, fetch_comments.
  apply triple_bind with (Q := fun _ => I).
  - destruct (truthy (ticket_requester_id t)).
    + apply triple_bind with (Q := fun _ => I).
      * apply call_kept; [reflexivity | apply kind_user].
      * intros u. apply triple_ret. auto.
    + apply triple_ret. auto.
  - intros email. apply triple_bind with (Q := fun _ => I).
    + apply call_kept; [reflexivity | apply kind_comments].
    + intros cd. apply triple_ret. auto.
Qed.

Lemma for_tickets_kept ts :
  forall rows last, triple I (for_tickets E C ts rows last) (post I (fun _ => I)).
Proof.
  induction ts as [|t rest IH]; intros rows last; simpl.
  - apply triple_ret. auto.
  - destruct (in_window C (createdTs E t)); [|apply IH].
    apply triple_bind with (Q := fun _ => I); [apply enrich_kept|].
    intros r. apply IH.
Qed.

End Kept.

Lemma share_kept (E : Env) w0 (S : list event -> Prop) exportId l :
  (forall evs emailAddress rs,
      S evs -> S (evs ++ [(Grant exportId emailAddress, rs)])%list) ->
  triple (after w0 S) (share E exportId l) (post (after w0 S) (fun _ => after w0 S)).
Proof.
  intros HS. induction l as [|x l IH]; simpl.
  - apply triple_ret. auto.
  - apply triple_bind with (Q := fun _ => after w0 S); [|intros _; exact IH].
    apply (after_call E _ _ _ w0 S S (fun _ => S)); [reflexivity| |]; intros; now apply HS.
Qed.

Lemma triple_throws {A} (m : M A) (P I I' : World -> Prop) (Q : A -> World -> Prop) :
  triple P m (post I' Q) -> (forall w, I' w -> I w) -> triple P m (post I Q).
Proof.
  intros H HI. eapply triple_conseq; [exact H | auto |].
  intros [a|msg|] w; simpl; auto.
Qed.

Lemma after_weaken w0 (S S' : list event -> Prop) w :
  (forall evs, S evs -> S' evs) -> after w0 S w -> after w0 S' w.
Proof. intros H (evs & Hw & HS). exists evs. auto. Qed.

Lemma log_after (E : Env) (C : Config) w0 (S S' R : list event -> Prop)
    status cp fetched saved last :
  (forall evs n msg, S evs ->
     S' (evs ++ [(AppendLog [ str (now E n); str (monthStr C); cp;
                              number (Some (Z.of_nat fetched));
                              number (Some (Z.of_nat saved)); last; str status ],
                  Threw msg)])%list) ->
  (forall evs n, S evs ->
     R (evs ++ [(AppendLog [ str (now E n); str (monthStr C); cp;
                             number (Some (Z.of_nat fetched));
                             number (Some (Z.of_nat saved)); last; str status ],
                 Done)])%list) ->
  triple (after w0 S) (log E C status cp fetched saved last)
         (post (after w0 S') (fun _ => after w0 R)).
Proof.
  intros Ht Ho. unfold log, Sheets.append_Logs. intros w Hw.
  apply (after_call E (AppendLog _) (fun _ _ => (Done, tt)) _ w0 S S' (fun _ => R));
    [reflexivity | | | exact Hw].
  - intros evs msg HS _. now apply Ht.
  - intros evs HS _. now apply Ho.
Qed.

(** ** Turns of the loop, and calls that throw *)

Import Turns.

Lemma calm_app evs evs' : calm (evs ++ evs') <-> calm evs /\ calm evs'.
Proof. unfold calm. rewrite forallb_app, andb_true_iff. tauto. Qed.

Lemma calm_snoc evs ev : calm evs -> thrown ev = false -> calm (evs ++ [ev]).
Proof.
  intros H Hev. apply calm_app. split; [exact H|]. unfold calm. simpl.
  now rewrite Hev.
Qed.

Lemma looking_up_snoc evs ev data :
  looking_up evs data -> is_lookup ev -> looking_up (evs ++ [ev]) data.
Proof.
  intros (earlier & url & cursor & lookups & -> & Hl) Hev.
  exists earlier, url, cursor, (lookups ++ [ev])%list. split.
  - now rewrite <- app_assoc.
  - apply Forall_app. split; [exact Hl | now constructor].
Qed.

(** Where a call that threw stands in a run that logs the error and
    ends. *)
Lemma thrown_split (b : list event) x y : forall before z later,
  calm b ->
  (b ++ [x; y])%list = (before ++ z :: later)%list ->
  thrown z = true ->
  (before = b /\ z = x /\ later = [y])
  \/ (before = (b ++ [x])%list /\ z = y /\ later = []).
Proof.
  induction b as [|a b IH]; intros before z later Hb Heq Hz.
  - destruct before as [|c before]; simpl in Heq.
    + injection Heq as <- <-. now left.
    + injection Heq as <- Heq. destruct before as [|d before]; simpl in Heq.
      * injection Heq as <- <-. now right.
      * injection Heq as _ Heq. now destruct before.
  - unfold calm in Hb. simpl in Hb. apply andb_prop in Hb. destruct Hb as [Ha Hb].
    destruct before as [|c before]; simpl in Heq.
    + injection Heq as <- _. rewrite Hz in Ha. discriminate.
    + injection Heq as <- Heq.
      destruct (IH before z later Hb Heq Hz) as [(-> & -> & ->)|(-> & -> & ->)];
        [now left | now right].
Qed.

(** The same in a run that ends with the call that threw. *)
Lemma thrown_last (b : list event) x : forall before z later,
  calm b ->
  (b ++ [x])%list = (before ++ z :: later)%list ->
  thrown z = true ->
  before = b /\ z = x /\ later = [].
Proof.
  induction b as [|a b IH]; intros before z later Hb Heq Hz.
  - destruct before as [|c before]; simpl in Heq.
    + now injection Heq as <- <-.
    + injection Heq as _ Heq. now destruct before.
  - unfold calm in Hb. simpl in Hb. apply andb_prop in Hb. destruct Hb as [Ha Hb].
    destruct before as [|c before]; simpl in Heq.
    + injection Heq as <- _. rewrite Hz in Ha. discriminate.
    + injection Heq as <- Heq.
      now destruct (IH before z later Hb Heq Hz) as (-> & -> & ->).
Qed.

Lemma calm_no_throw evs before z later :
  calm evs -> evs = (before ++ z :: later)%list -> thrown z = false.
Proof.
  intros H ->. apply calm_app in H. destruct H as [_ H].
  unfold calm in H. simpl in H. apply andb_prop in H. destruct H as [H _].
  now destruct (thrown z).
Qed.

Section Turns.

Variables (E : Env) (C : Config) (t0 : list event).

Let at_ := at_turn E C t0.
Let steady : World -> Prop := at_ (fun _ => True).

Lemma at_turn_weaken (P P' : list event -> Prop) w :
  (forall evs, P evs -> P' evs) -> at_ P w -> at_ P' w.
Proof. intros H (evs & Ht & Hc & Ho & HP). exists evs. auto. Qed.

Lemma ended_bind {A B} (m : M A) (k : A -> M B) P Q R :
  triple P m (ended E C t0 Q) ->
  (forall a, triple (Q a) (k a) (ended E C t0 R)) ->
  triple P (bind m k) (ended E C t0 R).
Proof.
  intros Hm Hk w Hw. specialize (Hm w Hw). unfold bind.
  destruct (m w) as [[a|msg|] w1]; simpl in *; auto.
  now apply Hk.
Qed.

Lemma ended_conseq {A} (m : M A) P (R R' : A -> World -> Prop) :
  triple P m (ended E C t0 R) ->
  (forall a w, R a w -> R' a w) ->
  triple P m (ended E C t0 R').
Proof.
  intros H HR w Hw. specialize (H w Hw).
  destruct (m w) as [[a|msg|] w1]; simpl in *; auto.
Qed.

Lemma at_turn_pure {A} (P : list event -> Prop) (phi : Prop) (m : M A) Q :
  (phi -> triple (at_ P) m Q) ->
  triple (at_ (fun evs => P evs /\ phi)) m Q.
Proof.
  intros H w (evs & Ht & Hc & Ho & HP & Hphi). apply (H Hphi). now exists evs.
Qed.

(** One call, made in its turn. *)
Lemma call_turn {A} rq (serve : nat -> World -> response * A) effect
    (P : list event -> Prop) (Q : A -> list event -> Prop) :
  (forall w, trace (effect w) = trace w) ->
  (forall n w, thrown (rq, fst (serve n w)) = false) ->
  (forall evs rs, P evs -> in_turn E C evs (rq, rs)) ->
  (forall evs n w, P evs -> Q (snd (serve n w)) (evs ++ [(rq, fst (serve n w))])%list) ->
  triple (at_ P) (call E rq serve effect)
         (ended E C t0 (fun a => at_ (Q a))).
Proof.
  intros Heff Hans Hin HQ. apply triple_call.
  - intros w msg (evs & Ht & Hc & Ho & HP) _. cbn [ended].
    exists (evs ++ [(rq, Threw msg)])%list. split.
    + simpl. now rewrite Ht, app_assoc.
    + exists evs, rq. split; [reflexivity|]. split; [exact Hc|].
      apply each_after_snoc; auto.
  - intros w (evs & Ht & Hc & Ho & HP) _. cbn [ended].
    exists (evs ++ [(rq, fst (serve (List.length (trace w)) w))])%list. split.
    + simpl. now rewrite Heff, Ht, app_assoc.
    + split; [now apply calm_snoc|]. split; [apply each_after_snoc; auto|].
      now apply HQ.
Qed.

(** A call that may come at any time and tells nothing. *)
Lemma call_any_turn {A} rq (serve : nat -> World -> response * A) effect :
  (forall w, trace (effect w) = trace w) ->
  (forall n w, thrown (rq, fst (serve n w)) = false) ->
  (forall evs rs, in_turn E C evs (rq, rs)) ->
  triple steady (call E rq serve effect) (ended E C t0 (fun _ => steady)).
Proof.
  intros Heff Hans Hin.
  apply (call_turn rq serve effect (fun _ => True) (fun _ _ => True)); auto.
Qed.

Lemma lookup_turn {A} rq (serve : nat -> World -> response * A) data :
  (forall n w, is_lookup (rq, fst (serve n w))) ->
  triple (at_ (fun evs => looking_up evs data)) (call E rq serve (fun w => w))
         (ended E C t0 (fun _ => at_ (fun evs => looking_up evs data))).
Proof.
  intros Hl.
  apply (call_turn rq serve _ (fun evs => looking_up evs data)
           (fun _ evs => looking_up evs data)).
  - reflexivity.
  - intros n w. specialize (Hl n w).
    destruct rq, (fst (serve n w)); simpl in Hl; try contradiction; reflexivity.
  - intros evs rs H. specialize (Hl 0%nat (mkWorld [] [] [] [])).
    destruct rq; simpl in Hl; try contradiction; now exists data.
  - intros evs n w H. now apply looking_up_snoc.
Qed.

Lemma enrich_turn t data :
  triple (at_ (fun evs => looking_up evs data)) (enrich E C t)
         (ended E C t0
            (fun r => at_ (fun evs => looking_up evs data /\ row_of t r))).
Proof.
  unfold enrich, fetch_user, fetch_comments.
  apply ended_bind with (Q := fun _ => at_ (fun evs => looking_up evs data)).
  - destruct (truthy (ticket_requester_id t)).
    + apply ended_bind with (Q := fun _ => at_ (fun evs => looking_up evs data)).
      * apply lookup_turn. intros; exact Logic.I.
      * intros u. apply triple_ret. auto.
    + apply triple_ret. auto.
  - intros email.
    apply ended_bind with (Q := fun _ => at_ (fun evs => looking_up evs data)).
    + apply lookup_turn. intros; exact Logic.I.
    + intros cd. apply triple_ret. intros w Hw. cbn [ended].
      eapply at_turn_weaken; [|exact Hw]. intros evs H. split; [exact H|].
      now exists email, cd.
Qed.

Lemma for_tickets_turn data ts :
  forall rows last,
    triple (at_ (fun evs => looking_up evs data))
           (for_tickets E C ts rows last)
           (ended E C t0
              (fun found =>
                 at_ (fun evs =>
                        looking_up evs data
                        /\ exists new,
                            fst found = (rows ++ new)%list
                            /\ Forall2 row_of
                                 (filter (fun t => in_window C (createdTs E t)) ts)
                                 new))).
Proof.
  induction ts as [|t rest IH]; intros rows last; cbn [for_tickets filter].
  - apply triple_ret. intros w Hw. cbn [ended fst].
    eapply at_turn_weaken; [|exact Hw]. intros evs H. split; [exact H|].
    exists []. split; [now rewrite app_nil_r | constructor].
  - destruct (in_window C (createdTs E t)); [|apply IH].
    apply ended_bind
      with (Q := fun r => at_ (fun evs => looking_up evs data /\ row_of t r));
      [apply enrich_turn|].
    intros r. apply at_turn_pure. intros Hr.
    eapply ended_conseq; [apply (IH (rows ++ [r])%list (ticket_id t))|].
    intros found w Hw. eapply at_turn_weaken; [|exact Hw].
    intros evs (H & new & Hf & Hnew). split; [exact H|].
    exists (r :: new). split; [now rewrite Hf, <- app_assoc|].
    now constructor.
Qed.

(** The calls the turns take no notice of. *)
Ltac any_turn :=
  apply call_any_turn; [reflexivity | reflexivity | intros; exact Logic.I].

Lemma log_turn status cp fetched saved last :
  triple steady (log E C status cp fetched saved last)
         (ended E C t0 (fun _ => steady)).
Proof.
  unfold log, Sheets.append_Logs. intros w Hw.
  apply (call_any_turn (AppendLog _) (fun _ _ => (Done, tt)) _); auto.
  intros; exact Logic.I.
Qed.

Lemma persisted_nil evs data :
  looking_up evs data ->
  Forall2 row_of (admitted E C data) [] ->
  page_persisted E C evs data.
Proof.
  intros (earlier & url & cursor & lookups & -> & Hl) Hrows.
  exists earlier, url, cursor, lookups, []. simpl. now rewrite app_nil_r.
Qed.

Lemma persisted_snoc evs data r rows :
  looking_up evs data ->
  Forall2 row_of (admitted E C data) (r :: rows) ->
  page_persisted E C (evs ++ [(AppendRaw (r :: rows), Done)]) data.
Proof.
  intros (earlier & url & cursor & lookups & -> & Hl) Hrows.
  exists earlier, url, cursor, lookups, (r :: rows). simpl.
  now rewrite <- app_assoc.
Qed.

(** The staging append of a turn, and the checkpoint write after it. *)
Lemma append_turn data r rows :
  triple (at_ (fun evs => looking_up evs data
                          /\ Forall2 row_of (admitted E C data) (r :: rows)))
         (Sheets.append_Raw E (r :: rows))
         (ended E C t0 (fun _ => at_ (fun evs => page_persisted E C evs data))).
Proof.
  unfold Sheets.append_Raw.
  apply (call_turn _ _ _
           (fun evs => looking_up evs data
                       /\ Forall2 row_of (admitted E C data) (r :: rows))
           (fun _ evs => page_persisted E C evs data)).
  - reflexivity.
  - reflexivity.
  - intros evs rs [H Hrows]. now exists data.
  - intros evs n w [H Hrows]. now apply persisted_snoc.
Qed.

Lemma commit_turn data :
  triple (at_ (fun evs => page_persisted E C evs data))
         (Sheets.update_State E (end_time data))
         (ended E C t0 (fun _ => steady)).
Proof.
  unfold Sheets.update_State.
  apply (call_turn _ _ _ (fun evs => page_persisted E C evs data)
           (fun _ _ => True)); auto.
  intros evs rs H. now exists data.
Qed.

Lemma fetch_turn nextUrl cursor :
  triple steady (fetch_feed E nextUrl cursor)
         (ended E C t0 (fun data => at_ (fun evs => looking_up evs data))).
Proof.
  unfold fetch_feed.
  apply (call_turn _ _ _ (fun _ => True) (fun data evs => looking_up evs data)).
  - reflexivity.
  - reflexivity.
  - intros; exact Logic.I.
  - intros evs n w _.
    exists evs, nextUrl, cursor, []. split; [reflexivity | constructor].
Qed.

Lemma loop_turn fuel :
  forall nextUrl st,
    triple steady (loop E C fuel nextUrl st) (ended E C t0 (fun _ => steady)).
Proof.
  induction fuel as [|fuel IH]; intros nextUrl st; cbn [loop];
    (destruct (truthy nextUrl); [|apply triple_ret; auto]).
  - intros w Hw. exact Hw.
  - apply ended_bind with (Q := fun data => at_ (fun evs => looking_up evs data));
      [apply fetch_turn | intros data].
    eapply ended_bind; [apply (for_tickets_turn data _ [] _)|].
    intros [rows last]. cbn [fst app]. fold (admitted E C data).
    apply ended_bind
      with (Q := fun _ => at_ (fun evs => page_persisted E C evs data)).
    { destruct rows as [|r rows].
      - apply triple_ret. intros w Hw. cbn [ended].
        eapply at_turn_weaken; [|exact Hw].
        intros evs (H & new & <- & Hnew). now apply persisted_nil.
      - apply ended_bind
          with (Q := fun _ => at_ (fun evs => page_persisted E C evs data)).
        + eapply triple_conseq; [apply (append_turn data r rows) | | auto].
          intros w Hw. eapply at_turn_weaken; [|exact Hw].
          intros evs (H & new & <- & Hnew). now split.
        + intros _. apply triple_ret. auto. }
    intros saved.
    apply ended_bind with (Q := fun _ => steady); [apply commit_turn | intros _].
    apply ended_bind with (Q := fun _ => steady); [apply log_turn | intros _].
    destruct (breaks C data); [apply triple_ret; auto | apply IH].
Qed.

Lemma share_turn exportId l :
  triple steady (share E exportId l) (ended E C t0 (fun _ => steady)).
Proof.
  induction l as [|x l IH]; cbn [share].
  - apply triple_ret. auto.
  - apply ended_bind with (Q := fun _ => steady); [any_turn | intros _; exact IH].
Qed.

(** The steps of a finalization, of whichever variant. *)
Ltac finalize_steps :=
  repeat (first
    [ apply log_turn
    | apply share_turn
    | any_turn
    | apply triple_ret; solve [auto]
    | match goal with |- triple _ (match ?l with [] => _ | _ :: _ => _ end) _ =>
        destruct l end
    | apply ended_bind with (Q := fun _ => steady); [|intro] ]).

Lemma finalize_turn st :
  triple steady (finalize E C st) (ended E C t0 (fun _ => steady)).
Proof.
  unfold finalize, Sheets.get_Raw, Sheets.clear_State, Sheets.clear_Raw.
  finalize_steps.
Qed.

Lemma run_turn fuel :
  triple steady (run E C fuel) (ended E C t0 (fun _ => steady)).
Proof.
  unfold run, Sheets.get_State.
  apply ended_bind with (Q := fun _ => steady); [any_turn | intros rows].
  apply ended_bind with (Q := fun _ => steady); [apply loop_turn | intros st].
  apply finalize_turn.
Qed.

Lemma Batch_finalize_turn st :
  triple steady (Batch.finalize E C st) (ended E C t0 (fun _ => steady)).
Proof.
  unfold Batch.finalize, Sheets.get_Raw, Sheets.clear_State, Sheets.clear_Raw.
  finalize_steps.
Qed.

Lemma Batch_run_turn fuel :
  triple steady (Batch.run E C fuel) (ended E C t0 (fun _ => steady)).
Proof.
  unfold Batch.run, Sheets.get_State.
  apply ended_bind with (Q := fun _ => steady); [any_turn | intros rows].
  destruct (Batch.read_state rows (startTimestamp C)) as [cp isFreshRun].
  apply ended_bind with (Q := fun _ => steady).
  { destruct isFreshRun; [|apply triple_ret; auto].
    unfold Sheets.clear_Logs, Sheets.clear_Raw.
    apply ended_bind with (Q := fun _ => steady); [any_turn | intros _; any_turn]. }
  intros _.
  apply ended_bind with (Q := fun _ => steady); [apply loop_turn | intros st].
  destruct (ge (checkpoint st) (endTimestamp C));
    [apply Batch_finalize_turn | apply triple_ret; auto].
Qed.

(** The request of the auto-chaining handler to itself is no call on the
    services: when it throws, the calls made so far were all answered. *)
Lemma ended_then {A B} (m : M A) (k : A -> M B) P Q
    (Post : result B -> World -> Prop) :
  triple P m (ended E C t0 Q) ->
  (forall a, triple (Q a) (k a) Post) ->
  (forall msg w, thrown_with E C t0 msg w -> Post (Throw msg) w) ->
  (forall w, steady w -> Post OutOfFuel w) ->
  triple P (bind m k) Post.
Proof.
  intros Hm Hk Ht Hf w Hw. specialize (Hm w Hw). unfold bind.
  destruct (m w) as [[a|msg|] w1]; simpl in *; auto.
  now apply Hk.
Qed.

Lemma Chain_body_turn R recipients :
  triple steady (Chain.body E R C recipients)
         (fun r w => match r with
                     | Throw msg => thrown_with E C t0 msg w \/ steady w
                     | _ => steady w
                     end).
Proof.
  unfold Chain.body, Sheets.get_State.
  eapply ended_then with (Q := fun _ => steady); [any_turn | intros rows | auto | auto].
  eapply ended_then with (Q := fun data => at_ (fun evs => looking_up evs data));
    [apply fetch_turn | intros data | auto | auto].
  eapply ended_then; [apply (for_tickets_turn data _ [] _) | | auto | auto].
  intros [rows' last]. cbn [fst app]. fold (admitted E C data).
  eapply ended_then
    with (Q := fun _ => at_ (fun evs => page_persisted E C evs data));
    [| intros _ | auto | auto].
  { destruct rows' as [|r rows'].
    - apply triple_ret. intros w Hw. cbn [ended].
      eapply at_turn_weaken; [|exact Hw].
      intros evs (H & new & <- & Hnew). now apply persisted_nil.
    - eapply triple_conseq; [apply (append_turn data r rows') | | auto].
      intros w Hw. eapply at_turn_weaken; [|exact Hw].
      intros evs (H & new & <- & Hnew). now split. }
  eapply ended_then with (Q := fun _ => steady);
    [apply commit_turn | intros _ | auto | auto].
  destruct (ge (end_time data) (endTimestamp C)).
  - apply triple_conseq
      with (P' := steady) (Q' := ended E C t0 (fun _ => steady));
      [| auto | intros [r|msg|] w; cbn [ended]; auto].
    unfold Chain.finalize, Sheets.get_Raw, Sheets.clear_State, Sheets.clear_Raw.
    finalize_steps.
  - intros w Hw. unfold Chain.chain.
    destruct (fails E (List.length (trace w))) as [msg|]; cbn [fst snd]; auto.
Qed.

End Turns.

Lemma events_since_start w : events_since (trace w) w [].
Proof. unfold events_since. now rewrite app_nil_r. Qed.

Lemma at_turn_start E C w : at_turn E C (trace w) (fun _ => True) w.
Proof. exists []. rewrite app_nil_r. repeat split. Qed.

(** What the turns give for a whole run of [export.js]: every call is made
    in its turn; and either every call was answered, or one call threw, the
    run ended there, and the handler of the top level logged the error as
    the last call. *)
Lemma main_turns E C fuel w :
  exists evs,
    events_since (trace w) (snd (main E C fuel w)) evs
    /\ each_after (in_turn E C) [] evs
    /\ ((calm evs /\ fst (main E C fuel w) <> Exit 1)
        \/ (exists before rq msg rs,
               evs = (before
                        ++ [ (rq, Threw msg);
                             (AppendLog
                                (error_entry E C (S (List.length (trace w ++ before))) msg),
                              rs) ])%list
               /\ calm before
               /\ fst (main E C fuel w) = Exit 1)).
Proof.
  unfold main. destruct (negb (truthy (str (monthStr C)))).
  { exists []. split; [apply events_since_start|]. split; [exact Logic.I|].
    left. split; [reflexivity | discriminate]. }
  pose proof (run_turn E C (trace w) fuel w (at_turn_start E C w)) as H.
  destruct (run E C fuel w) as [[[]|msg|] w1]; cbn [ended fst snd] in *.
  - destruct H as (evs & Ht & Hc & Ho & _). exists evs. split; [exact Ht|].
    split; [exact Ho|]. left. split; [exact Hc | discriminate].
  - destruct H as (evs & Ht & before & rq & -> & Hc & Ho).
    assert (Hn : List.length (trace w1) = S (List.length (trace w ++ before)))
      by (rewrite Ht, !length_app; simpl; now rewrite Nat.add_1_r, Nat.add_succ_r).
    assert (Hlog : exists rs,
               trace (snd (log E C ("ERROR: " ++ msg) (str "UNKNOWN") 0 0 (str "FAIL") w1))
               = (trace w1
                    ++ [(AppendLog (error_entry E C (List.length (trace w1)) msg), rs)])%list).
    { unfold log, Sheets.append_Logs.
      match goal with |- context [call ?e ?q ?s ?f w1] =>
        destruct (call_cases e q s f w1) as [(m & _ & ->)|[_ ->]] end;
        eexists; reflexivity. }
    destruct Hlog as (rs & Hlog). rewrite Hn in Hlog.
    exists ((before ++ [(rq, Threw msg)])
              ++ [(AppendLog (error_entry E C (S (List.length (trace w ++ before))) msg),
                   rs)])%list.
    split; [unfold events_since; rewrite Hlog, Ht; symmetry; apply app_assoc|].
    split; [apply each_after_snoc; [exact Ho | exact Logic.I]|].
    right. exists before, rq, msg, rs. rewrite <- app_assoc. now split.
  - destruct H as (evs & Ht & Hc & Ho & _). exists evs. split; [exact Ht|].
    split; [exact Ho|]. left. split; [exact Hc | discriminate].
Qed.

(** For a run of the batch script: either every call was answered, or the
    last one threw. *)
Lemma Batch_run_turns E C fuel w :
  exists evs,
    events_since (trace w) (snd (Batch.run E C fuel w)) evs
    /\ each_after (in_turn E C) [] evs
    /\ (calm evs
        \/ exists before rq msg,
             evs = (before ++ [(rq, Threw msg)])%list /\ calm before).
Proof.
  pose proof (Batch_run_turn E C (trace w) fuel w (at_turn_start E C w)) as H.
  destruct (Batch.run E C fuel w) as [[[]|msg|] w1]; cbn [ended fst snd] in *.
  - destruct H as (evs & Ht & Hc & Ho & _). exists evs. auto.
  - destruct H as (evs & Ht & before & rq & -> & Hc & Ho).
    eexists. split; [exact Ht|]. split; [exact Ho|]. right. now exists before, rq, msg.
  - destruct H as (evs & Ht & Hc & Ho & _). exists evs. auto.
Qed.

Lemma Chain_handler_turns E R C w :
  exists evs,
    events_since (trace w) (snd (Chain.handler E R C w)) evs
    /\ each_after (in_turn E C) [] evs
    /\ (calm evs
        \/ exists before rq msg,
             evs = (before ++ [(rq, Threw msg)])%list /\ calm before).
Proof.
  unfold Chain.handler.
  assert (Hnone : exists evs : list event,
             events_since (trace w) w evs
             /\ each_after (in_turn E C) [] evs
             /\ (calm evs
                 \/ exists before rq msg,
                      evs = (before ++ [(rq, Threw msg)])%list /\ calm before)).
  { exists []. split; [apply events_since_start|]. split; [exact Logic.I|]. now left. }
  destruct (Chain.setup_error R); [exact Hnone|].
  destruct (Chain.RECIPIENTS C) as [recipients|]; [|exact Hnone].
  assert (Hbody :
    exists evs,
      events_since (trace w)
        (snd (match Chain.body E R C recipients w with
              | (Ok r, w') => (r, w')
              | (Throw msg, w') => (Chain.Error msg, w')
              | (OutOfFuel, w') => (Chain.Error "", w')
              end)) evs
      /\ each_after (in_turn E C) [] evs
      /\ (calm evs
          \/ exists before rq msg,
               evs = (before ++ [(rq, Threw msg)])%list /\ calm before)).
  { pose proof (Chain_body_turn E C (trace w) R recipients w (at_turn_start E C w)) as H.
    destruct (Chain.body E R C recipients w) as [[r|msg|] w1]; cbn [fst snd] in *.
    - destruct H as (evs & Ht & Hc & Ho & _). exists evs. auto.
    - destruct H as [(evs & Ht & before & rq & -> & Hc & Ho)|(evs & Ht & Hc & Ho & _)].
      + eexists. split; [exact Ht|]. split; [exact Ho|]. right.
        now exists before, rq, msg.
      + exists evs. auto.
    - destruct H as (evs & Ht & Hc & Ho & _). exists evs. auto. }
  destruct (Chain.query_month R); [exact Hbody | exact Hbody | exact Hnone].
Qed.

(** A run that ends with the call that threw commits after write. *)
Lemma turns_commit_after_write E C evs :
  each_after (in_turn E C) [] evs ->
  (calm evs
   \/ exists before rq msg, evs = (before ++ [(rq, Threw msg)])%list /\ calm before) ->
  commit_after_write E C evs.
Proof.
  intros Ho Hend. split.
  - intros before cp rs later ->. exact (each_after_split _ _ _ _ Ho).
  - intros before rows msg later Heq cp rs Hin.
    destruct Hend as [Hc|(b & rq & m & Hb & Hc)].
    + pose proof (calm_no_throw _ _ _ _ Hc Heq) as H. discriminate H.
    + rewrite Hb in Heq.
      destruct (thrown_last b _ _ _ _ Hc Heq eq_refl) as (_ & _ & ->).
      contradiction.
Qed.


(** A checkpoint written right after the fetch of a page that admits a
    ticket is no commit after write. *)
Example early_commit_is_refused :
  let E := Sample.quiet Sample.scenario_page Sample.talk in
  ~ commit_after_write E Sample.december
      [ (FetchFeed (str Sample.december_first_url) (Some 1764547200),
         GotPage Sample.scenario_page);
        (UpdateState (Some 1767225600), Done) ].
Proof.
  intros E [H _].
  destruct (H [ (FetchFeed (str Sample.december_first_url) (Some 1764547200),
                 GotPage Sample.scenario_page) ]
              (Some 1767225600) Done [] eq_refl)
    as (data & (earlier & url & cursor & lookups & rows & Heq & _ & Hrows) & _).
  destruct earlier as [|e earlier]; cbn [app] in Heq.
  - injection Heq as _ _ <- Heq.
    destruct lookups; [|discriminate Heq]. destruct rows; [|discriminate Heq].
    vm_compute in Hrows. inversion Hrows.
  - injection Heq as _ Heq. now destruct earlier.
Qed.

(** ** Lookups: answered without data, or not answered *)

(** The row of a ticket whose lookups are answered. *)
Lemma enrich_answered E C t w :
  (truthy (ticket_requester_id t) = true -> fails E (List.length (trace w)) = None) ->
  fails E (if truthy (ticket_requester_id t)
           then S (List.length (trace w)) else List.length (trace w)) = None ->
  exists w',
    enrich E C t w
    = (Ok [ ticket_id t; ticket_created_at t;
            (if truthy (ticket_requester_id t)
             then or_else (user_email (users E (List.length (trace w))
                                         (user_url C (ticket_requester_id t))))
                          (str "N/A")
             else str "N/A");
            or_else (ticket_via_channel t) (str "");
            or_else (ticket_subject t) (str "");
            str (formattedComments (ticket_requester_id t)
                   (ticket_comments E
                      (if truthy (ticket_requester_id t)
                       then S (List.length (trace w)) else List.length (trace w))
                      (comments_url C (ticket_id t)))) ], w')
    /\ same_sheets w w'.
Proof.
  intros F0 F1. unfold enrich. destruct (truthy (ticket_requester_id t)).
  - unfold fetch_user. erewrite bind_Ok
      by (erewrite bind_Ok by (apply call_None; now apply F0); reflexivity).
    unfold fetch_comments.
    erewrite bind_Ok by (apply call_None; clock).
    cbn [snd fst logged trace]. rewrite length_app. cbn [List.length].
    rewrite Nat.add_1_r. eexists. split; [reflexivity|]. repeat split.
  - unfold fetch_comments. erewrite bind_Ok by (reflexivity).
    erewrite bind_Ok by (apply call_None; exact F1).
    eexists. split; [reflexivity|]. repeat split.
Qed.

(** C8 (as [export.js] has it).  A lookup that is answered, with or without
    the data asked for, never stops the batch: the ticket's row is pushed
    and the loop goes on to the next ticket, nothing is written to the
    spreadsheet, the audit log included; a user without an address (or a
    ticket without a requester) gives "N/A" in the third cell, and a reply
    without comments gives the empty digest in the sixth.  A lookup that
    throws ends the run: it comes after nothing but answered lookups since
    the page was fetched, so that no row of the page is staged and no
    checkpoint written for it; the only call after it is the append to the
    audit log of the entry [ERROR: <message>] with checkpoint UNKNOWN,
    counts 0 and last-record FAIL, an entry made of the time, the month and
    the message alone; and the process exits with code 1. *)
Theorem lookup_failure_policy :
  forall (E : Env) (C : Config),
    (forall t rest rows last w,
        in_window C (createdTs E t) = true ->
        (truthy (ticket_requester_id t) = true ->
         fails E (List.length (trace w)) = None) ->
        fails E (if truthy (ticket_requester_id t)
                 then S (List.length (trace w)) else List.length (trace w)) = None ->
        exists r w',
          for_tickets E C (t :: rest) rows last w
          = for_tickets E C rest (rows ++ [r])%list (ticket_id t) w'
          /\ same_sheets w w'
          /\ row_of t r
          /\ (truthy (ticket_requester_id t) = false
              \/ truthy (user_email (users E (List.length (trace w))
                                       (user_url C (ticket_requester_id t)))) = false ->
              nth 2 r undefined = str "N/A")
          /\ (comments (ticket_comments E
                          (if truthy (ticket_requester_id t)
                           then S (List.length (trace w)) else List.length (trace w))
                          (comments_url C (ticket_id t))) = None ->
              nth 5 r undefined = str ""))
    /\ (forall fuel w,
        exists evs,
          events_since (trace w) (snd (main E C fuel w)) evs
          /\ forall before rq msg later,
               evs = (before ++ (rq, Threw msg) :: later)%list ->
               (exists url, rq = FetchUser url \/ rq = FetchComments url) ->
               fst (main E C fuel w) = Exit 1
               /\ (exists data, looking_up before data)
               /\ exists rs,
                   later
                   = [ (AppendLog
                          [ str (now E (S (List.length (trace w ++ before))));
                            str (monthStr C); str "UNKNOWN"; number (Some 0);
                            number (Some 0); str "FAIL"; str ("ERROR: " ++ msg) ],
                        rs) ]).
Proof.
  intros E C. split.
  - intros t rest rows last w Hin F0 F1.
    destruct (enrich_answered E C t w F0 F1) as (w' & He & Hs).
    eexists _, w'. split; [|split; [exact Hs|split; [|split]]].
    + cbn [for_tickets]. rewrite Hin. erewrite bind_Ok by exact He. reflexivity.
    + eexists _, _. reflexivity.
    + cbn [nth]. intros [H|H]; rewrite ?H; [reflexivity|].
      destruct (truthy (ticket_requester_id t)); [|reflexivity].
      unfold or_else. now rewrite H.
    + cbn [nth]. intros H. unfold formattedComments, publicComments. now rewrite H.
  - intros fuel w.
    destruct (main_turns E C fuel w) as (evs & Ht & Ho & Hend).
    exists evs. split; [exact Ht|].
    intros before rq msg later Heq (url & Hrq).
    destruct Hend as [[Hc _]|(b & rq' & m & rs & Hb & Hc & Hexit)].
    + pose proof (calm_no_throw _ _ _ _ Hc Heq) as H. discriminate H.
    + pose proof Ho as Hturn. rewrite Heq in Hturn.
      apply each_after_split in Hturn. rewrite Hb in Heq.
      destruct (thrown_split b _ _ _ _ _ Hc Heq eq_refl)
        as [(-> & Hz & ->)|(_ & Hz & _)].
      * injection Hz as -> ->. split; [exact Hexit|]. split.
        -- destruct Hrq as [->| ->]; exact Hturn.
        -- now exists rs.
      * destruct Hrq as [->| ->]; discriminate Hz.
Qed.

(** ** The locals of [run] mirror its trace *)

Section Mirror.

Variables (E : Env) (C : Config) (w0 : World).
Variables (base : list row) (guard : num -> bool) (fresh_rows : state_rows -> bool).

Let P : list event -> event -> Prop := in_order base guard fresh_rows.

Let Inv (F Sv : nat) (evs : list event) : Prop :=
  each_after P [] evs /\ fetched evs = F /\ saved evs = Sv.

Let Raw (evs : list event) : Prop :=
  Tickets_Raw (replay evs w0) = (base ++ appended evs)%list.

Let Thr : World -> Prop := after w0 (each_after P []).

Lemma Inv_snoc F Sv evs ev :
  Inv F Sv evs -> P evs ev -> pages [ev] = [] -> appended [ev] = [] ->
  Inv F Sv (evs ++ [ev]).
Proof.
  intros (H1 & H2 & H3) HP Hp Ha. split; [now apply each_after_snoc|].
  rewrite fetched_snoc, saved_snoc, Hp, Ha. simpl. split; lia.
Qed.

Lemma Raw_snoc evs ev :
  Raw evs -> appended [ev] = [] ->
  (forall w, Tickets_Raw (played ev w) = Tickets_Raw w) ->
  Raw (evs ++ [ev]).
Proof.
  unfold Raw. intros H Ha Hw.
  now rewrite replay_snoc, Hw, H, appended_app, Ha, app_nil_r.
Qed.

Lemma lookups_kept F Sv evs rq rs :
  match rq with FetchUser _ | FetchComments _ => True | _ => False end ->
  Inv F Sv evs /\ Raw evs -> Inv F Sv (evs ++ [(rq, rs)]) /\ Raw (evs ++ [(rq, rs)]).
Proof.
  intros Hk [HI HR].
  destruct rq; try contradiction;
    (split; [apply Inv_snoc | apply Raw_snoc]; auto; try reflexivity).
Qed.

Lemma loop_mirror fuel :
  forall nextUrl st (T : bool),
    triple (after w0 (fun evs =>
              Inv (totalFetched st) (totalSaved st) evs /\ Raw evs
              /\ (T = true -> turned (checkpoint st) evs)))
           (loop E C fuel nextUrl st)
           (post Thr (fun st' => after w0 (fun evs =>
              Inv (totalFetched st') (totalSaved st') evs /\ Raw evs
              /\ (T = true \/ truthy nextUrl = true -> turned (checkpoint st') evs)))).
Proof.
  induction fuel as [|fuel IH]; intros nextUrl st T; simpl;
    (destruct (truthy nextUrl) eqn:Hurl;
     [|apply triple_ret; intros w Hw; simpl; eapply after_weaken; [|exact Hw];
       intros evs (HI & HR & HT); repeat split; try apply HI; auto;
       intros [?|?]; [auto | discriminate]]).
  - intros w Hw. simpl. eapply after_weaken; [|exact Hw]. intros evs (HI & _). apply HI.
  - unfold fetch_feed.
    apply triple_bind
      with (Q := fun data => after w0 (fun evs =>
                   Inv (totalFetched st + List.length (page_tickets data))
                       (totalSaved st) evs /\ Raw evs)).
    { apply (after_call E _ _ _ w0 _ (each_after P [])
               (fun data evs =>
                  Inv (totalFetched st + List.length (page_tickets data))
                      (totalSaved st) evs /\ Raw evs)).
      - reflexivity.
      - intros evs msg (HI & _) _. apply each_after_snoc; [apply HI | exact Logic.I].
      - intros evs ((H1 & H2 & H3) & HR & _) _. cbn [fst snd]. split.
        + split; [apply each_after_snoc; [exact H1 | exact Logic.I]|].
          rewrite fetched_snoc, saved_snoc. simpl. rewrite app_nil_r. split; lia.
        + apply Raw_snoc; auto. }
    intros data.
    apply triple_bind
      with (Q := fun (_ : list row * value) => after w0 (fun evs =>
                   Inv (totalFetched st + List.length (page_tickets data))
                       (totalSaved st) evs /\ Raw evs)).
    { eapply triple_throws.
      - apply (for_tickets_kept E C w0 _
                 (fun rq => match rq with
                            | FetchUser _ | FetchComments _ => True
                            | _ => False
                            end)); [|exact (fun _ => Logic.I)|exact (fun _ => Logic.I)].
        intros evs rq rs Hk HS. now apply lookups_kept.
      - intros w Hw. eapply after_weaken; [|exact Hw]. intros evs (HI & _). apply HI. }
    intros [rows last].
    apply triple_bind
      with (Q := fun saved => after w0 (fun evs =>
                   Inv (totalFetched st + List.length (page_tickets data)) saved evs
                   /\ Raw evs)).
    { destruct rows as [|r rows].
      - apply triple_ret. auto.
      - apply triple_bind
          with (Q := fun _ => after w0 (fun evs =>
                       Inv (totalFetched st + List.length (page_tickets data))
                           (totalSaved st + List.length (r :: rows)) evs
                       /\ Raw evs)).
        + unfold Sheets.append_Raw.
          apply (after_call E _ _ _ w0 _ (each_after P [])
                   (fun _ evs =>
                      Inv (totalFetched st + List.length (page_tickets data))
                          (totalSaved st + List.length (r :: rows)) evs
                      /\ Raw evs)).
          * reflexivity.
          * intros evs msg (HI & _) _. apply each_after_snoc; [apply HI | exact Logic.I].
          * intros evs ((H1 & H2 & H3) & HR) _. cbn [fst snd]. split.
            -- split; [apply each_after_snoc; [exact H1 | exact Logic.I]|].
               rewrite fetched_snoc, saved_snoc. cbn [pages appended flat_map].
               rewrite !app_nil_r. simpl. split; lia.
            -- unfold Raw in *. rewrite replay_snoc, appended_app.
               cbn [appended flat_map played effect_of fst snd logged with_Raw Tickets_Raw].
               now rewrite HR, app_nil_r, app_assoc.
        + intros _. apply triple_ret. auto. }
    intros saved.
    apply triple_bind
      with (Q := fun _ => after w0 (fun evs =>
                   Inv (totalFetched st + List.length (page_tickets data)) saved evs
                   /\ Raw evs
                   /\ exists evs0, evs = (evs0 ++ [(UpdateState (end_time data), Done)])%list)).
    { unfold Sheets.update_State.
      apply (after_call E _ _ _ w0 _ (each_after P [])
               (fun _ evs =>
                  Inv (totalFetched st + List.length (page_tickets data)) saved evs
                  /\ Raw evs
                  /\ exists evs0,
                      evs = (evs0 ++ [(UpdateState (end_time data), Done)])%list)).
      - reflexivity.
      - intros evs msg (HI & _) _. apply each_after_snoc; [apply HI | exact Logic.I].
      - intros evs (HI & HR) _. cbn [fst snd]. split; [|split].
        + apply Inv_snoc; auto. exact Logic.I.
        + apply Raw_snoc; auto.
        + now exists evs. }
    intros _.
    apply triple_bind
      with (Q := fun _ => after w0 (fun evs =>
                   Inv (totalFetched st + List.length (page_tickets data)) saved evs
                   /\ Raw evs /\ turned (end_time data) evs)).
    { apply log_after.
      - intros evs n msg ((H1 & H2 & H3) & HR & evs0 & Hevs).
        apply each_after_snoc; [exact H1|]. split.
        + intros _. split; [split; simpl; congruence|]. now exists evs0, (end_time data).
        + discriminate.
      - intros evs n ((H1 & H2 & H3) & HR & evs0 & Hevs). split; [|split].
        + apply Inv_snoc; [now repeat split| |reflexivity|reflexivity]. split.
          * intros _. split; [split; simpl; congruence|]. now exists evs0, (end_time data).
          * discriminate.
        + apply Raw_snoc; auto.
        + subst evs. eexists evs0, _. now rewrite <- app_assoc. }
    intros _. destruct (breaks C data).
    + apply triple_ret. intros w Hw. simpl. eapply after_weaken; [|exact Hw].
      intros evs (HI & HR & HT). auto.
    + eapply triple_conseq; [apply (IH (next_page data) _ true) | |].
      * intros w Hw. eapply after_weaken; [|exact Hw]. cbn [totalFetched totalSaved checkpoint].
        intros evs (HI & HR & HT). auto.
      * intros [st'|msg|] w; simpl; auto. intros Hw. eapply after_weaken; [|exact Hw].
        intros evs (HI & HR & HT). auto.
Qed.

Lemma written_snoc evs ev : written evs -> written (evs ++ [ev]).
Proof.
  intros (id & values & Hin). exists id, values. apply in_or_app. now left.
Qed.

(** The script shared by the two finalizations, which differ in their
    list of recipients only. *)
Ltac finalize_pass st Hg :=
  apply triple_bind
    with (Q := fun _ => after w0 (fun evs => Inv (totalFetched st) (totalSaved st) evs /\ Raw evs));
    [ apply (after_call E _ _ _ w0 _ (each_after P [])
               (fun _ evs => Inv (totalFetched st) (totalSaved st) evs /\ Raw evs));
      [ reflexivity
      | intros evs msg (HI & _ & HT) _; apply each_after_snoc; [apply HI|];
        eexists; split; [exact HT | exact Hg]
      | intros evs (HI & HR & HT) _; cbn [fst snd]; split;
        [ apply Inv_snoc; auto; eexists; split; [exact HT | exact Hg]
        | apply Raw_snoc; auto ] ]
    | intros exportId ];
  apply triple_bind
    with (Q := fun rawData => after w0 (fun evs =>
                 Inv (totalFetched st) (totalSaved st) evs /\ rawData = (base ++ appended evs)%list));
    [ apply (after_call E _ _ _ w0 _ (each_after P [])
               (fun rawData evs =>
                  Inv (totalFetched st) (totalSaved st) evs /\ rawData = (base ++ appended evs)%list));
      [ reflexivity
      | intros evs msg (HI & _) _; apply each_after_snoc; [apply HI | exact Logic.I]
      | intros evs (HI & HR) _; cbn [fst snd]; split;
        [ apply Inv_snoc; auto; exact Logic.I
        | rewrite appended_app; cbn [appended flat_map]; rewrite app_nil_r;
          exact HR ] ]
    | intros rawData ];
  apply triple_bind
    with (Q := fun _ => after w0 (fun evs => Inv (totalFetched st) (totalSaved st) evs /\ written evs));
    [ apply (after_call E _ _ _ w0 _ (each_after P [])
               (fun _ evs => Inv (totalFetched st) (totalSaved st) evs /\ written evs));
      [ reflexivity
      | intros evs msg (HI & ->) _; apply each_after_snoc; [apply HI | reflexivity]
      | intros evs (HI & ->) _; cbn [fst snd]; split;
        [ apply Inv_snoc; auto; reflexivity
        | eexists _, _; apply in_or_app; right; left; reflexivity ] ]
    | intros _ ];
  apply triple_bind
    with (Q := fun _ => after w0 (fun evs => Inv (totalFetched st) (totalSaved st) evs /\ written evs));
    [ eapply triple_throws;
      [ apply share_kept; intros evs x rs (HI & HW); split;
        [ apply Inv_snoc; auto; exact Logic.I | now apply written_snoc ]
      | intros w Hw; eapply after_weaken; [|exact Hw]; intros evs (HI & _); apply HI ]
    | intros _ ];
  apply triple_bind
    with (Q := fun _ => after w0 (fun evs => Inv (totalFetched st) (totalSaved st) evs /\ written evs));
    [ match goal with
      | |- triple _ (match ?l with [] => _ | _ :: _ => _ end) _ => destruct l
      end;
      [ apply triple_ret; auto
      | apply (after_call E _ _ _ w0 _ (each_after P [])
                 (fun _ evs => Inv (totalFetched st) (totalSaved st) evs /\ written evs));
        [ reflexivity
        | intros evs msg (HI & _) _; apply each_after_snoc; [apply HI | exact Logic.I]
        | intros evs (HI & HW) _; cbn [fst snd]; split;
          [ apply Inv_snoc; auto; exact Logic.I | now apply written_snoc ] ] ]
    | intros _ ];
  apply triple_bind
    with (Q := fun _ => after w0 (fun evs =>
                 Inv (totalFetched st) (totalSaved st) evs /\ written evs
                 /\ exists evs0, evs = (evs0 ++ [(ClearState, Done)])%list));
    [ apply (after_call E _ _ _ w0 _ (each_after P [])
               (fun _ evs =>
                  Inv (totalFetched st) (totalSaved st) evs /\ written evs
                  /\ exists evs0, evs = (evs0 ++ [(ClearState, Done)])%list));
      [ reflexivity
      | intros evs msg (HI & HW) _; apply each_after_snoc; [apply HI | exact HW]
      | intros evs (HI & HW) _; cbn [fst snd]; split; [|split];
        [ apply Inv_snoc; auto | now apply written_snoc | now exists evs ] ]
    | intros _ ];
  apply triple_bind
    with (Q := fun _ => after w0 (fun evs =>
                 Inv (totalFetched st) (totalSaved st) evs
                 /\ exists evs0,
                     evs = (evs0 ++ [(ClearState, Done); (ClearRaw, Done)])%list));
    [ apply (after_call E _ _ _ w0 _ (each_after P [])
               (fun _ evs =>
                  Inv (totalFetched st) (totalSaved st) evs
                  /\ exists evs0,
                      evs = (evs0 ++ [(ClearState, Done); (ClearRaw, Done)])%list));
      [ reflexivity
      | intros evs msg (HI & HW & _) _; apply each_after_snoc; [apply HI | now left]
      | intros evs (HI & HW & evs0 & ->) _; cbn [fst snd]; split;
        [ apply Inv_snoc; auto; now left
        | exists evs0; now rewrite <- app_assoc ] ]
    | intros _ ];
  apply log_after;
    [ intros evs n msg ((H1 & H2 & H3) & _); apply each_after_snoc; [exact H1|];
      split; [discriminate | intros _; split; simpl; congruence]
    | intros evs n ((H1 & H2 & H3) & evs0 & ->); split;
      [ apply each_after_snoc; [exact H1|];
        split; [discriminate | intros _; split; simpl; congruence]
      | eexists evs0, _; split; [now rewrite <- app_assoc | reflexivity] ] ].

Lemma finalize_mirror st :
  guard (checkpoint st) = true ->
  triple (after w0 (fun evs =>
            Inv (totalFetched st) (totalSaved st) evs /\ Raw evs
            /\ turned (checkpoint st) evs))
         (finalize E C st)
         (post Thr (fun _ => after w0 (fun evs => each_after P [] evs /\ ends_clean evs))).
Proof.
  intros Hg. unfold finalize, Sheets.get_Raw, Sheets.clear_State, Sheets.clear_Raw.
  finalize_pass st Hg.
Qed.

Lemma Batch_finalize_mirror st :
  guard (checkpoint st) = true ->
  triple (after w0 (fun evs =>
            Inv (totalFetched st) (totalSaved st) evs /\ Raw evs
            /\ turned (checkpoint st) evs))
         (Batch.finalize E C st)
         (post Thr (fun _ => after w0 (fun evs => each_after P [] evs /\ ends_clean evs))).
Proof.
  intros Hg.
  unfold Batch.finalize, Sheets.get_Raw, Sheets.clear_State, Sheets.clear_Raw.
  finalize_pass st Hg.
Qed.

End Mirror.

Lemma error_status msg :
  ("ERROR: " ++ msg)%string = String "E" (String "R" ("ROR: " ++ msg)).
Proof. reflexivity. Qed.

Lemma run_mirror E C w0 fuel :
  triple (after w0 (fun evs => evs = []))
         (run E C fuel)
         (post (after w0 (each_after
                            (in_order (Tickets_Raw w0) (fun _ => true) (fun _ => false)) []))
               (fun _ => after w0 (fun evs =>
                  each_after (in_order (Tickets_Raw w0) (fun _ => true) (fun _ => false))
                             [] evs
                  /\ ends_clean evs))).
Proof.
  set (P := in_order (Tickets_Raw w0) (fun _ => true) (fun _ => false)).
  unfold run, Sheets.get_State.
  apply triple_bind
    with (Q := fun _ => after w0 (fun evs =>
                 (each_after P [] evs /\ fetched evs = 0%nat /\ saved evs = 0%nat)
                 /\ Tickets_Raw (replay evs w0) = (Tickets_Raw w0 ++ appended evs)%list
                 /\ (false = true -> turned (startTimestamp C) evs))).
  { apply (after_call E _ _ _ w0 _ (each_after P [])
             (fun _ evs =>
                (each_after P [] evs /\ fetched evs = 0%nat /\ saved evs = 0%nat)
                /\ Tickets_Raw (replay evs w0) = (Tickets_Raw w0 ++ appended evs)%list
                /\ (false = true -> turned (startTimestamp C) evs))).
    - reflexivity.
    - intros evs msg -> _. unfold P, in_order. simpl. auto.
    - intros evs -> _. unfold P, in_order. simpl. rewrite app_nil_r. repeat split. discriminate. }
  intros rows.
  apply triple_bind
    with (Q := fun st => after w0 (fun evs =>
                 (each_after P [] evs /\ fetched evs = totalFetched st
                  /\ saved evs = totalSaved st)
                 /\ Tickets_Raw (replay evs w0) = (Tickets_Raw w0 ++ appended evs)%list
                 /\ turned (checkpoint st) evs)).
  { eapply triple_conseq.
    - apply (loop_mirror E C w0 (Tickets_Raw w0) (fun _ => true) (fun _ => false)
               fuel _ (mkLocals (read_checkpoint rows (startTimestamp C)) 0 0 null)
               false).
    - intros w Hw. eapply after_weaken; [|exact Hw]. simpl.
      intros evs (HI & HR & HT). repeat split; try apply HI; auto; try discriminate.
    - intros [st|msg|] w; simpl; auto. intros Hw. eapply after_weaken; [|exact Hw].
      intros evs (HI & HR & HT). repeat split; try apply HI; auto;
        try (apply HT; right; apply first_url_truthy). }
  intros st. now apply finalize_mirror.
Qed.

Lemma main_mirror E C fuel w :
  after w (fun evs =>
             each_after (in_order (Tickets_Raw w) (fun _ => true) (fun _ => false)) [] evs
             /\ (fst (main E C fuel w) = Exit 0 -> monthStr C <> "" -> ends_clean evs))
        (snd (main E C fuel w)).
Proof.
  set (P := in_order (Tickets_Raw w) (fun _ => true) (fun _ => false)).
  unfold main. simpl truthy.
  destruct (String.eqb_spec (monthStr C) "") as [Heq|Hne]; simpl negb; cbv iota.
  - apply after_start. simpl. split; [exact Logic.I | contradiction].
  - pose proof (run_mirror E C w fuel w (after_start _ w eq_refl)) as Hr.
    destruct (run E C fuel w) as [[[]|msg|] w1]; simpl in *.
    + eapply after_weaken; [|exact Hr]. intros evs [H1 H2]. auto.
    + assert (Hl : triple (after w (each_after P []))
                     (log E C ("ERROR: " ++ msg) (str "UNKNOWN") 0 0 (str "FAIL"))
                     (post (after w (each_after P []))
                           (fun _ => after w (each_after P [])))).
      { apply log_after; intros evs n; intros; (apply each_after_snoc; [assumption|]);
          (split; intros Hs; unfold status in Hs; simpl in Hs;
           rewrite error_status in Hs; discriminate Hs). }
      specialize (Hl w1 Hr).
      destruct (log E C _ _ _ _ _ w1) as [[[]|msg'|] w2]; simpl in *;
        (eapply after_weaken; [|exact Hl]); intros evs H; (split; [exact H | discriminate]).
    + eapply after_weaken; [|exact Hr]. intros evs H. split; [exact H | discriminate].
Qed.

Lemma Batch_run_mirror E C w0 fuel :
  let fresh_rows := fun rows => snd (Batch.read_state rows (startTimestamp C)) in
  let base := if fresh_rows (State w0) then [] else Tickets_Raw w0 in
  let P := in_order base (fun cp => ge cp (endTimestamp C)) fresh_rows in
  triple (after w0 (fun evs => evs = []))
         (Batch.run E C fuel)
         (post (after w0 (each_after P [])) (fun _ => after w0 (each_after P []))).
Proof.
  intros fresh_rows base P.
  unfold Batch.run, Sheets.get_State.
  apply triple_bind
    with (Q := fun rows => after w0 (fun evs =>
                 evs = [(GetState, GotState rows)] /\ rows = State w0)).
  { apply (after_call E _ _ _ w0 _ (each_after P [])
             (fun rows evs => evs = [(GetState, GotState rows)] /\ rows = State w0)).
    - reflexivity.
    - intros evs msg -> _. unfold P, in_order. simpl. auto.
    - intros evs -> _. simpl. auto. }
  intros rows.
  destruct (Batch.read_state rows (startTimestamp C)) as [cp isFreshRun] eqn:Hread.
  assert (Hfresh : fresh_rows rows = isFreshRun) by (unfold fresh_rows; now rewrite Hread).
  apply triple_bind
    with (Q := fun _ => after w0 (fun evs =>
                 (each_after P [] evs /\ fetched evs = 0%nat /\ saved evs = 0%nat)
                 /\ Tickets_Raw (replay evs w0) = (base ++ appended evs)%list
                 /\ (false = true -> turned cp evs))).
  { destruct isFreshRun.
    - unfold Sheets.clear_Logs, Sheets.clear_Raw.
      apply triple_bind
        with (Q := fun _ => after w0 (fun evs =>
                     evs = [(GetState, GotState rows); (ClearLogs, Done)]
                     /\ rows = State w0)).
      + apply (after_call E _ _ _ w0 _ (each_after P [])
                 (fun _ evs => evs = [(GetState, GotState rows); (ClearLogs, Done)]
                               /\ rows = State w0)).
        * reflexivity.
        * intros evs msg [-> _] _. unfold P, in_order. simpl. repeat split. now exists rows.
        * intros evs [-> Hrows] _. simpl. auto.
      + intros _.
        apply (after_call E _ _ _ w0 _ (each_after P [])
                 (fun _ evs =>
                    (each_after P [] evs /\ fetched evs = 0%nat /\ saved evs = 0%nat)
                    /\ Tickets_Raw (replay evs w0) = (base ++ appended evs)%list
                    /\ (false = true -> turned cp evs))).
        * reflexivity.
        * intros evs msg [-> _] _. unfold P, in_order. simpl. repeat split; [now exists rows|].
          right. now exists rows.
        * intros evs [-> Hrows] _. unfold P, in_order. simpl. repeat split; try discriminate.
          -- now exists rows.
          -- right. now exists rows.
          -- unfold base. now rewrite <- Hrows, Hfresh.
    - apply triple_ret. intros w Hw. simpl. eapply after_weaken; [|exact Hw].
      intros evs [-> Hrows]. unfold P, in_order. simpl. repeat split; try discriminate.
      unfold base. rewrite <- Hrows, Hfresh. now rewrite app_nil_r. }
  intros _.
  apply triple_bind
    with (Q := fun st => after w0 (fun evs =>
                 (each_after P [] evs /\ fetched evs = totalFetched st
                  /\ saved evs = totalSaved st)
                 /\ Tickets_Raw (replay evs w0) = (base ++ appended evs)%list
                 /\ turned (checkpoint st) evs)).
  { eapply triple_conseq.
    - apply (loop_mirror E C w0 base (fun cp => ge cp (endTimestamp C)) fresh_rows
               fuel _ (mkLocals cp 0 0 null) false).
    - intros w Hw. exact Hw.
    - intros [st|msg|] w; simpl; auto. intros Hw. eapply after_weaken; [|exact Hw].
      intros evs (HI & HR & HT). repeat split; try apply HI; auto;
        try (apply HT; right; apply first_url_truthy). }
  intros st. destruct (ge (checkpoint st) (endTimestamp C)) eqn:Hge.
  - eapply triple_conseq.
    + apply (Batch_finalize_mirror E C w0 base (fun cp => ge cp (endTimestamp C))
               fresh_rows st Hge).
    + auto.
    + intros [[]|msg|] w; simpl; auto. intros Hw. eapply after_weaken; [|exact Hw].
      intros evs [H _]. exact H.
  - apply triple_ret. intros w Hw. simpl. eapply after_weaken; [|exact Hw].
    intros evs (HI & _). apply HI.
Qed.

Lemma main_in_order E C fuel w :
  exists evs,
    events_since (trace w) (snd (main E C fuel w)) evs
    /\ snd (main E C fuel w) = replay evs w
    /\ each_after (in_order (Tickets_Raw w) (fun _ => true) (fun _ => false)) [] evs
    /\ (fst (main E C fuel w) = Exit 0 -> monthStr C <> "" -> ends_clean evs).
Proof. apply after_events, main_mirror. Qed.

Lemma Batch_run_in_order E C fuel w :
  exists evs,
    events_since (trace w) (snd (Batch.run E C fuel w)) evs
    /\ each_after
         (in_order
            (if snd (Batch.read_state (State w) (startTimestamp C))
             then [] else Tickets_Raw w)
            (fun cp => ge cp (endTimestamp C))
            (fun rows => snd (Batch.read_state rows (startTimestamp C)))) [] evs.
Proof.
  pose proof (Batch_run_mirror E C w fuel w (after_start _ w eq_refl)) as H.
  assert (Ha : after w
                 (each_after
                    (in_order
                       (if snd (Batch.read_state (State w) (startTimestamp C))
                        then [] else Tickets_Raw w)
                       (fun cp => ge cp (endTimestamp C))
                       (fun rows => snd (Batch.read_state rows (startTimestamp C)))) [])
                 (snd (Batch.run E C fuel w)))
    by (destruct (Batch.run E C fuel w) as [[[]|msg|] w1]; exact H).
  apply after_events in Ha. destruct Ha as (evs & Hev & _ & HS). now exists evs.
Qed.

Lemma nth_put_row2 r rows : nth 1 (Sheets.put_row2 r rows) [] = r.
Proof. destruct rows as [|h [|x t]]; reflexivity. Qed.

Lemma read_after_clear rows cp :
  tidy rows = true -> read_checkpoint (Sheets.clear_row2 rows) cp = cp.
Proof.
  unfold tidy. intros H. apply andb_prop in H. destruct H as [Hh Ht].
  apply read_checkpoint_keyless.
  destruct rows as [|h [|x t]]; simpl in *; rewrite ?Hh; auto.
Qed.

Lemma tidy_played ev w : tidy (State w) = true -> tidy (State (played ev w)) = true.
Proof.
  intros H. destruct ev as [rq rs].
  destruct rq, rs; try exact H;
    cbn [played effect_of fst snd logged with_State State];
    first [now apply tidy_write | now apply tidy_put_row2].
Qed.

Lemma tidy_replay evs : forall w,
  tidy (State w) = true -> tidy (State (replay evs w)) = true.
Proof.
  induction evs as [|ev evs IH] using rev_ind; intros w H; [exact H|].
  rewrite replay_snoc. now apply tidy_played, IH.
Qed.

(** X4. A run of [export.js] that exits with code 0 leaves the spreadsheet
    ready for the next month: staging is empty, the second row of [State],
    where the checkpoint is kept, is empty, and the last entry of the audit
    log is the "Export Complete" row.  If, besides, no other row of [State]
    carried the key when the run began, a run started on the spreadsheet as
    it is left reads no checkpoint and starts from its own default. *)
Theorem clean_exit_clears_the_sheet :
  forall (E : Env) (C : Config) (fuel : nat) (w : World),
    monthStr C <> "" ->
    fst (main E C fuel w) = Exit 0 ->
    Tickets_Raw (snd (main E C fuel w)) = []
    /\ nth 1 (State (snd (main E C fuel w))) [] = []
    /\ (exists earlier entry,
           Logs (snd (main E C fuel w)) = (earlier ++ [entry])%list
           /\ status entry = str "Export Complete")
    /\ (tidy (State w) = true ->
        forall cp, read_checkpoint (State (snd (main E C fuel w))) cp = cp).
Proof.
  intros E C fuel w Hm Hexit.
  destruct (main_in_order E C fuel w) as (evs & _ & Hw & _ & Hclean).
  destruct (Hclean Hexit Hm) as (evs0 & entry & -> & Hstatus).
  rewrite Hw.
  change (evs0 ++ [(ClearState, Done); (ClearRaw, Done); (AppendLog entry, Done)])%list
    with (evs0 ++ [(ClearState, Done)] ++ [(ClearRaw, Done)]
            ++ [(AppendLog entry, Done)])%list.
  rewrite !app_assoc, !replay_snoc.
  split; [reflexivity|]. split; [apply nth_put_row2|]. split.
  - eexists _, entry. split; [reflexivity | exact Hstatus].
  - intros Htidy cp. cbn [played effect_of fst snd logged with_Logs with_Raw State].
    apply read_after_clear. now apply tidy_replay.
Qed.

(** X5. The report [export.js] writes holds the header row, then the rows
    that were in staging when the run began, then the rows the run itself
    appended, in that order: whatever the feed and the lookups answered,
    the values of the one [values.update] on the new file are exactly
    these. *)
Theorem report_holds_every_staged_row :
  forall (E : Env) (C : Config) (fuel : nat) (w : World),
    exists evs,
      events_since (trace w) (snd (main E C fuel w)) evs
      /\ forall before id values rs later,
           evs = (before ++ (WriteExport id values, rs) :: later)%list ->
           values = header :: (Tickets_Raw w ++ appended before)%list.
Proof.
  intros E C fuel w. destruct (main_in_order E C fuel w) as (evs & Hev & _ & Hall & _).
  exists evs. split; [exact Hev|]. intros before id values rs later ->.
  exact (each_after_split _ _ _ _ Hall).
Qed.

(** X6. The counts in the audit log of [export.js] are exact for the
    invocation.  A "Running" entry is logged right after the checkpoint
    write that succeeded, shows the cursor that was written, the number of
    tickets on the pages fetched so far in this run and the number of rows
    appended so far in this run; the "Export Complete" entry shows the same
    two totals for the whole run. *)
Theorem audit_counts_are_exact :
  forall (E : Env) (C : Config) (fuel : nat) (w : World),
    exists evs,
      events_since (trace w) (snd (main E C fuel w)) evs
      /\ forall before entry rs later,
           evs = (before ++ (AppendLog entry, rs) :: later)%list ->
           (status entry = str "Running" ->
            counts_of before entry
            /\ exists earlier cp,
                before = (earlier ++ [(UpdateState cp, Done)])%list
                /\ nth 2 entry undefined = number cp)
           /\ (status entry = str "Export Complete" -> counts_of before entry).
Proof.
  intros E C fuel w. destruct (main_in_order E C fuel w) as (evs & Hev & _ & Hall & _).
  exists evs. split; [exact Hev|]. intros before entry rs later ->.
  exact (each_after_split _ _ _ _ Hall).
Qed.

(** X7. [export.js] clears nothing before the report is written: a call
    that clears the checkpoint or the staging rows is made only after the
    [values.update] that filled the report was answered, in the same run;
    and the audit log is never cleared. *)
Theorem sheet_cleared_only_after_report_written :
  forall (E : Env) (C : Config) (fuel : nat) (w : World),
    exists evs,
      events_since (trace w) (snd (main E C fuel w)) evs
      /\ forall before rq rs later,
           evs = (before ++ (rq, rs) :: later)%list ->
           (rq = ClearState \/ rq = ClearRaw -> written before)
           /\ rq <> ClearLogs.
Proof.
  intros E C fuel w. destruct (main_in_order E C fuel w) as (evs & Hev & _ & Hall & _).
  exists evs. split; [exact Hev|]. intros before rq rs later ->.
  pose proof (each_after_split _ _ _ _ Hall) as H. unfold in_order in H. simpl in H.
  split.
  - intros [-> | ->]; [exact H|].
    destruct H as [H | (rows & _ & Hf)]; [exact H | discriminate].
  - intros ->. destruct H as (rows & _ & Hf). discriminate.
Qed.

(** ** The batch script *)

(** X8. The batch script stages what [export.js] stages.  Every append to
    [Tickets_Raw] made by its [run] carries at least one row; every row is
    whole, and its creation time, in seconds, lies in the window:
    [start <= created_at < end]. *)
Theorem batch_staging_rows_lie_in_window :
  forall (E : Env) (C : Config) (fuel : nat) (w : World),
    exists evs,
      events_since (trace w) (snd (Batch.run E C fuel w)) evs
      /\ forall rows rs, In (AppendRaw rows, rs) evs ->
           rows <> []
           /\ Forall whole_row rows
           /\ Forall (row_in_window E C) rows.
Proof.
  intros E C fuel w. destruct (Batch_run_requests E C fuel w) as (evs & Hev & _ & Hok).
  exists evs. split; [exact Hev|]. intros rows rs Hin.
  rewrite Forall_forall in Hok. specialize (Hok _ Hin). destruct Hok as [Hne Hrows].
  split; [exact Hne|].
  split; (eapply Forall_impl; [|exact Hrows]); intros r Hr;
    now apply staged_row_whole in Hr.
Qed.

(** X9. The batch script makes the report only when the cursor has reached
    the end of the window.  Whatever the services answer, the creation of
    the report file is attempted only right after a turn of the loop whose
    checkpoint write succeeded with a cursor at or above [endTimestamp] and
    whose "Running" entry was logged; in particular never when
    [endTimestamp] or the cursor is [NaN]. *)
Theorem batch_reports_only_past_window_end :
  forall (E : Env) (C : Config) (fuel : nat) (w : World),
    exists evs,
      events_since (trace w) (snd (Batch.run E C fuel w)) evs
      /\ forall before name rs later,
           evs = (before ++ (CreateFile name, rs) :: later)%list ->
           exists cp e,
             turned (Some cp) before /\ endTimestamp C = Some e /\ e <= cp.
Proof.
  intros E C fuel w. destruct (Batch_run_in_order E C fuel w) as (evs & Hev & Hall).
  exists evs. split; [exact Hev|]. intros before name rs later ->.
  destruct (each_after_split _ _ _ _ Hall) as (cp & Hturn & Hge).
  unfold ge in Hge. destruct cp as [cp|]; [|discriminate].
  destruct (endTimestamp C) as [e|]; [|discriminate].
  exists cp, e. repeat split; auto. now apply Z.leb_le.
Qed.

(** X10. What the batch script clears, and when.  It clears the audit log
    only as its second call, right after reading [State] rows that hold no
    checkpoint with a cursor (a fresh run); it clears the staging rows
    either right after that, before any page is fetched, or after the
    report was written; and it clears the checkpoint only after the report
    was written. *)
Theorem batch_clears_on_fresh_run_or_after_report :
  forall (E : Env) (C : Config) (fuel : nat) (w : World),
    exists evs,
      events_since (trace w) (snd (Batch.run E C fuel w)) evs
      /\ forall before rq rs later,
           evs = (before ++ (rq, rs) :: later)%list ->
           (rq = ClearLogs ->
            exists rows, before = [(GetState, GotState rows)]
                         /\ snd (Batch.read_state rows (startTimestamp C)) = true)
           /\ (rq = ClearRaw ->
               written before
               \/ exists rows,
                   before = [(GetState, GotState rows); (ClearLogs, Done)]
                   /\ snd (Batch.read_state rows (startTimestamp C)) = true)
           /\ (rq = ClearState -> written before).
Proof.
  intros E C fuel w. destruct (Batch_run_in_order E C fuel w) as (evs & Hev & Hall).
  exists evs. split; [exact Hev|]. intros before rq rs later ->.
  pose proof (each_after_split _ _ _ _ Hall) as H. unfold in_order in H. simpl in H.
  repeat split; intros ->; exact H.
Qed.

(** X11. The report of the batch script.  On a run that found a checkpoint
    with a cursor, the report holds the header, the rows that were in
    staging when the run began and the rows the run appended; on a fresh
    run, which starts by clearing the staging rows, it holds the header and
    the rows this run appended, and nothing of what was staged before. *)
Theorem batch_report_rows :
  forall (E : Env) (C : Config) (fuel : nat) (w : World),
    exists evs,
      events_since (trace w) (snd (Batch.run E C fuel w)) evs
      /\ forall before id values rs later,
           evs = (before ++ (WriteExport id values, rs) :: later)%list ->
           values
           = header :: ((if snd (Batch.read_state (State w) (startTimestamp C))
                         then [] else Tickets_Raw w) ++ appended before)%list.
Proof.
  intros E C fuel w. destruct (Batch_run_in_order E C fuel w) as (evs & Hev & Hall).
  exists evs. split; [exact Hev|]. intros before id values rs later ->.
  exact (each_after_split _ _ _ _ Hall).
Qed.

(** ** The recipients *)

Lemma append_cons c (a b : string) : (String c a ++ b)%string = String c (a ++ b).
Proof. reflexivity. Qed.

Lemma rev_string_acc s : forall acc,
  rev_string s acc = (rev_string s "" ++ acc)%string.
Proof.
  induction s as [|c s IH]; intros acc; [reflexivity|].
  cbn [rev_string]. rewrite (IH (String c acc)), (IH (String c "")).
  now rewrite append_assoc.
Qed.

Lemma rev_string_append a : forall b,
  rev_string (a ++ b) "" = (rev_string b "" ++ rev_string a "")%string.
Proof.
  induction a as [|c a IH]; intros b.
  - now rewrite append_empty_r.
  - rewrite append_cons. cbn [rev_string].
    rewrite (rev_string_acc (a ++ b)), (rev_string_acc a), IH.
    now rewrite append_assoc.
Qed.

Lemma rev_string_involutive s : rev_string (rev_string s "") "" = s.
Proof.
  induction s as [|c s IH]; [reflexivity|].
  cbn [rev_string]. rewrite (rev_string_acc s (String c "")), rev_string_append, IH.
  reflexivity.
Qed.

Lemma skip_spaces_ahead back : forall n s,
  (String.length s <= n)%nat ->
  space_ahead back (skip_spaces_from back s) = false
  /\ exists sp, s = (sp ++ skip_spaces_from back s)%string.
Proof.
  induction n as [|n IH]; intros s Hn.
  { destruct s; [|simpl in Hn; lia]. split; [reflexivity | now exists ""]. }
  destruct s as [|c1 s1]; [split; [reflexivity | now exists ""]|].
  cbn [skip_spaces_from]. simpl in Hn.
  destruct (is_space c1) eqn:H1.
  { destruct (IH s1 ltac:(lia)) as [Ha (sp & Hs)]. split; [exact Ha|].
    exists (String c1 sp). now rewrite append_cons, <- Hs. }
  destruct s1 as [|c2 s2].
  { split; [cbn [space_ahead]; now rewrite H1 | now exists ""]. }
  simpl in Hn.
  destruct (if back then is_space2 c2 c1 else is_space2 c1 c2) eqn:H2.
  { destruct (IH s2 ltac:(lia)) as [Ha (sp & Hs)]. split; [exact Ha|].
    exists (String c1 (String c2 sp)). now rewrite !append_cons, <- Hs. }
  destruct s2 as [|c3 s3].
  { split; [cbn [space_ahead]; now rewrite H1, H2 | now exists ""]. }
  simpl in Hn.
  destruct (if back then is_space3 c3 c2 c1 else is_space3 c1 c2 c3) eqn:H3.
  { destruct (IH s3 ltac:(lia)) as [Ha (sp & Hs)]. split; [exact Ha|].
    exists (String c1 (String c2 (String c3 sp))). now rewrite !append_cons, <- Hs. }
  split; [cbn [space_ahead]; now rewrite H1, H2, H3 | now exists ""].
Qed.

(** A string that begins with white space does so whatever follows it. *)
Lemma space_ahead_append back a b :
  space_ahead back (a ++ b) = false -> space_ahead back a = false.
Proof.
  destruct a as [|c1 [|c2 [|c3 a]]]; [reflexivity|..];
    rewrite ?append_cons; cbn [space_ahead String.append]; intros H.
  - apply orb_false_elim in H. destruct H as [-> _]. reflexivity.
  - apply orb_false_elim in H. destruct H as [-> H].
    destruct b as [|c3 b]; [exact H|].
    apply orb_false_elim in H. destruct H as [-> _]. reflexivity.
  - exact H.
Qed.

Lemma trim_is_trimmed s :
  leads_with_space (trim s) = false /\ trails_with_space (trim s) = false.
Proof.
  unfold trim, trails_with_space, leads_with_space, skip_spaces. split.
  - destruct (skip_spaces_ahead true _ (rev_string (skip_spaces_from false s) "")
                (Nat.le_refl _)) as [_ (sp & Hsp)].
    apply space_ahead_append with (b := rev_string sp "").
    rewrite <- rev_string_append, <- Hsp, rev_string_involutive.
    apply (skip_spaces_ahead false _ s (Nat.le_refl _)).
  - rewrite rev_string_involutive.
    apply (skip_spaces_ahead true _ _ (Nat.le_refl _)).
Qed.

Example trim_strips_white_space_outside_ASCII :
  let no_break_space := String "194" (String "160" "") in
  let byte_order_mark := String "239" (String "187" (String "191" "")) in
  trim (no_break_space ++ " ann@example.org" ++ byte_order_mark ++ " ")
  = "ann@example.org"
  /\ parseInt (Some (no_break_space ++ "42")) = Some 42.
Proof. split; reflexivity. Qed.

Lemma split_comma_length s : forall piece,
  List.length (split_comma s piece) = S (commas s).
Proof.
  unfold commas. induction s as [|c s IH]; intros piece; simpl; [reflexivity|].
  destruct (c =? ",")%char; simpl; now rewrite IH.
Qed.

Lemma split_comma_join s : forall piece,
  join "," (split_comma s piece) = (rev_string piece "" ++ s)%string.
Proof.
  induction s as [|c s IH]; intros piece; cbn [split_comma].
  - now rewrite join_cons.
  - destruct (Ascii.eqb_spec c ",") as [->|Hc].
    + rewrite join_cons, IH.
      destruct (split_comma s "") eqn:Hs; [|reflexivity].
      pose proof (split_comma_length s "") as Hl. rewrite Hs in Hl. discriminate.
    + rewrite IH. cbn [rev_string].
      rewrite (rev_string_acc piece (String c "")), append_assoc. reflexivity.
Qed.

(** X12. The recipients, as the two scripts read them from
    [EMAIL_RECIPIENTS].  The list is empty exactly when the variable is
    unset or empty.  Otherwise the batch script's list has one entry more
    than the variable has commas, empty entries included, and joining them
    with commas gives the variable back; the list of [export.js] is that
    list with every entry trimmed, so that no entry of it begins or ends
    with a white space character or a line terminator, those outside ASCII
    (the no-break space, the byte order mark and the like) included. *)
Theorem recipients_of_the_environment :
  forall C : Config,
    (RECIPIENTS C = [] <->
     EMAIL_RECIPIENTS C = None \/ EMAIL_RECIPIENTS C = Some "")
    /\ (forall s, EMAIL_RECIPIENTS C = Some s -> s <> "" ->
          List.length (Batch.RECIPIENTS C) = S (commas s)
          /\ join "," (Batch.RECIPIENTS C) = s)
    /\ RECIPIENTS C = map trim (Batch.RECIPIENTS C)
    /\ Forall (fun e => leads_with_space e = false /\ trails_with_space e = false)
              (RECIPIENTS C).
Proof.
  intros C. unfold RECIPIENTS, Batch.RECIPIENTS.
  destruct (EMAIL_RECIPIENTS C) as [s|].
  - simpl truthy. destruct (String.eqb_spec s "") as [->|Hs]; simpl negb; cbv iota.
    + split; [|split; [|split]]; auto.
      * split; auto.
      * intros s' [= <-] H. now contradiction H.
    + split; [|split; [|split]].
      * split.
        -- intros H. apply (f_equal (@List.length string)) in H.
           rewrite length_map, split_comma_length in H. discriminate.
        -- intros [H|[= H]]; [discriminate | contradiction].
      * intros s' [= <-] _. split; [apply split_comma_length | apply split_comma_join].
      * reflexivity.
      * apply Forall_forall. intros e He. apply in_map_iff in He.
        destruct He as (x & <- & _). apply trim_is_trimmed.
  - split; [|split; [|split]]; auto.
    + split; auto.
    + discriminate.
Qed.

(** ** The checkpoint cell, written and read back *)

Lemma read_state_keyless rows acc :
  forallb (fun r => negb (has_key r)) rows = true ->
  fold_left
    (fun (acc : num * bool) r =>
       match nth_error r 0, nth_error r 1 with
       | Some k, Some v =>
           if (k =? "checkpoint")%string && truthy (str v)
           then (parseInt (Some v), false)
           else acc
       | _, _ => acc
       end) rows acc = acc.
Proof.
  revert acc. induction rows as [|r rows IH]; intros acc H; [reflexivity|].
  simpl in H. apply andb_prop in H. destruct H as [Hr Hrows].
  cbn [fold_left]. rewrite IH by exact Hrows.
  unfold has_key in Hr. destruct (nth_error r 0) as [k|]; [|reflexivity].
  apply negb_true_iff in Hr. rewrite Hr. now destruct (nth_error r 1).
Qed.

Lemma string_of_Z_nonempty c : truthy (str (string_of_Z c)) = true.
Proof.
  pose proof (parseInt_string_of_Z c) as H.
  simpl. destruct (String.eqb_spec (string_of_Z c) "") as [Heq|]; [|reflexivity].
  rewrite Heq in H. discriminate H.
Qed.

Lemma read_state_after_write c rows cp :
  tidy rows = true ->
  Batch.read_state (Sheets.write_checkpoint (Some c) rows) cp = (Some c, false).
Proof.
  unfold tidy. intros H. apply andb_prop in H. destruct H as [Hh Ht].
  assert (Hrow : forall acc,
             (fun (acc : num * bool) r =>
                match nth_error r 0, nth_error r 1 with
                | Some k, Some v =>
                    if (k =? "checkpoint")%string && truthy (str v)
                    then (parseInt (Some v), false)
                    else acc
                | _, _ => acc
                end) acc ["checkpoint"; string_of_Z c] = (Some c, false)).
  { intros acc. cbn [nth_error]. rewrite string_of_Z_nonempty.
    cbn [String.eqb Ascii.eqb Bool.eqb andb parseInt].
    now rewrite parseInt_string_of_Z. }
  unfold Batch.read_state, Sheets.write_checkpoint.
  destruct rows as [|h [|x t]]; cbn [Sheets.put_row2 fold_left].
  - apply Hrow.
  - rewrite Hrow. reflexivity.
  - rewrite Hrow. simpl in Ht. now apply read_state_keyless.
Qed.

(** X13. The checkpoint survives the spreadsheet.  In a [State] region in
    which only the second row may carry the key, a cursor written by the
    checkpoint update, any integer, is the cursor the next invocation reads:
    [export.js] reads it whatever its default, and so does the batch script,
    which then does not take the run for a fresh one.  Once the row is
    cleared, both read their default again, and the batch script runs
    afresh. *)
Theorem checkpoint_round_trip :
  forall (rows : state_rows) (c : Z) (cp : num),
    tidy rows = true ->
    read_checkpoint (Sheets.write_checkpoint (Some c) rows) cp = Some c
    /\ Batch.read_state (Sheets.write_checkpoint (Some c) rows) cp = (Some c, false)
    /\ read_checkpoint
         (Sheets.clear_row2 (Sheets.write_checkpoint (Some c) rows)) cp = cp
    /\ Batch.read_state
         (Sheets.clear_row2 (Sheets.write_checkpoint (Some c) rows)) cp = (cp, true).
Proof.
  intros rows c cp Htidy. split; [|split; [|split]].
  - now apply read_after_write.
  - now apply read_state_after_write.
  - apply read_after_clear. now apply tidy_write.
  - unfold Batch.read_state. apply read_state_keyless.
    pose proof (tidy_write (Some c) rows Htidy) as H. unfold tidy in H.
    apply andb_prop in H. destruct H as [Hh Ht].
    destruct (Sheets.write_checkpoint (Some c) rows) as [|h [|x t]];
      simpl in *; rewrite ?Hh; auto.
Qed.

(** ** A window that is no date *)

Lemma not_in_window C ts :
  startTimestamp C = NaN \/ endTimestamp C = NaN -> in_window C ts = false.
Proof.
  unfold in_window, ge, lt.
  intros [-> | ->]; destruct ts; try destruct (startTimestamp C); simpl;
    rewrite ?andb_false_r; reflexivity.
Qed.

Lemma no_window_no_staging E C recipients fresh evs :
  startTimestamp C = NaN \/ endTimestamp C = NaN ->
  Forall (fun ev => request_ok E C recipients fresh (fst ev)) evs ->
  existsb stages_or_looks_up evs = false.
Proof.
  intros Hnan Hok. apply Forall_existsb_false. eapply Forall_impl; [|exact Hok].
  intros [rq rs] Hrq. unfold stages_or_looks_up. simpl in *.
  destruct rq; try reflexivity; exfalso.
  - destruct Hrq as [Hne Hrows]. destruct rows as [|r rows]; [now apply Hne|].
    inversion Hrows as [|? ? (t & ? & ? & _ & _ & Hin) _]; subst.
    rewrite not_in_window in Hin by exact Hnan. discriminate.
  - destruct Hrq as (t & Hin & _). rewrite not_in_window in Hin by exact Hnan.
    discriminate.
  - destruct Hrq as (t & Hin & _). rewrite not_in_window in Hin by exact Hnan.
    discriminate.
Qed.

(** X14. With a window that is no date, nothing is ever staged.  When the
    month given does not parse, so that [startTimestamp] or [endTimestamp]
    is [NaN], no ticket passes the window test: a run of [export.js], and a
    run of the batch script, looks no record up and appends nothing to
    [Tickets_Raw], whatever the feed returns. *)
Theorem window_that_is_no_date_stages_nothing :
  forall (E : Env) (C : Config) (fuel : nat) (w : World),
    startTimestamp C = NaN \/ endTimestamp C = NaN ->
    (exists evs,
        events_since (trace w) (snd (main E C fuel w)) evs
        /\ existsb stages_or_looks_up evs = false)
    /\ (exists evs,
           events_since (trace w) (snd (Batch.run E C fuel w)) evs
           /\ existsb stages_or_looks_up evs = false).
Proof.
  intros E C fuel w Hnan. split.
  - destruct (main_requests E C fuel w) as (evs & Hev & _ & Hok).
    exists evs. split; [exact Hev|]. eapply no_window_no_staging; eauto.
  - destruct (Batch_run_requests E C fuel w) as (evs & Hev & _ & Hok).
    exists evs. split; [exact Hev|]. eapply no_window_no_staging; eauto.
Qed.

(** ** The rows of a page *)

Lemma enrich_cells E C t w r w' :
  enrich E C t w = (Ok r, w') ->
  first_cell r = ticket_id t /\ row_created_at r = ticket_created_at t.
Proof.
  intros H. apply enrich_Ok in H.
  destruct H as (email & cd & _ & ->). now split.
Qed.

Lemma last_cons_default {X} (a d : X) l : List.last (a :: l) d = List.last l a.
Proof.
  revert a d. induction l as [|b l IH]; intros a d; [reflexivity|].
  change (List.last (a :: b :: l) d) with (List.last (b :: l) d).
  now rewrite (IH b d), (IH b a).
Qed.

(** X15. The rows of a page are the tickets of the window, in the order of
    the page.  When the loop over a page's tickets comes to its end without
    an error, the rows it pushed, read by their first two cells, are
    exactly the tickets of the page whose creation time lies in the window,
    none dropped, none twice, in the order upstream returned them;
    [lastTicketID] is the id of the last of them, or what it was when the
    page admits none; and the spreadsheet was not touched. *)
Theorem page_rows_are_the_admitted_tickets :
  forall (E : Env) (C : Config) (ts : list ticket) (rows : list row)
         (lastID : value) (w : World) (found : list row * value) (w' : World),
    for_tickets E C ts rows lastID w = (Ok found, w') ->
    map first_cell (fst found)
    = (map first_cell rows
         ++ map ticket_id (filter (fun t => in_window C (createdTs E t)) ts))%list
    /\ map row_created_at (fst found)
       = (map row_created_at rows
            ++ map ticket_created_at
                 (filter (fun t => in_window C (createdTs E t)) ts))%list
    /\ snd found
       = List.last (map ticket_id (filter (fun t => in_window C (createdTs E t)) ts))
                   lastID
    /\ same_sheets w w'.
Proof.
  intros E C ts. induction ts as [|t rest IH]; intros rows lastID w found w' H.
  - injection H as <- <-. simpl. rewrite !app_nil_r. repeat split.
  - cbn [for_tickets filter] in H |- *.
    destruct (in_window C (createdTs E t)) eqn:Hin.
    + unfold bind in H. destruct (enrich E C t w) as [[r|msg|] w1] eqn:He;
        try discriminate.
      destruct (enrich_cells _ _ _ _ _ _ He) as [Hid Hat].
      destruct (IH _ _ _ _ _ H) as (H1 & H2 & H3 & H4).
      rewrite H1, H2, H3, !map_app. cbn [map]. rewrite Hid, Hat, <- !app_assoc.
      rewrite last_cons_default. repeat split; try apply H4.
      all: pose proof (enrich_frame E C w t w (same_sheets_refl w)) as Hf;
        rewrite He in Hf; destruct Hf as (Hs & Hr & Hl); destruct H4 as (Gs & Gr & Gl);
        simpl in Hs, Hr, Hl; congruence.
    + now apply IH.
Qed.

(** ** The month's window *)

Import JSDate Months.

Lemma months_In lo n y m :
  lo <= y < lo + Z.of_nat n -> 1 <= m <= 12 -> In (y, m) (months lo n).
Proof.
  intros Hy Hm. unfold months. apply in_flat_map.
  exists (Z.to_nat (y - lo)). split; [apply in_seq; lia|].
  apply in_map_iff. exists (Z.to_nat (m - 1)). split; [|apply in_seq; lia].
  f_equal; lia.
Qed.

Lemma months_checked : forallb month_checks (months 1970 230) = true.
Proof. vm_compute. reflexivity. Qed.

Lemma month_facts y m :
  1970 <= y < 2200 -> 1 <= m <= 12 ->
  date_string (month_name y m) = (month_name y m ++ "-01T00:00:00Z")%string
  /\ civil_from_days (days_from_civil y m 1) = (y, m, 1)
  /\ MakeDay y m 1
     = days_from_civil (fst (following y m)) (snd (following y m)) 1
  /\ civil_from_days (days_from_civil y m 1 - 1)
     = (fst (preceding y m), snd (preceding y m),
        days_in (fst (preceding y m)) (snd (preceding y m)))
  /\ MakeDay (fst (preceding y m)) (snd (preceding y m))
             (days_in (fst (preceding y m)) (snd (preceding y m)))
     = days_from_civil y m 1 + days_in (fst (preceding y m)) (snd (preceding y m)) - 1
  /\ 28 <= days_in y m <= 31.
Proof.
  intros Hy Hm.
  pose proof months_checked as H. rewrite forallb_forall in H.
  specialize (H (y, m) (months_In 1970 230 y m ltac:(lia) Hm)).
  unfold month_checks in H.
  destruct (following y m) as [y1 m1], (preceding y m) as [py pm].
  destruct (civil_from_days (days_from_civil y m 1)) as [[cy cm] cd].
  destruct (civil_from_days (days_from_civil y m 1 - 1)) as [[qy qm] qd].
  repeat match goal with
         | Hb : _ && _ = true |- _ => apply andb_prop in Hb; destruct Hb
         end.
  repeat match goal with
         | Hb : (_ =? _) = true |- _ => apply Z.eqb_eq in Hb
         | Hb : (_ <=? _) = true |- _ => apply Z.leb_le in Hb
         | Hb : (_ =? _)%string = true |- _ => apply String.eqb_eq in Hb
         end.
  subst. cbn [fst snd]. repeat split; auto.
Qed.

Lemma Day_east D tz :
  0 <= tz < msPerDay ->
  Day (D * msPerDay + tz) = D /\ TimeWithinDay (D * msPerDay + tz) = tz.
Proof.
  unfold Day, TimeWithinDay, msPerDay. intros H.
  split; Z.div_mod_to_equations; lia.
Qed.

Lemma Day_west D tz :
  - msPerDay < tz < 0 ->
  Day (D * msPerDay + tz) = D - 1
  /\ TimeWithinDay (D * msPerDay + tz) = tz + msPerDay.
Proof.
  unfold Day, TimeWithinDay, msPerDay. intros H.
  split; Z.div_mod_to_equations; lia.
Qed.

Lemma first_second_ms y m :
  1000 * first_second y m = days_from_civil y m 1 * msPerDay.
Proof. unfold first_second, msPerDay. lia. Qed.

Lemma floor_seconds D : floor_div_1000 (Some (D * msPerDay)) = Some (86400 * D).
Proof.
  unfold floor_div_1000, msPerDay. f_equal.
  replace (D * 86400000) with (86400 * D * 1000) by lia. now apply Z.div_mul.
Qed.

(** X16. The window of a month.  For every month from January 1970 to
    December 2199, given as [YYYY-MM], and a process whose local time is
    UTC or ahead of it by an offset of less than a day that is the same all
    year (no daylight saving), [getMonthRange] returns the first second of
    the month and the first second of the month after it: the window is the
    calendar month in UTC, it is not empty, it lasts 28 to 31 days, and the
    window of the next month begins where this one ends.  The date string
    is assumed to parse as ISO 8601 prescribes. *)
Theorem month_window_is_the_calendar_month :
  forall (parse : value -> num) (tz y m : Z),
    1970 <= y < 2200 -> 1 <= m <= 12 ->
    0 <= tz < 86400000 ->
    parse (str (month_name y m ++ "-01T00:00:00Z")) = Some (1000 * first_second y m) ->
    getMonthRange parse tz (month_name y m)
    = (Some (first_second y m),
       Some (first_second (fst (following y m)) (snd (following y m))))
    /\ first_second (fst (following y m)) (snd (following y m)) - first_second y m
       = 86400 * days_in y m
    /\ 28 <= days_in y m <= 31.
Proof.
  intros parse tz y m Hy Hm Htz Hparse.
  destruct (month_facts y m Hy Hm) as (Hs & Hc & Hnext & _ & _ & Hlen).
  split; [|split; [unfold first_second, days_in; lia | exact Hlen]].
  unfold getMonthRange. rewrite Hs, Hparse, first_second_ms.
  destruct (Day_east (days_from_civil y m 1) tz Htz) as [HD HT].
  unfold getMonth, setMonth, plus1, MonthFromTime, YearFromTime, DateFromTime,
    LocalTime, UTC, MakeDate.
  rewrite HT, HD, Hc. cbn [fst snd].
  replace (m - 1 + 1) with m by lia. rewrite Hnext.
  rewrite Z.add_simpl_r, !floor_seconds. reflexivity.
Qed.

(** X17. West of Greenwich the window is not the month.  When the local
    time of the process is behind UTC (by less than a day, the same all
    year), the first instant of the month falls, in local time, on the last
    day of the month before; [setMonth] then keeps that day of the month,
    and the window [getMonthRange] returns begins with the month but lasts
    as many days as the month before it has. *)
Theorem month_window_west_of_Greenwich :
  forall (parse : value -> num) (tz y m : Z),
    1970 <= y < 2200 -> 1 <= m <= 12 ->
    - 86400000 < tz < 0 ->
    parse (str (month_name y m ++ "-01T00:00:00Z")) = Some (1000 * first_second y m) ->
    getMonthRange parse tz (month_name y m)
    = (Some (first_second y m),
       Some (first_second y m
             + 86400 * days_in (fst (preceding y m)) (snd (preceding y m)))).
Proof.
  intros parse tz y m Hy Hm Htz Hparse.
  destruct (month_facts y m Hy Hm) as (Hs & _ & _ & Hc & Hmake & _).
  unfold getMonthRange. rewrite Hs, Hparse, first_second_ms.
  destruct (Day_west (days_from_civil y m 1) tz Htz) as [HD HT].
  unfold getMonth, setMonth, plus1, MonthFromTime, YearFromTime, DateFromTime,
    LocalTime, UTC, MakeDate.
  rewrite HT, HD, Hc. cbn [fst snd].
  replace (snd (preceding y m) - 1 + 1) with (snd (preceding y m)) by lia.
  rewrite Hmake.
  set (D := days_from_civil y m 1).
  set (n := days_in (fst (preceding y m)) (snd (preceding y m))).
  replace ((D + n - 1) * msPerDay + (tz + msPerDay) - tz)
    with ((D + n) * msPerDay) by lia.
  rewrite !floor_seconds. unfold first_second. fold D. f_equal. f_equal. lia.
Qed.

Lemma split_on_none sep s : forall piece,
  occurrences sep s = 0%nat ->
  split_on sep s piece = [(rev_string piece "" ++ s)%string].
Proof.
  induction s as [|c s IH]; intros piece H; cbn [split_on].
  - now rewrite append_empty_r.
  - simpl in H. destruct (c =? sep)%char; [discriminate|].
    rewrite IH by exact H. cbn [rev_string].
    now rewrite (rev_string_acc piece (String c "")), append_assoc.
Qed.

(** X18. A month that is no date.  When [EXPORT_MONTH] holds no dash, the
    month part is missing and the date string reads
    [<EXPORT_MONTH>-undefined-01T00:00:00Z]; and whenever the date string
    does not parse, [getMonthRange] returns [NaN] for both ends of the
    window, in any time zone. *)
Theorem month_that_is_no_date_has_no_window :
  forall (parse : value -> num) (tz : Z) (monthStr : string),
    (occurrences "-" monthStr = 0%nat ->
     date_string monthStr = (monthStr ++ "-undefined-01T00:00:00Z")%string)
    /\ (parse (str (date_string monthStr)) = NaN ->
        getMonthRange parse tz monthStr = (NaN, NaN)).
Proof.
  intros parse tz monthStr. split.
  - intros H. unfold date_string. rewrite split_on_none by exact H. reflexivity.
  - intros H. unfold getMonthRange. now rewrite H.
Qed.

(** ** The auto-chaining handler *)

Import ChainProps.

Lemma started_snoc evs ev : started (evs ++ [ev]).
Proof. intros H. now apply app_eq_nil in H. Qed.

Lemma for_tickets_lookups (E : Env) (C : Config) w0 (S : list event -> Prop) :
  (forall evs ev, is_lookup ev -> S evs -> S (evs ++ [ev])%list) ->
  forall ts rows last,
    triple (after w0 S) (for_tickets E C ts rows last)
           (post (after w0 started) (fun _ => after w0 S)).
Proof.
  intros HS.
  assert (Hcall : forall A rq (serve : nat -> World -> response * A),
             (forall n w, is_lookup (rq, fst (serve n w))) ->
             triple (after w0 S) (call E rq serve (fun w => w))
                    (post (after w0 started) (fun _ => after w0 S))).
  { intros A rq serve Hl.
    apply (after_call E rq serve _ w0 S started (fun _ => S));
      auto using started_snoc.
    intros n w. specialize (Hl n w).
    destruct rq, (fst (serve n w)); simpl in Hl; try contradiction; reflexivity. }
  induction ts as [|t rest IH]; intros rows last; simpl.
  - apply triple_ret. auto.
  - destruct (in_window C (createdTs E t)); [|apply IH].
    apply triple_bind with (Q := fun _ => after w0 S); [|intros r; apply IH].
    unfold enrich, fetch_user, fetch_comments.
    apply triple_bind with (Q := fun _ => after w0 S).
    + destruct (truthy (ticket_requester_id t)).
      * apply triple_bind with (Q := fun _ => after w0 S).
        -- apply Hcall. intros; exact Logic.I.
        -- intros u. apply triple_ret. auto.
      * apply triple_ret. auto.
    + intros email. apply triple_bind with (Q := fun _ => after w0 S).
      * apply Hcall. intros; exact Logic.I.
      * intros cd. apply triple_ret. auto.
Qed.

Lemma share_exact (E : Env) w0 exportId l : forall (done : list event),
  triple (after w0 (fun evs => evs = done))
         (share E exportId l)
         (post (after w0 started)
               (fun _ => after w0 (fun evs =>
                  evs = (done ++ map (fun x => (Grant exportId x, Done)) l)%list))).
Proof.
  induction l as [|x l IH]; intros done; simpl.
  - apply triple_ret. intros w Hw. simpl. eapply after_weaken; [|exact Hw].
    intros evs ->. now rewrite app_nil_r.
  - apply triple_bind
      with (Q := fun _ => after w0 (fun evs => evs = (done ++ [(Grant exportId x, Done)])%list)).
    + apply (after_call E _ _ _ w0 _ started
               (fun _ evs => evs = (done ++ [(Grant exportId x, Done)])%list));
        [reflexivity | auto using started_snoc |].
      intros evs -> _. reflexivity.
    + intros _.
      eapply triple_conseq;
        [apply (IH (done ++ [(Grant exportId x, Done)])%list) | auto |].
      intros [a|msg|] w; simpl; auto. intros Hw. eapply after_weaken; [|exact Hw].
      intros evs ->. now rewrite <- app_assoc.
Qed.

Lemma appended_lookups lookups : Forall is_lookup lookups -> appended lookups = [].
Proof.
  induction 1 as [|[rq rs] l Hev _ IH]; [reflexivity|].
  unfold appended in *. cbn [flat_map]. rewrite IH.
  destruct rq, rs; try contradiction; reflexivity.
Qed.

Lemma Raw_replay evs : forall w,
  Forall (fun ev => fst ev <> ClearRaw) evs ->
  Tickets_Raw (replay evs w) = (Tickets_Raw w ++ appended evs)%list.
Proof.
  induction evs as [|ev evs IH] using rev_ind; intros w Hevs.
  - simpl. now rewrite app_nil_r.
  - apply Forall_app in Hevs. destruct Hevs as [Hevs Hev].
    inversion Hev as [|? ? Hne _]; subst.
    rewrite replay_snoc, appended_app, app_assoc, <- (IH w Hevs).
    destruct ev as [rq rs]. simpl in Hne.
    destruct rq, rs; try reflexivity;
      cbn [played effect_of fst snd logged with_Raw Tickets_Raw appended flat_map];
      rewrite ?app_nil_r; try reflexivity.
    contradiction.
Qed.

Lemma triple_after_pure {A} w0 (S : list event -> Prop) (phi : Prop) (m : M A) Q :
  (phi -> triple (after w0 S) m Q) ->
  triple (after w0 (fun evs => S evs /\ phi)) m Q.
Proof.
  intros H w (evs & Hw & HS & Hphi). apply (H Hphi). now exists evs.
Qed.

Lemma triple_after_exists {A X} w0 (S : X -> list event -> Prop) (m : M A) Q :
  (forall x, triple (after w0 (S x)) m Q) ->
  triple (after w0 (fun evs => exists x, S x evs)) m Q.
Proof.
  intros H w (evs & Hw & x & HS). apply (H x). now exists evs.
Qed.

Lemma turn_no_clear C rows page lookups staged :
  Forall is_lookup lookups ->
  Forall (fun ev => fst ev <> ClearRaw) (turn C rows page lookups staged)
  /\ appended (turn C rows page lookups staged) = staged.
Proof.
  intros Hl. unfold turn. split.
  - repeat (apply Forall_app; split); repeat constructor; try discriminate.
    + eapply Forall_impl; [|exact Hl]. intros [rq rs] H.
      destruct rq; try contradiction; discriminate.
    + destruct staged; repeat constructor; discriminate.
  - rewrite !appended_app, (appended_lookups _ Hl).
    destruct staged; cbn [appended flat_map app]; now rewrite ?app_nil_r.
Qed.

Lemma body_told E R C recipients w0 :
  triple (after w0 (fun evs => evs = []))
         (Chain.body E R C recipients)
         (post (after w0 started)
               (fun r => after w0 (fun evs =>
                  started evs /\ told R C recipients w0 r evs))).
Proof.
  unfold Chain.body, Sheets.get_State.
  apply triple_bind
    with (Q := fun rows => after w0 (fun evs =>
                 evs = [(GetState, GotState rows)] /\ rows = State w0)).
  { apply (after_call E _ _ _ w0 _ started
             (fun rows evs => evs = [(GetState, GotState rows)] /\ rows = State w0));
      [reflexivity | auto using started_snoc |].
    intros evs -> _. simpl. auto. }
  intros rows. apply triple_after_pure. intros ->.
  set (cp := read_checkpoint (State w0) (startTimestamp C)).
  unfold fetch_feed.
  apply triple_bind
    with (Q := fun page => after w0 (fun evs =>
                 evs = [ (GetState, GotState (State w0));
                         (FetchFeed (str (incremental_url C cp)) cp, GotPage page) ])).
  { apply (after_call E _ _ _ w0 _ started
             (fun page evs =>
                evs = [ (GetState, GotState (State w0));
                        (FetchFeed (str (incremental_url C cp)) cp, GotPage page) ]));
      [reflexivity | auto using started_snoc |].
    intros evs -> _. reflexivity. }
  intros page.
  set (pre := [ (GetState, GotState (State w0));
                (FetchFeed (str (incremental_url C cp)) cp, GotPage page) ]).
  apply triple_bind
    with (Q := fun (_ : list row * value) => after w0 (fun evs =>
                 exists lookups, evs = (pre ++ lookups)%list
                                 /\ Forall is_lookup lookups)).
  { eapply triple_conseq.
    - apply (for_tickets_lookups E C w0
               (fun evs => exists lookups, evs = (pre ++ lookups)%list
                                           /\ Forall is_lookup lookups)).
      intros evs ev Hev (lookups & -> & Hl). exists (lookups ++ [ev])%list.
      split; [now rewrite app_assoc|]. apply Forall_app. split; [exact Hl|].
      now constructor.
    - intros w Hw. eapply after_weaken; [|exact Hw]. intros evs ->.
      exists []. split; [now rewrite app_nil_r | constructor].
    - auto. }
  intros [staged last]. cbn [fst].
  apply triple_bind
    with (Q := fun _ => after w0 (fun evs =>
                 exists lookups,
                   Forall is_lookup lookups
                   /\ evs = (pre ++ lookups
                             ++ match staged with
                                | [] => []
                                | _ :: _ => [(AppendRaw staged, Done)]
                                end)%list)).
  { destruct staged as [|r staged].
    - apply triple_ret. intros w Hw. simpl. eapply after_weaken; [|exact Hw].
      intros evs (lookups & -> & Hl). exists lookups. now rewrite app_nil_r.
    - unfold Sheets.append_Raw.
      apply (after_call E _ _ _ w0 _ started
               (fun _ evs =>
                  exists lookups,
                    Forall is_lookup lookups
                    /\ evs = (pre ++ lookups ++ [(AppendRaw (r :: staged), Done)])%list));
        [reflexivity | auto using started_snoc |].
      intros evs (lookups & -> & Hl) _. exists lookups.
      split; [exact Hl | now rewrite <- app_assoc]. }
  intros _.
  apply triple_bind
    with (Q := fun _ => after w0 (fun evs =>
                 exists lookups,
                   Forall is_lookup lookups
                   /\ evs = turn C (State w0) page lookups staged)).
  { unfold Sheets.update_State.
    apply (after_call E _ _ _ w0 _ started
             (fun _ evs =>
                exists lookups,
                  Forall is_lookup lookups
                  /\ evs = turn C (State w0) page lookups staged));
      [reflexivity | auto using started_snoc |].
    intros evs (lookups & Hl & ->) _. exists lookups. split; [exact Hl|].
    unfold turn. fold cp. fold pre. cbn [fst snd]. now rewrite <- !app_assoc. }
  intros _. apply triple_after_exists. intros lookups.
  apply triple_conseq
    with (P' := after w0 (fun evs => evs = turn C (State w0) page lookups staged
                                     /\ Forall is_lookup lookups))
         (Q' := post (after w0 started)
                     (fun r => after w0 (fun evs =>
                        started evs /\ told R C recipients w0 r evs)));
    [|intros w Hw; eapply after_weaken; [|exact Hw];
      intros evs [H1 H2]; split; assumption | auto].
  apply triple_after_pure. intros Hl.
  set (T := turn C (State w0) page lookups staged).
  assert (HT : started T) by (unfold T, turn; discriminate).
  destruct (ge (end_time page) (endTimestamp C)) eqn:Hge.
  - unfold Chain.finalize, Sheets.get_Raw, Sheets.clear_State, Sheets.clear_Raw.
    apply triple_bind
      with (Q := fun id => after w0 (fun evs =>
                   evs = (T ++ [(CreateFile ("Zendesk Export - " ++ monthStr C),
                                 GotFile id)])%list)).
    { apply (after_call E _ _ _ w0 _ started
               (fun id evs =>
                  evs = (T ++ [(CreateFile ("Zendesk Export - " ++ monthStr C),
                                GotFile id)])%list));
        [reflexivity | auto using started_snoc |].
      intros evs -> _. reflexivity. }
    intros id.
    apply triple_bind
      with (Q := fun raw => after w0 (fun evs =>
                   evs = (T ++ [ (CreateFile ("Zendesk Export - " ++ monthStr C),
                                  GotFile id);
                                 (GetRaw, GotRaw raw) ])%list
                   /\ raw = (Tickets_Raw w0 ++ staged)%list)).
    { apply (after_call E _ _ _ w0 _ started
               (fun raw evs =>
                  evs = (T ++ [ (CreateFile ("Zendesk Export - " ++ monthStr C),
                                 GotFile id);
                                (GetRaw, GotRaw raw) ])%list
                  /\ raw = (Tickets_Raw w0 ++ staged)%list));
        [reflexivity | auto using started_snoc |].
      intros evs -> _. cbn [fst snd]. split; [now rewrite <- app_assoc|].
      rewrite replay_snoc.
      cbn [played effect_of fst snd logged Tickets_Raw].
      destruct (turn_no_clear C (State w0) page lookups staged Hl) as [Hn Ha].
      unfold T. now rewrite Raw_replay, Ha. }
    intros raw. apply triple_after_pure. intros ->.
    set (raw := (Tickets_Raw w0 ++ staged)%list).
    apply triple_bind
      with (Q := fun _ => after w0 (fun evs =>
                   evs = (T ++ [ (CreateFile ("Zendesk Export - " ++ monthStr C),
                                  GotFile id);
                                 (GetRaw, GotRaw raw);
                                 (WriteExport id (header :: raw), Done) ])%list)).
    { apply (after_call E _ _ _ w0 _ started
               (fun _ evs =>
                  evs = (T ++ [ (CreateFile ("Zendesk Export - " ++ monthStr C),
                                 GotFile id);
                                (GetRaw, GotRaw raw);
                                (WriteExport id (header :: raw), Done) ])%list));
        [reflexivity | auto using started_snoc |].
      intros evs -> _. cbn [fst snd]. now rewrite <- app_assoc. }
    intros _.
    apply triple_bind
      with (Q := fun _ => after w0 (fun evs =>
                   evs = ((T ++ [ (CreateFile ("Zendesk Export - " ++ monthStr C),
                                   GotFile id);
                                  (GetRaw, GotRaw raw);
                                  (WriteExport id (header :: raw), Done) ])
                          ++ map (fun x => (Grant id x, Done)) recipients)%list)).
    { apply share_exact. }
    intros _.
    set (done := ((T ++ [ (CreateFile ("Zendesk Export - " ++ monthStr C), GotFile id);
                          (GetRaw, GotRaw raw);
                          (WriteExport id (header :: raw), Done) ])
                  ++ map (fun x => (Grant id x, Done)) recipients)%list).
    apply triple_bind
      with (Q := fun _ => after w0 (fun evs => exists mail,
                   evs = (done ++ [(mail, Done)])%list
                   /\ report C recipients id raw
                      = ([ (CreateFile ("Zendesk Export - " ++ monthStr C), GotFile id);
                           (GetRaw, GotRaw raw);
                           (WriteExport id (header :: raw), Done) ]
                         ++ map (fun x => (Grant id x, Done)) recipients
                         ++ [(mail, Done); (ClearState, Done); (ClearRaw, Done)])%list)).
    { apply (after_call E _ _ _ w0 _ started
               (fun _ evs => exists mail,
                  evs = (done ++ [(mail, Done)])%list
                  /\ report C recipients id raw
                     = ([ (CreateFile ("Zendesk Export - " ++ monthStr C), GotFile id);
                          (GetRaw, GotRaw raw);
                          (WriteExport id (header :: raw), Done) ]
                        ++ map (fun x => (Grant id x, Done)) recipients
                        ++ [(mail, Done); (ClearState, Done); (ClearRaw, Done)])%list));
        [reflexivity | auto using started_snoc |].
      intros evs -> _. cbn [fst snd]. eexists. split; reflexivity. }
    intros _. apply triple_after_exists. intros mail.
    apply triple_bind
      with (Q := fun _ => after w0 (fun evs =>
                   evs = (done ++ [(mail, Done); (ClearState, Done)])%list
                   /\ report C recipients id raw
                      = ([ (CreateFile ("Zendesk Export - " ++ monthStr C), GotFile id);
                           (GetRaw, GotRaw raw);
                           (WriteExport id (header :: raw), Done) ]
                         ++ map (fun x => (Grant id x, Done)) recipients
                         ++ [(mail, Done); (ClearState, Done); (ClearRaw, Done)])%list)).
    { apply (after_call E _ _ _ w0 _ started
               (fun _ evs =>
                  evs = (done ++ [(mail, Done); (ClearState, Done)])%list
                  /\ report C recipients id raw
                     = ([ (CreateFile ("Zendesk Export - " ++ monthStr C), GotFile id);
                          (GetRaw, GotRaw raw);
                          (WriteExport id (header :: raw), Done) ]
                        ++ map (fun x => (Grant id x, Done)) recipients
                        ++ [(mail, Done); (ClearState, Done); (ClearRaw, Done)])%list));
        [reflexivity | auto using started_snoc |].
      intros evs [-> Hrep] _. cbn [fst snd]. split; [now rewrite <- app_assoc | exact Hrep]. }
    intros _.
    apply triple_bind
      with (Q := fun _ => after w0 (fun evs =>
                   evs = (T ++ report C recipients id raw)%list)).
    { apply (after_call E _ _ _ w0 _ started
               (fun _ evs => evs = (T ++ report C recipients id raw)%list));
        [reflexivity | auto using started_snoc |].
      intros evs [-> Hrep] _. cbn [fst snd]. rewrite Hrep. unfold done.
      rewrite <- !app_assoc. reflexivity. }
    intros _. apply triple_ret. intros w Hw. simpl. eapply after_weaken; [|exact Hw].
    intros evs ->. split.
    + intros H. apply app_eq_nil in H. destruct H as [H _]. now apply HT.
    + exists page, lookups, staged. split; [exact Hl|]. split; [reflexivity|].
      split; [exact Hge|]. now exists id.
  - intros w Hw. unfold Chain.chain.
    assert (Hs : after w0 started w).
    { eapply after_weaken; [|exact Hw]. now intros evs ->. }
    destruct (fails E (List.length (trace w))) as [msg|]; simpl; [exact Hs|].
    eapply after_weaken; [|exact Hw]. intros evs ->. split; [exact HT|].
    exists page, lookups, staged. split; [exact Hl|]. repeat split. exact Hge.
Qed.

Lemma Chain_body_ok E R C recipients w0 :
  recipients <> [] ->
  triple (after w0 (Forall (fun ev => request_ok E C recipients false (fst ev))))
         (Chain.body E R C recipients)
         (post (after w0 (Forall (fun ev => request_ok E C recipients false (fst ev))))
               (fun _ => after w0 (Forall (fun ev =>
                                      request_ok E C recipients false (fst ev))))).
Proof.
  intros Hne.
  set (I := after w0 (Forall (fun ev => request_ok E C recipients false (fst ev)))).
  assert (Hcall : forall A rq (serve : nat -> World -> response * A) effect,
             (forall n w, logged rq (fst (serve n w)) (effect w)
                          = played (rq, fst (serve n w)) w) ->
             request_ok E C recipients false rq ->
             triple I (call E rq serve effect) (post I (fun _ => I)))
    by (intros; now apply call_ok).
  unfold Chain.body, Sheets.get_State, fetch_feed.
  apply triple_bind with (Q := fun _ => I);
    [apply Hcall; [reflexivity | exact Logic.I] | intros rows].
  apply triple_bind with (Q := fun _ => I);
    [apply Hcall; [reflexivity | apply first_url_truthy] | intros page].
  apply triple_bind
    with (Q := fun found w => I w /\ Forall (staged_row E C) (fst found)).
  { eapply triple_conseq; [apply (for_tickets_ok E C w0 recipients false) | |].
    - constructor.
    - auto.
    - intros [found|msg|] w; simpl; auto. tauto. }
  intros [staged last]. cbn [fst]. apply triple_pure. intros Hrows.
  apply triple_bind with (Q := fun _ => I).
  { destruct staged as [|r staged]; [apply triple_ret; auto|].
    unfold Sheets.append_Raw. apply Hcall; [reflexivity|].
    split; [discriminate | exact Hrows]. }
  intros _.
  apply triple_bind with (Q := fun _ => I);
    [unfold Sheets.update_State; apply Hcall; [reflexivity | exact Logic.I] | intros _].
  destruct (ge (end_time page) (endTimestamp C)).
  - unfold Chain.finalize, Sheets.get_Raw, Sheets.clear_State, Sheets.clear_Raw.
    apply triple_bind with (Q := fun _ => I);
      [apply Hcall; reflexivity | intros id].
    apply triple_bind with (Q := fun _ => I);
      [apply Hcall; [reflexivity | exact Logic.I] | intros raw].
    apply triple_bind with (Q := fun _ => I);
      [apply Hcall; [reflexivity | now exists raw] | intros _].
    apply triple_bind with (Q := fun _ => I);
      [apply share_ok, incl_refl | intros _].
    apply triple_bind with (Q := fun _ => I);
      [apply Hcall; [reflexivity | repeat split; exact Hne] | intros _].
    apply triple_bind with (Q := fun _ => I);
      [apply Hcall; [reflexivity | exact Logic.I] | intros _].
    apply triple_bind with (Q := fun _ => I);
      [apply Hcall; [reflexivity | exact Logic.I] | intros _].
    apply triple_ret. auto.
  - intros w Hw. unfold Chain.chain.
    destruct (fails E (List.length (trace w))); exact Hw.
Qed.

Lemma events_since_nil w : events_since (trace w) w [] /\ w = replay [] w.
Proof. unfold events_since. now rewrite app_nil_r. Qed.

Lemma Chain_recipients_nonempty C recipients :
  Chain.RECIPIENTS C = Some recipients -> recipients <> [].
Proof.
  unfold Chain.RECIPIENTS. destruct (EMAIL_RECIPIENTS C) as [s|]; [|discriminate].
  intros [= <-] H. apply (f_equal (@List.length string)) in H.
  rewrite split_comma_length in H. discriminate.
Qed.

(** X19. What a reply of the auto-chaining handler says was done.  A reply
    "Processing continued..." is sent only after one turn: [State] was
    read, one page was fetched from the cursor found there, the tickets
    admitted were looked up and their rows appended, the page's end was
    written to [State] and was below the end of the window (or not a
    number), and the handler's request to itself was answered.  A reply
    "Export complete" is sent only after such a turn with a cursor at or
    past the end of the window, followed by the whole finalization, every
    call answered: the report created and filled with the header, the rows
    staged before and the rows of this page, access granted to every
    recipient in order, the mail sent to all of them, the checkpoint and
    the staging rows cleared.  The handler makes no call at all exactly
    when the service account cannot be read, or [EMAIL_RECIPIENTS] is not
    set, or the month comes as an array because the parameter was given
    more than once; it then answers with the error. *)
Theorem chain_reply_tells_what_was_done :
  forall (E : Env) (R : Chain.Request) (C : Config) (w : World),
    exists evs,
      events_since (trace w) (snd (Chain.handler E R C w)) evs
      /\ snd (Chain.handler E R C w) = replay evs w
      /\ (forall recipients,
             Chain.RECIPIENTS C = Some recipients ->
             told R C recipients w (fst (Chain.handler E R C w)) evs)
      /\ (evs = [] <->
          Chain.setup_error R <> None
          \/ EMAIL_RECIPIENTS C = None
          \/ exists months, Chain.query_month R = Chain.several months)
      /\ (evs = [] -> exists error, fst (Chain.handler E R C w) = Chain.Error error).
Proof.
  intros E R C w. unfold Chain.handler.
  destruct (Chain.setup_error R) as [msg|] eqn:Hsetup.
  { exists []. cbn [fst snd]. destruct (events_since_nil w) as [H1 H2].
    split; [exact H1|]. split; [exact H2|]. split; [intros; exact Logic.I|].
    split; [|now exists msg]. split; [left; discriminate | reflexivity]. }
  unfold Chain.RECIPIENTS.
  destruct (EMAIL_RECIPIENTS C) as [s|] eqn:Henv.
  2:{ exists []. cbn [fst snd]. destruct (events_since_nil w) as [H1 H2].
      split; [exact H1|]. split; [exact H2|]. split; [discriminate|].
      split; [|now eexists]. split; [right; now left | reflexivity]. }
  assert (Hno : forall evs, started evs ->
                  (forall months, Chain.query_month R <> Chain.several months) ->
                  (evs = [] <->
                   None <> (None : option string)
                   \/ Some s = None
                   \/ exists months, Chain.query_month R = Chain.several months)
                  /\ (evs = [] -> exists error,
                         fst (match Chain.body E R C (split_comma s "") w with
                              | (Ok r, w') => (r, w')
                              | (Throw msg, w') => (Chain.Error msg, w')
                              | (OutOfFuel, w') => (Chain.Error "", w')
                              end) = Chain.Error error)).
  { intros evs Hs Hq. split; [split|]; try (intros ->; now contradiction Hs).
    intros [Hn|[Hn|(months & Hn)]];
      [now contradiction Hn | discriminate | now apply Hq in Hn]. }
  assert (Hbody :
    exists evs,
      events_since (trace w)
        (snd (match Chain.body E R C (split_comma s "") w with
              | (Ok r, w') => (r, w')
              | (Throw msg, w') => (Chain.Error msg, w')
              | (OutOfFuel, w') => (Chain.Error "", w')
              end)) evs
      /\ snd (match Chain.body E R C (split_comma s "") w with
              | (Ok r, w') => (r, w')
              | (Throw msg, w') => (Chain.Error msg, w')
              | (OutOfFuel, w') => (Chain.Error "", w')
              end) = replay evs w
      /\ (forall recipients,
             Some (split_comma s "") = Some recipients ->
             told R C recipients w
               (fst (match Chain.body E R C (split_comma s "") w with
                     | (Ok r, w') => (r, w')
                     | (Throw msg, w') => (Chain.Error msg, w')
                     | (OutOfFuel, w') => (Chain.Error "", w')
                     end)) evs)
      /\ started evs).
  { pose proof (body_told E R C (split_comma s "") w w (after_start _ w eq_refl)) as H.
    destruct (Chain.body E R C (split_comma s "") w) as [[r|msg|] w1]; simpl in H;
      apply after_events in H; destruct H as (evs & Hev & Hw & HS);
      exists evs; cbn [fst snd].
    - destruct HS as [Hs Ht]. repeat split; auto. intros recipients [= <-]. exact Ht.
    - repeat split; auto.
    - repeat split; auto. }
  destruct (Chain.query_month R) as [|month|months] eqn:Hq.
  - destruct Hbody as (evs & H1 & H2 & H3 & H4). exists evs.
    destruct (Hno evs H4) as [H5 H6]; [discriminate|].
    split; [exact H1|]. split; [exact H2|]. split; [exact H3|]. now split.
  - destruct Hbody as (evs & H1 & H2 & H3 & H4). exists evs.
    destruct (Hno evs H4) as [H5 H6]; [discriminate|].
    split; [exact H1|]. split; [exact H2|]. split; [exact H3|]. now split.
  - exists []. cbn [fst snd]. destruct (events_since_nil w) as [H1 H2].
    split; [exact H1|]. split; [exact H2|]. split; [intros; exact Logic.I|].
    split; [|now eexists]. split; [right; right; now exists months | reflexivity].
Qed.

(** The requests of a request to the handler: none, or those of the
    controller for the recipients of the environment. *)
Lemma Chain_handler_requests E R C w :
  exists evs,
    events_since (trace w) (snd (Chain.handler E R C w)) evs
    /\ (evs = []
        \/ exists recipients,
             Chain.RECIPIENTS C = Some recipients
             /\ Forall (fun ev => request_ok E C recipients false (fst ev)) evs).
Proof.
  unfold Chain.handler.
  assert (Hnone : exists evs : list event,
             events_since (trace w) w evs
             /\ (evs = []
                 \/ exists recipients,
                      Chain.RECIPIENTS C = Some recipients
                      /\ Forall (fun ev => request_ok E C recipients false (fst ev)) evs))
    by (exists []; split; [apply events_since_nil | now left]).
  destruct (Chain.setup_error R) as [msg|]; [exact Hnone|].
  destruct (Chain.RECIPIENTS C) as [recipients|] eqn:HR; [|exact Hnone].
  assert (Hbody :
    exists evs,
      events_since (trace w)
        (snd (match Chain.body E R C recipients w with
              | (Ok r, w') => (r, w')
              | (Throw msg, w') => (Chain.Error msg, w')
              | (OutOfFuel, w') => (Chain.Error "", w')
              end)) evs
      /\ (evs = []
          \/ exists recipients0,
               Some recipients = Some recipients0
               /\ Forall (fun ev => request_ok E C recipients0 false (fst ev)) evs)).
  { pose proof (Chain_body_ok E R C recipients w (Chain_recipients_nonempty _ _ HR) w
                  (after_start _ w (Forall_nil _))) as H.
    assert (Ha : after w (Forall (fun ev => request_ok E C recipients false (fst ev)))
                       (snd (match Chain.body E R C recipients w with
                             | (Ok r, w') => (r, w')
                             | (Throw msg, w') => (Chain.Error msg, w')
                             | (OutOfFuel, w') => (Chain.Error "", w')
                             end)))
      by (destruct (Chain.body E R C recipients w) as [[r|msg|] w1]; exact H).
    apply after_events in Ha. destruct Ha as (evs & Hev & _ & Hok).
    exists evs. split; [exact Hev|]. right. now exists recipients. }
  destruct (Chain.query_month R); [exact Hbody | exact Hbody | exact Hnone].
Qed.

(** X20. What the auto-chaining handler stages and shares.  On every path
    through the handler, also one that ends in an error reply, an append to
    [Tickets_Raw] carries at least one row, every row is whole and its
    creation time lies in the window; access to the report is granted to
    entries of [EMAIL_RECIPIENTS] only; and a mail goes to all of them. *)
Theorem chain_stages_the_window_and_shares_with_recipients :
  forall (E : Env) (R : Chain.Request) (C : Config) (w : World),
    exists evs,
      events_since (trace w) (snd (Chain.handler E R C w)) evs
      /\ (forall rows rs, In (AppendRaw rows, rs) evs ->
            rows <> [] /\ Forall whole_row rows /\ Forall (row_in_window E C) rows)
      /\ (forall id emailAddress rs, In (Grant id emailAddress, rs) evs ->
            exists recipients, Chain.RECIPIENTS C = Some recipients
                               /\ In emailAddress recipients)
      /\ (forall to subject text rs, In (SendMail to subject text, rs) evs ->
            Chain.RECIPIENTS C = Some to).
Proof.
  intros E R C w.
  destruct (Chain_handler_requests E R C w) as (evs & Hev & [->|(recipients & HR & Hok)]);
    exists evs || exists []; (split; [exact Hev|]).
  { repeat split; contradiction. }
  rewrite Forall_forall in Hok. split; [|split].
  - intros rows rs Hin. destruct (Hok _ Hin) as [Hne Hrows].
    split; [exact Hne|].
    split; (eapply Forall_impl; [|exact Hrows]); intros r Hr;
      now apply staged_row_whole in Hr.
  - intros id x rs Hin. exists recipients. split; [exact HR | exact (Hok _ Hin)].
  - intros to subject text rs Hin. destruct (Hok _ Hin) as (-> & _). exact HR.
Qed.

(** ** The month before *)

Lemma MakeDay_in_year y m d :
  1 <= m <= 12 -> MakeDay y (m - 1) d = days_from_civil y m 1 + d - 1.
Proof.
  intros Hm. unfold MakeDay.
  rewrite Z.div_small, Z.mod_small by lia.
  now replace (y + 0) with y by lia; replace (m - 1 + 1) with m by lia.
Qed.

(** X21. The month the auto-chaining handler works on.  A month given in
    the query is taken as it is.  Without one, the handler takes the month
    before the current month of the process's local date, in any time zone
    with a constant offset: December of the year before in January, and
    the month is written with two digits.  (For local dates from 1970 to
    2199.) *)
Theorem previous_month_is_the_month_before :
  forall (tz now y m : Z),
    1970 <= y < 2200 -> 1 <= m <= 12 ->
    YearFromTime (LocalTime tz now) = y ->
    MonthFromTime (LocalTime tz now) = m - 1 ->
    getPreviousMonth tz (Some now)
    = month_name (fst (preceding y m)) (snd (preceding y m))
    /\ (forall q, truthy q = false ->
          Chain.month_of tz (Some now) q
          = month_name (fst (preceding y m)) (snd (preceding y m)))
    /\ (forall q, truthy q = true -> Chain.month_of tz (Some now) q = to_string q).
Proof.
  intros tz now y m Hy Hm Hyear Hmonth.
  destruct (month_facts y m Hy Hm) as (_ & _ & _ & Hc & _ & _).
  assert (Hprev : getPreviousMonth tz (Some now)
                  = month_name (fst (preceding y m)) (snd (preceding y m))).
  { unfold getPreviousMonth, getFullYear, getMonth, first_of_month, minus1, plus1.
    rewrite Hyear, Hmonth, MakeDay_in_year by exact Hm.
    unfold UTC, MakeDate, LocalTime, YearFromTime, MonthFromTime.
    replace ((days_from_civil y m 1 + 1 - 1) * msPerDay + 0 - tz - 1 + tz)
      with (days_from_civil y m 1 * msPerDay + -1) by lia.
    destruct (Day_west (days_from_civil y m 1) (-1)) as [HD _];
      [unfold msPerDay; lia|].
    rewrite HD, Hc. cbn [fst snd string_of_num]. unfold month_name.
    now replace (snd (preceding y m) - 1 + 1) with (snd (preceding y m)) by lia. }
  split; [exact Hprev|]. unfold Chain.month_of. split; intros q Hq.
  - unfold or_else at 2. rewrite Hq. unfold or_else. simpl truthy. cbv iota.
    now rewrite Hprev.
  - unfold or_else at 2. rewrite Hq. unfold or_else. now rewrite Hq.
Qed.

(** ** The handlers that keep their progress in files *)

Lemma handler_collected U fs p t fs1 mailed :
  Handler.handler U fs = (Handler.Collected p t, fs1, mailed) ->
  let page := Handler.data U (Handler.startTime fs) in
  fs1 = Handler.mkFiles (Some (end_time page))
          (Some (Requests.stored fs ++ page_tickets page)%list)
          (Handler.december_export fs)
  /\ p = List.length (page_tickets page)
  /\ t = (List.length (Requests.stored fs) + p)%nat
  /\ mailed = []
  /\ truthy (end_of_stream page) = false.
Proof.
  unfold Handler.handler, Requests.stored, page_tickets.
  destruct (negb (Handler.credentials U)); [discriminate|].
  destruct (negb (Handler.response_ok U)); [discriminate|].
  destruct (truthy (end_of_stream (Handler.data U (Handler.startTime fs)))) eqn:He;
    simpl negb; cbv iota.
  - destruct (Handler.sendMail_error U); discriminate.
  - intros [= <- <- <- <-]. rewrite length_app. repeat split.
Qed.

Lemma forallb_last {X} (p : X -> bool) (l : list X) (a d : X) :
  forallb p (a :: l) = true -> p (List.last (a :: l) d) = true.
Proof.
  revert a. induction l as [|b l IH]; intros a H.
  - simpl in *. now rewrite andb_true_r in H.
  - change (List.last (a :: b :: l) d) with (List.last (b :: l) d).
    apply IH. cbn [forallb] in H. apply andb_prop in H. tauto.
Qed.

(** X22. The file-backed handler across requests.  As long as the replies
    are "collected", [/tmp/tickets.json] holds what it held before the
    first request followed by the tickets of every page served since, in
    order, none left out and none removed, whatever their creation time and
    even when a ticket comes twice; no mail was sent; and the total the
    last reply reports is the number of tickets in the file. *)
Theorem handler_collects_every_page :
  forall (Us : list Handler.Upstream) (fs : Handler.Files)
         (replies : list Handler.reply) (fs' : Handler.Files)
         (mailed : list (list row)),
    Requests.serve Us fs = (replies, fs', mailed) ->
    forallb Requests.collected replies = true ->
    Requests.stored fs' = (Requests.stored fs ++ Requests.served Us fs)%list
    /\ mailed = []
    /\ Requests.last_total replies (List.length (Requests.stored fs))
       = List.length (Requests.stored fs').
Proof.
  induction Us as [|U Us IH]; intros fs replies fs' mailed Hserve Hall.
  - injection Hserve as <- <- <-. simpl. rewrite app_nil_r. repeat split.
  - cbn [Requests.serve Requests.served] in Hserve |- *.
    destruct (Handler.handler U fs) as [[r fs1] mailed1] eqn:Hh.
    destruct (Requests.serve Us fs1) as [[rs fs2] mailed2] eqn:Hs.
    injection Hserve as <- <- <-. cbn [forallb] in Hall.
    apply andb_prop in Hall. destruct Hall as [Hr Hrs].
    destruct r as [| p t |]; try discriminate.
    destruct (handler_collected _ _ _ _ _ _ Hh) as (Hfs1 & Hp & Ht & Hm & _).
    destruct (IH _ _ _ _ Hs Hrs) as (H1 & H2 & H3).
    cbn [fst snd]. subst mailed1 mailed2.
    assert (Hst : Requests.stored fs1
                  = (Requests.stored fs
                     ++ page_tickets (Handler.data U (Handler.startTime fs)))%list)
      by (rewrite Hfs1; reflexivity).
    assert (Hlen : List.length (Requests.stored fs1) = t)
      by (rewrite Hst, length_app, Ht, Hp; reflexivity).
    split; [now rewrite H1, Hst, <- app_assoc|]. split; [reflexivity|].
    unfold Requests.last_total in *. rewrite last_cons_default.
    destruct rs as [|r' rs].
    + simpl in H3 |- *. now rewrite <- H3.
    + pose proof (forallb_last _ _ _ (Handler.Collected p t) Hrs) as Hc.
      rewrite last_cons_default in H3.
      destruct (List.last (r' :: rs) (Handler.Collected p t)) eqn:Hlast;
        try discriminate Hc.
      rewrite last_cons_default in Hlast. rewrite Hlast in H3. exact H3.
Qed.

(** X23. The end of the file-backed export.  A reply "completed" means
    that the feed signalled its end, that one workbook was mailed, holding
    one row of six cells for every ticket collected, those of the last page
    included, in the order collected, and that the three files are gone:
    the reply's total is the number of rows, and a further request finds no
    checkpoint and starts over from 1 December 2025. *)
Theorem handler_completion_mails_all_and_starts_over :
  forall (U : Handler.Upstream) (fs : Handler.Files) (n : nat)
         (fs' : Handler.Files) (mailed : list (list row)),
    Handler.handler U fs = (Handler.Completed n, fs', mailed) ->
    truthy (end_of_stream (Handler.data U (Handler.startTime fs))) = true
    /\ mailed
       = [map Handler.formatted
              (Requests.stored fs
               ++ page_tickets (Handler.data U (Handler.startTime fs)))%list]
    /\ Forall (fun sheet => List.length sheet = n
                            /\ Forall (fun r => List.length r = 6%nat) sheet) mailed
    /\ fs' = Handler.mkFiles None None None
    /\ Handler.startTime fs' = Handler.december_1_2025.
Proof.
  intros U fs n fs' mailed. unfold Handler.handler, Requests.stored, page_tickets.
  destruct (negb (Handler.credentials U)); [discriminate|].
  destruct (negb (Handler.response_ok U)); [discriminate|].
  destruct (truthy (end_of_stream (Handler.data U (Handler.startTime fs)))) eqn:He;
    simpl negb; cbv iota; [|discriminate].
  destruct (Handler.sendMail_error U); [discriminate|].
  intros [= <- <- <-]. repeat split.
  constructor; [|constructor]. split; [apply length_map|].
  apply Forall_forall. intros r Hr. apply in_map_iff in Hr.
  destruct Hr as (t & <- & _). reflexivity.
Qed.

Lemma Poll_handler_next U cj :
  Poll.startTime (snd (fst (Poll.handler U cj)))
  = Poll.resume (Poll.startTime cj) [fst (fst (Poll.handler U cj))]
  /\ snd (Poll.handler U cj)
     = if Poll.credentials U then [Poll.url U (Poll.startTime cj)] else [].
Proof.
  unfold Poll.handler. destruct (Poll.credentials U); [|now split].
  cbn [negb]. cbv iota.
  destruct (Poll.fetch_error U); [now split|].
  destruct (negb (Poll.response_ok U)); [now split|].
  destruct (Poll.json_error U); now split.
Qed.

(** X24. The polling handler resumes where it left off.  Over any
    sequence of requests, a request that has the Zendesk settings fetches
    one address, that of the feed with, as [start_time], the
    [next_start_time] of the last request before it that was answered with
    a page, or, if none was, what the checkpoint file found at first holds
    (1 December 2025 without one); a failed request moves nothing, and a
    request without the settings fetches nothing.  The checkpoint file left
    in the end says the same for the next request. *)
Theorem poll_resumes_where_it_left_off :
  forall (Us : list Poll.Upstream) (checkpoint_json : option num),
    Poll.startTime (snd (Poll.serve Us checkpoint_json))
    = Poll.resume (Poll.startTime checkpoint_json)
                  (map snd (fst (Poll.serve Us checkpoint_json)))
    /\ forall Us1 U Us2,
         Us = (Us1 ++ U :: Us2)%list ->
         exists before r later,
           fst (Poll.serve Us checkpoint_json)
           = (before
                ++ ((if Poll.credentials U
                     then [Poll.url U
                             (Poll.resume (Poll.startTime checkpoint_json)
                                (map snd before))]
                     else []), r) :: later)%list
           /\ List.length before = List.length Us1.
Proof.
  induction Us as [|U Us IH]; intros cj.
  - split; [reflexivity|]. intros [|x Us1] U Us2 H; discriminate H.
  - cbn [Poll.serve]. destruct (Poll_handler_next U cj) as [Hn Hf].
    destruct (Poll.handler U cj) as [[r0 next] fetched]. cbn [fst snd] in Hn, Hf.
    destruct (IH next) as [H1 H2].
    destruct (Poll.serve Us next) as [rs last]. cbn [fst snd map] in *.
    unfold Poll.resume in *. cbn [fold_left] in Hn |- *. split.
    + now rewrite H1, Hn.
    + intros [|x Us1] U' Us2 H.
      * injection H as <- <-. exists [], r0, rs. rewrite Hf. now split.
      * injection H as <- H.
        destruct (H2 Us1 U' Us2 H) as (before & r & later & Hs & Hl).
        exists ((fetched, r0) :: before), r, later.
        cbn [map snd fold_left app List.length]. rewrite <- Hn, Hs, Hl. now split.
Qed.

(** ** Commit after write in the sibling controllers *)

(** X25. Commit after write in the batch script and in the auto-chaining
    handler.  In every run of the one and in every request to the other,
    whatever the services answer and whichever call throws: a checkpoint
    write is made only right after the lookups of the page last fetched,
    all answered, and after the staging append of one row for each ticket
    the page admits has been answered (a page that admits nothing has no
    append); the cursor written is that page's [end_time]; and once a
    staging append has thrown, no checkpoint is written. *)
Theorem siblings_commit_after_write :
  forall (E : Env) (C : Config) (w : World),
    (forall fuel,
        exists evs,
          events_since (trace w) (snd (Batch.run E C fuel w)) evs
          /\ commit_after_write E C evs)
    /\ (forall R,
           exists evs,
             events_since (trace w) (snd (Chain.handler E R C w)) evs
             /\ commit_after_write E C evs).
Proof.
  intros E C w. split.
  - intros fuel. destruct (Batch_run_turns E C fuel w) as (evs & Ht & Ho & Hend).
    exists evs. split; [exact Ht | now apply turns_commit_after_write].
  - intros R. destruct (Chain_handler_turns E R C w) as (evs & Ht & Ho & Hend).
    exists evs. split; [exact Ht | now apply turns_commit_after_write].
Qed.

(** ** The further properties on concrete runs *)

(** Witness for X4: the December export of three tickets exits with code
    0. *)
Lemma clean_exit_clears_the_sheet_witness :
  let out := main (Sample.quiet Sample.three_page Sample.talk) Sample.december 5
                  Sample.empty_world in
  Tickets_Raw (snd out) = []
  /\ nth 1 (State (snd out)) [] = []
  /\ (exists earlier entry,
         Logs (snd out) = (earlier ++ [entry])%list
         /\ status entry = str "Export Complete")
  /\ (tidy (State Sample.empty_world) = true ->
      forall cp, read_checkpoint (State (snd out)) cp = cp).
Proof.
  apply (clean_exit_clears_the_sheet
           (Sample.quiet Sample.three_page Sample.talk) Sample.december 5
           Sample.empty_world).
  - discriminate.
  - vm_compute. reflexivity.
Defined.

(** Witness for X13: the cursor of the end of December 2025, written over
    an older one. *)
Lemma checkpoint_round_trip_witness :
  let rows := [["key"; "value"]; ["checkpoint"; "1764550000"]] in
  read_checkpoint (Sheets.write_checkpoint (Some 1767225600) rows) (Some 1764547200)
  = Some 1767225600
  /\ Batch.read_state (Sheets.write_checkpoint (Some 1767225600) rows) (Some 1764547200)
     = (Some 1767225600, false)
  /\ read_checkpoint
       (Sheets.clear_row2 (Sheets.write_checkpoint (Some 1767225600) rows))
       (Some 1764547200) = Some 1764547200
  /\ Batch.read_state
       (Sheets.clear_row2 (Sheets.write_checkpoint (Some 1767225600) rows))
       (Some 1764547200) = (Some 1764547200, true).
Proof.
  intros rows. apply (checkpoint_round_trip rows 1767225600 (Some 1764547200)).
  reflexivity.
Defined.

(** Witness for X14: the month "2025-13" on a feed of three December
    tickets. *)
Lemma window_that_is_no_date_stages_nothing_witness :
  let E := Sample.quiet Sample.three_page Sample.talk in
  let C := mkConfig "2025-13" NaN NaN (str "acme") None undefined in
  (exists evs,
      events_since (trace Sample.empty_world) (snd (main E C 5 Sample.empty_world)) evs
      /\ existsb stages_or_looks_up evs = false)
  /\ (exists evs,
         events_since (trace Sample.empty_world)
                      (snd (Batch.run E C 5 Sample.empty_world)) evs
         /\ existsb stages_or_looks_up evs = false).
Proof.
  intros E C. apply (window_that_is_no_date_stages_nothing E C 5 Sample.empty_world).
  left. reflexivity.
Defined.

(** Witness for X15: of A, created in December, and B, created at the
    first second of January, the page yields the row of A. *)
Lemma page_rows_are_the_admitted_tickets_witness :
  let E := Sample.quiet Sample.scenario_page Sample.talk in
  exists found w',
    for_tickets E Sample.december (page_tickets Sample.scenario_page) [] null
                Sample.empty_world = (Ok found, w')
    /\ map first_cell (fst found) = [number (Some 1)]
    /\ snd found = number (Some 1).
Proof.
  intros E.
  destruct (for_tickets E Sample.december (page_tickets Sample.scenario_page) [] null
                        Sample.empty_world) as [[found|msg|] w'] eqn:H.
  - exists found, w'. split; [reflexivity|].
    destruct (page_rows_are_the_admitted_tickets _ _ _ _ _ _ _ _ H)
      as (H1 & _ & H3 & _).
    split; [rewrite H1 | rewrite H3]; reflexivity.
  - exfalso. vm_compute in H. discriminate H.
  - exfalso. vm_compute in H. discriminate H.
Defined.

(** Witness for X16: December 2025 under UTC, the window of
    [Sample.december]. *)
Lemma month_window_is_the_calendar_month_witness :
  Months.getMonthRange Sample.iso_getTime 0 "2025-12"
  = (startTimestamp Sample.december, endTimestamp Sample.december).
Proof.
  apply (proj1 (month_window_is_the_calendar_month Sample.iso_getTime 0 2025 12
                  ltac:(lia) ltac:(lia) ltac:(lia) eq_refl)).
Defined.

(** Witness for X17: March 2025 five hours behind UTC ends with the 28th
    day, as February has 28. *)
Lemma month_window_west_of_Greenwich_witness :
  Months.getMonthRange Sample.iso_getTime (-18000000) "2025-03"
  = (Some 1740787200, Some (1740787200 + 28 * 86400)).
Proof.
  apply (month_window_west_of_Greenwich Sample.iso_getTime (-18000000) 2025 3
           ltac:(lia) ltac:(lia) ltac:(lia) eq_refl).
Defined.

(** Witness for X18: a year without a month. *)
Lemma month_that_is_no_date_has_no_window_witness :
  Months.date_string "2025" = "2025-undefined-01T00:00:00Z"
  /\ Months.getMonthRange Sample.iso_getTime 0 "2025" = (NaN, NaN).
Proof.
  destruct (month_that_is_no_date_has_no_window Sample.iso_getTime 0 "2025")
    as [H1 H2].
  split; [apply H1 | apply H2]; reflexivity.
Defined.

(** Witness for X21: at noon of 15 January 2026, Greenwich time, the
    handler takes December 2025. *)
Lemma previous_month_is_the_month_before_witness :
  getPreviousMonth 0 (Some 1768478400000) = "2025-12"
  /\ Chain.month_of 0 (Some 1768478400000) undefined = "2025-12"
  /\ Chain.month_of 0 (Some 1768478400000) (str "2025-07") = "2025-07".
Proof.
  destruct (previous_month_is_the_month_before 0 1768478400000 2026 1)
    as (H1 & H2 & H3); try lia; try (vm_compute; reflexivity).
  split; [exact H1|]. split; [exact (H2 undefined eq_refl)|].
  exact (H3 (str "2025-07") eq_refl).
Defined.

(** Witness for X22: two requests on a feed that has not come to its end,
    each served the same page of two tickets, neither of them of
    December. *)
Lemma handler_collects_every_page_witness :
  let Us := [Sample.stray_upstream; Sample.stray_upstream] in
  let fs' := snd (fst (Requests.serve Us Sample.no_files)) in
  Requests.stored fs'
  = [ Sample.ticket_at 11 "2025-11-20T09:30:00Z" 7;
      Sample.ticket_at 12 "2026-01-15T12:00:00Z" 8;
      Sample.ticket_at 11 "2025-11-20T09:30:00Z" 7;
      Sample.ticket_at 12 "2026-01-15T12:00:00Z" 8 ]
  /\ snd (Requests.serve Us Sample.no_files) = []
  /\ Requests.last_total (fst (fst (Requests.serve Us Sample.no_files))) 0 = 4%nat.
Proof.
  intros Us fs'.
  exact (handler_collects_every_page Us Sample.no_files
           (fst (fst (Requests.serve Us Sample.no_files))) fs'
           (snd (Requests.serve Us Sample.no_files)) eq_refl eq_refl).
Defined.

(** Witness for X23: a last page of three tickets, with one ticket
    collected before. *)
Lemma handler_completion_mails_all_and_starts_over_witness :
  let U := Handler.mkUpstream true true 200 "" (fun _ => Sample.three_page) None in
  let fs := Handler.mkFiles (Some (Some 1764550000))
                            (Some [Sample.ticket_at 100 "2025-12-01T08:00:00Z" 7]) None in
  let sheet := map Handler.formatted
                   (Sample.ticket_at 100 "2025-12-01T08:00:00Z" 7 :: Sample.three_tickets) in
  Handler.handler U fs = (Handler.Completed 4, Handler.mkFiles None None None, [sheet])
  /\ Forall (fun s => List.length s = 4%nat
                      /\ Forall (fun r => List.length r = 6%nat) s) [sheet]
  /\ Handler.startTime (Handler.mkFiles None None None) = Handler.december_1_2025.
Proof.
  intros U fs sheet.
  destruct (handler_completion_mails_all_and_starts_over U fs 4
              (Handler.mkFiles None None None) [sheet] eq_refl)
    as (_ & _ & H3 & _ & H5).
  split; [reflexivity|]. split; [exact H3 | exact H5].
Defined.

(** Witness for C8: lookups that answer without data, and the comment
    lookup of the second of three tickets, which throws. *)
Lemma lookup_failure_policy_witness :
  let t := Sample.ticket_at 101 "2025-12-02T08:00:00Z" 7 in
  let out := main Sample.second_lookup_throws Sample.december 5 Sample.empty_world in
  (exists r w',
      for_tickets Sample.empty_answers Sample.december [t] [] null Sample.empty_world
      = (Ok ([r], ticket_id t), w')
      /\ same_sheets Sample.empty_world w'
      /\ nth 2 r undefined = str "N/A"
      /\ nth 5 r undefined = str "")
  /\ fst out = Exit 1
  /\ exists rs,
      skipn 6 (trace (snd out))
      = [ (AppendLog [ str "now"; str "2025-12"; str "UNKNOWN"; number (Some 0);
                       number (Some 0); str "FAIL"; str "ERROR: socket hang up" ],
           rs) ].
Proof.
  intros t out.
  destruct (lookup_failure_policy Sample.empty_answers Sample.december) as [Hsoft _].
  destruct (lookup_failure_policy Sample.second_lookup_throws Sample.december)
    as [_ Hthrow].
  split.
  - destruct (Hsoft t [] [] null Sample.empty_world)
      as (r & w' & Hfor & Hsame & _ & Hmail & Hdigest); try reflexivity.
    exists r, w'. split; [exact Hfor|]. split; [exact Hsame|].
    split; [apply Hmail; now right | apply Hdigest; reflexivity].
  - destruct (Hthrow 5%nat Sample.empty_world) as (evs & Ht & H).
    unfold events_since in Ht. cbn [Sample.empty_world trace app] in Ht.
    destruct (H (firstn 5 (trace (snd out)))
                (FetchComments "https://acme.zendesk.com/api/v2/tickets/102/comments.json")
                "socket hang up" (skipn 6 (trace (snd out))))
      as (Hexit & _ & rs & Hlater).
    + rewrite <- Ht. vm_compute. reflexivity.
    + eexists. right. reflexivity.
    + split; [exact Hexit|]. exists rs. exact Hlater.
Defined.
